(** * xfs_repair phase 7: link-count reconciliation (repair/phase7.c)

    A shallow embedding of [set_nlinks], [update_inode_nlinks],
    [phase7_alt_function], [phase7_alt] and [phase7], and the properties of
    the link-count reconciliation pass proved about it.

    The C code reads process-wide globals, calls into libxfs for
    transactions and into the in-core inode tree built by the earlier
    phases.  The globals become a record passed around, the libxfs calls
    become operations of a small state-and-abort monad over a [world]
    (the on-disk inodes plus a log of everything the phase did), and the
    inode tree becomes, per allocation group, the list of chunk records
    that [findfirst_inode_rec]/[next_ino_rec] walk through. *)

From stdpp Require Import base numbers option list gmap strings.

Local Open Scope Z_scope.

(** ** Constants of the xfs headers

    None of these macros is defined in phase7.c: they are taken as given,
    whatever their values. *)
Record xfs_headers := {
  XFS_INODES_PER_CHUNK : Z;
  XFS_MAXLINK_1 : Z;
  XFS_TRANS_REMOVE : Z;
  XFS_TRANS_PERM_LOG_RES : Z;
  XFS_TRANS_RELEASE_LOG_RES : Z;
  XFS_TRANS_SYNC : Z;
  XFS_REMOVE_LOG_COUNT : Z;
  XFS_ILOG_CORE : Z;
  EINVAL : Z
}.

(** Wrap-around of the C integer types involved. *)
Definition u32 (x : Z) : Z := x mod 2 ^ 32.
Definition u64 (x : Z) : Z := x mod 2 ^ 64.

(** ** Data *)

(** [xfs_dinode_core_t]: only the link count is read or written here. *)
Record xfs_dinode_core := { di_nlink : Z }.

(** [xfs_inode_t]: the in-core inode handed out by [libxfs_trans_iget];
    [i_d] is its copy of the on-disk core. *)
Record xfs_inode := { i_ino : Z; i_d : xfs_dinode_core }.

(** [xfs_mount_t].  [m_tr_remove] is what [XFS_REMOVE_LOG_RES(mp)] reads
    and [m_agino_log] what [XFS_INO_AGINO_BITS(mp)] reads.
    [m_reserve_error] stands for the transaction subsystem: the error
    [libxfs_trans_reserve] returns on this mount for a block reservation
    of the given size, 0 for success. *)
Record xfs_mount := {
  m_agino_log : Z;
  m_tr_remove : Z;
  sb_icount : Z;
  m_reserve_error : Z -> Z
}.

Definition XFS_REMOVE_LOG_RES (mp : xfs_mount) : Z := m_tr_remove mp.
Definition XFS_INO_AGINO_BITS (mp : xfs_mount) : Z := m_agino_log mp.

(** [XFS_AGINO_TO_INO(mp,a,i)] is [((xfs_ino_t)(a) << XFS_INO_AGINO_BITS(mp)) | (i)],
    on 64-bit inode numbers. *)
Definition XFS_AGINO_TO_INO (mp : xfs_mount) (a i : Z) : Z :=
  Z.lor (u64 (Z.shiftl a (XFS_INO_AGINO_BITS mp))) i.

(** Modelled from the spec: [ino_tree_node_t] is declared in incore.h,
    which is not part of the sources here.  A chunk record answers, per
    slot, whether it is free, confirmed, reached, referenced, and with
    what reference count and what on-disk link count.  A slot index is the
    [j] of the C loops. *)
Record ino_tree_node := {
  ino_startnum : Z;
  ir_free : Z -> bool;
  ir_confirmed : Z -> bool;
  ir_reached : Z -> bool;
  ir_referenced : Z -> bool;
  ir_nrefs : Z -> Z;
  ir_disk_nlinks : Z -> Z
}.

(** Modelled from the spec: the per-slot queries of incore.h.  Both
    counters are [__uint32_t]. *)
Definition is_inode_confirmed (irec : ino_tree_node) (j : Z) : bool := ir_confirmed irec j.
Definition is_inode_free (irec : ino_tree_node) (j : Z) : bool := ir_free irec j.
Definition is_inode_reached (irec : ino_tree_node) (j : Z) : bool := ir_reached irec j.
Definition is_inode_referenced (irec : ino_tree_node) (j : Z) : bool := ir_referenced irec j.
Definition num_inode_references (irec : ino_tree_node) (j : Z) : Z := u32 (ir_nrefs irec j).
Definition get_inode_disk_nlinks (irec : ino_tree_node) (j : Z) : Z := u32 (ir_disk_nlinks irec j).

(** The globals of globals.h that phase 7 reads, and the inode tree:
    [incore agno] is the chain of chunk records of allocation group
    [agno], in the order [findfirst_inode_rec]/[next_ino_rec] give them. *)
Record globals := {
  no_modify : bool;
  do_prefetch : bool;
  fs_inode_nlink : bool;
  orphanage_ino : Z;
  glob_agcount : Z;
  incore : Z -> list ino_tree_node
}.

(** Modelled from the spec: the "first" lookup and "next" advance of the
    chain of an allocation group.  A chunk record pointer is the rest of
    the chain from that record on; NULL is the empty chain. *)
Definition findfirst_inode_rec (g : globals) (agno : Z) : list ino_tree_node := incore g agno.
Definition next_ino_rec (irec : list ino_tree_node) : list ino_tree_node := tail irec.

(** ** What the phase does to the outside *)

Inductive event :=
| EvLog (fmt : string) (args : list Z)
| EvWarn (fmt : string) (args : list Z)
| EvError (fmt : string) (args : list Z)
| EvTransAlloc (type : Z)
| EvTransReserve (blocks logspace rtextents flags logcount : Z)
| EvTransIget (ino error : Z)
| EvTransIput (ino : Z)
| EvTransCancel (flags : Z)
| EvTransLogInode (ip : xfs_inode) (flags : Z)
| EvTransCommit (flags : Z)
| EvProgressMsg (verify_only : bool) (total : Z)
| EvProgress (agno n : Z)
| EvFinalReport
| EvVisit (agno agino : Z).

(** [EvVisit] is a ghost event: no C statement emits it.  The walkers
    record it for every slot that gets past the [is_inode_free] test. *)

(** How a run can stop early: [do_error] exits the process, a failed
    assertion aborts it. *)
Inductive fatal :=
| DoError
| AssertFailed (what : string).

Inductive outcome (A : Type) :=
| Done (a : A)
| Fatal (f : fatal).
Arguments Done {A} a.
Arguments Fatal {A} f.

(** [w_disk] holds the on-disk inode cores by inode number; an inode
    number outside it cannot be mapped. *)
Record world := {
  w_disk : gmap Z xfs_dinode_core;
  w_log : list event
}.

Definition M (A : Type) : Type := world -> outcome A * world.

Definition ret {A} (a : A) : M A := fun w => (Done a, w).

Definition bind {A B} (c : M A) (k : A -> M B) : M B :=
  fun w => match c w with
           | (Done a, w') => k a w'
           | (Fatal f, w') => (Fatal f, w')
           end.

Declare Scope xfs_scope.
Delimit Scope xfs_scope with xfs.
Notation "x <- c ;; k" := (bind c (fun x => k))
  (at level 100, c at next level, right associativity) : xfs_scope.
Notation "c ;; k" := (bind c (fun _ => k))
  (at level 100, right associativity) : xfs_scope.
Local Open Scope xfs_scope.

Definition emit (e : event) : M unit :=
  fun w => (Done tt, {| w_disk := w_disk w; w_log := w_log w ++ [e] |}).

Definition abort {A} (f : fatal) : M A := fun w => (Fatal f, w).

(** Modelled from the spec: err_protos.h is not part of the sources here.
    [do_log] and [do_warn] record a message and return; [do_error]
    records one and ends the run. *)
Definition do_log (fmt : string) (args : list Z) : M unit := emit (EvLog fmt args).
Definition do_warn (fmt : string) (args : list Z) : M unit := emit (EvWarn fmt args).
Definition do_error {A} (fmt : string) (args : list Z) : M A :=
  emit (EvError fmt args) ;; abort DoError.

(** Modelled from the spec: the macro is not defined in phase7.c.  A
    failed assertion is an internal consistency violation and ends the
    run; [phase7_alt_function] spells it [assert]. *)
Definition ASSERT (what : string) (ex : bool) : M unit :=
  if ex then ret tt else abort (AssertFailed what).

Section Headers.

Variable h : xfs_headers.

(** ** The transaction subsystem

    libxfs/trans.c is not part of the sources here.  A transaction is
    opened with a reservation, an inode is attached to it, and it ends in
    exactly one of commit (the logged inode cores reach the disk) or
    cancel (nothing does). *)

(** Modelled from the spec: the transaction handle, with what was
    reserved for it and the inodes logged in it. *)
Record xfs_trans := {
  t_type : Z;
  t_blk_res : Z;
  t_log_res : Z;
  t_log_count : Z;
  t_flags : Z;
  t_items : list xfs_inode
}.

(** Modelled from the spec: open a transaction of the given type. *)
Definition libxfs_trans_alloc (mp : xfs_mount) (type : Z) : M xfs_trans :=
  emit (EvTransAlloc type) ;;
  ret {| t_type := type; t_blk_res := 0; t_log_res := 0; t_log_count := 0;
         t_flags := 0; t_items := [] |}.

(** Modelled from the spec: reserve for the transaction; the error
    returned is the mount's [m_reserve_error] for the blocks asked. *)
Definition libxfs_trans_reserve (mp : xfs_mount) (tp : xfs_trans)
    (blocks logspace rtextents flags logcount : Z) : M (Z * xfs_trans) :=
  emit (EvTransReserve blocks logspace rtextents flags logcount) ;;
  ret (m_reserve_error mp blocks,
       {| t_type := t_type tp; t_blk_res := blocks; t_log_res := logspace;
          t_log_count := logcount; t_flags := flags; t_items := t_items tp |}).

(** Modelled from the spec: attach an inode for update.  The result of
    [libxfs_trans_iget] is a nonzero error or the loaded inode. *)
Inductive iget_result :=
| IgetFail (error : Z)
| IgetOk (ip : xfs_inode).

(** Modelled from the spec: mapping fails, with [EINVAL], for an inode
    number the disk does not hold; otherwise the inode is loaded with a
    copy of its on-disk core. *)
Definition libxfs_trans_iget (mp : xfs_mount) (tp : xfs_trans) (ino flags lock_flags : Z)
    : M iget_result :=
  fun w => match w_disk w !! ino with
           | Some d => (emit (EvTransIget ino 0) ;;
                        ret (IgetOk {| i_ino := ino; i_d := d |})) w
           | None => (emit (EvTransIget ino (EINVAL h)) ;; ret (IgetFail (EINVAL h))) w
           end.

(** Modelled from the spec: release the inode reference. *)
Definition libxfs_trans_iput (tp : xfs_trans) (ip : xfs_inode) (lock_flags : Z) : M unit :=
  emit (EvTransIput (i_ino ip)).

(** Modelled from the spec: release without commit; nothing reaches the
    disk. *)
Definition libxfs_trans_cancel (tp : xfs_trans) (flags : Z) : M unit :=
  emit (EvTransCancel flags).

(** Modelled from the spec: mark the inode dirty and log it in the
    transaction. *)
Definition libxfs_trans_log_inode (tp : xfs_trans) (ip : xfs_inode) (flags : Z) : M xfs_trans :=
  emit (EvTransLogInode ip flags) ;;
  ret {| t_type := t_type tp; t_blk_res := t_blk_res tp; t_log_res := t_log_res tp;
         t_log_count := t_log_count tp; t_flags := t_flags tp;
         t_items := t_items tp ++ [ip] |}.

Definition flush_inode (disk : gmap Z xfs_dinode_core) (ip : xfs_inode) : gmap Z xfs_dinode_core :=
  <[i_ino ip := i_d ip]> disk.

(** Modelled from the spec: commit synchronously; the cores of the
    logged inodes reach the disk and the commit succeeds. *)
Definition libxfs_trans_commit (tp : xfs_trans) (flags : Z) : M Z :=
  fun w => (Done 0, {| w_disk := foldl flush_inode (w_disk w) (t_items tp);
                       w_log := w_log w ++ [EvTransCommit flags] |}).

(** Modelled from the spec: progress.h is not part of the sources here;
    its calls are recorded as the report stream they feed. *)
Definition set_progress_msg (verify_only : bool) (total : Z) : M unit :=
  emit (EvProgressMsg verify_only total).
Definition PROG_RPT_INC (agno n : Z) : M unit := emit (EvProgress agno n).
Definition print_final_rpt : M unit := emit EvFinalReport.

(** ** Loops *)

(** [for (j = lo; j < lo + n; j++) body(j)] *)
Fixpoint for_loop (n : nat) (lo : Z) (body : Z -> M unit) : M unit :=
  match n with
  | O => ret tt
  | S n' => body lo ;; for_loop n' (lo + 1) body
  end.

(** [while (irec != NULL) { body(irec); irec = next_ino_rec(irec); }] *)
Fixpoint while_irec (irec : list ino_tree_node) (body : ino_tree_node -> M unit) : M unit :=
  match irec with
  | [] => ret tt
  | r :: next => body r ;; while_irec next body
  end.

(** ** phase7.c *)

Section Phase7.

Variable g : globals.

(** [dinoc] and [dirty] are pointers in C: the new values are returned. *)
Definition set_nlinks (dinoc : xfs_dinode_core) (ino nrefs : Z) (dirty : Z)
    : M (xfs_dinode_core * Z) :=
  if di_nlink dinoc =? nrefs then ret (dinoc, dirty)
  else if negb (no_modify g) then
    let dirty := 1 in
    do_warn "resetting inode %llu nlinks from %d to %d\n" [ino; di_nlink dinoc; nrefs] ;;
    (if (XFS_MAXLINK_1 h) <? nrefs then
       ASSERT "fs_inode_nlink" (fs_inode_nlink g) ;;
       do_warn "nlinks %d will overflow v1 ino, ino %llu will be converted to version 2\n"
         [nrefs; ino]
     else ret tt) ;;
    ret ({| di_nlink := nrefs |}, dirty)
  else
    do_warn "would have reset inode %llu nlinks from %d to %d\n" [ino; di_nlink dinoc; nrefs] ;;
    ret (dinoc, dirty).

Definition update_inode_nlinks (mp : xfs_mount) (ino nlinks : Z) : M unit :=
  tp <- libxfs_trans_alloc mp (XFS_TRANS_REMOVE h) ;;
  r <- libxfs_trans_reserve mp tp (if no_modify g then 0 else 10)
         (XFS_REMOVE_LOG_RES mp) 0 (XFS_TRANS_PERM_LOG_RES h) (XFS_REMOVE_LOG_COUNT h) ;;
  let '(error, tp) := r in
  ASSERT "error == 0" (error =? 0) ;;
  r <- libxfs_trans_iget mp tp ino 0 0 ;;
  match r with
  | IgetFail error =>
      if negb (no_modify g) then
        do_error "couldn't map inode %llu, err = %d\n" [ino; error]
      else
        do_warn "couldn't map inode %llu, err = %d, can't compare link counts\n" [ino; error] ;;
        ret tt
  | IgetOk ip =>
      let dirty := 0 in
      r <- (if negb (ino =? orphanage_ino g)
            then set_nlinks (i_d ip) ino nlinks dirty
            else ret (i_d ip, dirty)) ;;
      let '(dinoc, dirty) := r in
      let ip := {| i_ino := i_ino ip; i_d := dinoc |} in
      if dirty =? 0 then
        libxfs_trans_iput tp ip 0 ;;
        libxfs_trans_cancel tp (XFS_TRANS_RELEASE_LOG_RES h)
      else
        tp <- libxfs_trans_log_inode tp ip (XFS_ILOG_CORE h) ;;
        error <- libxfs_trans_commit tp (Z.lor (XFS_TRANS_RELEASE_LOG_RES h) (XFS_TRANS_SYNC h)) ;;
        ASSERT "error == 0" (error =? 0)
  end.

(** The body of the slot loop, the same text in [phase7] and in
    [phase7_alt_function] but for [ASSERT] spelled [assert] there.  The
    [EvVisit] is the ghost event. *)
Definition slot_body (mp : xfs_mount) (agno : Z) (irec : ino_tree_node) (j : Z) : M unit :=
  ASSERT "is_inode_confirmed(irec, j)" (is_inode_confirmed irec j) ;;
  if is_inode_free irec j then ret tt
  else
    emit (EvVisit agno (u32 (ino_startnum irec + j))) ;;
    ASSERT "no_modify || is_inode_reached(irec, j)" (no_modify g || is_inode_reached irec j) ;;
    ASSERT "no_modify || is_inode_referenced(irec, j)"
      (no_modify g || is_inode_referenced irec j) ;;
    let nrefs := num_inode_references irec j in
    if negb (get_inode_disk_nlinks irec j =? nrefs) then
      update_inode_nlinks mp (XFS_AGINO_TO_INO mp agno (u32 (ino_startnum irec + j))) nrefs
    else ret tt.

Definition phase7_alt_function (mp : xfs_mount) (agno : Z) : M unit :=
  while_irec (findfirst_inode_rec g agno) (fun irec =>
    for_loop (Z.to_nat (XFS_INODES_PER_CHUNK h)) 0 (slot_body mp agno irec) ;;
    PROG_RPT_INC agno (XFS_INODES_PER_CHUNK h)).

(** *** The worker pool (threads.h)

    [queue_work] and [wait_for_workers] are not part of the sources
    here.  One task is queued per allocation group; a task runs its units
    of work in order, a unit runs to completion on its worker, and units
    of different tasks interleave in an order the caller does not
    control. *)

(** Modelled from the spec: the unit of work of [phase7_alt_function],
    one pass through the body of its slot loop or the progress increment
    that ends a chunk. *)
Inductive step :=
| StepSlot (agno : Z) (irec : ino_tree_node) (j : Z)
| StepProgress (agno : Z).

Definition exec_step (mp : xfs_mount) (s : step) : M unit :=
  match s with
  | StepSlot agno irec j => slot_body mp agno irec j
  | StepProgress agno => PROG_RPT_INC agno (XFS_INODES_PER_CHUNK h)
  end.

Fixpoint exec_steps (mp : xfs_mount) (l : list step) : M unit :=
  match l with
  | [] => ret tt
  | s :: l' => exec_step mp s ;; exec_steps mp l'
  end.

(** The units of work of [phase7_alt_function mp agno], in order. *)
Definition chunk_units (agno : Z) (irec : ino_tree_node) : list step :=
  map (StepSlot agno irec) (seqZ 0 (XFS_INODES_PER_CHUNK h)) ++ [StepProgress agno].

Definition work_units (agno : Z) : list step :=
  flat_map (chunk_units agno) (findfirst_inode_rec g agno).

(** Modelled from the spec: [pick k tasks] takes the next unit of the
    [k]-th queued task. *)
Fixpoint pick (k : nat) (tasks : list (list step)) : option (step * list (list step)) :=
  match tasks with
  | [] => None
  | t :: ts =>
      match k with
      | O => match t with
             | [] => None
             | s :: t' => Some (s, t' :: ts)
             end
      | S k' => match pick k' ts with
                | Some (s, ts') => Some (s, t :: ts')
                | None => None
                end
      end
  end.

(** Modelled from the spec: [queue_work] and [wait_for_workers].
    [sched] names, unit after unit, the task whose worker runs next; a
    name of a finished task is passed over.  [wait_for_workers] returns
    when every task has finished, so whatever the schedule leaves is run
    to the end.  A fatal error in one unit ends the run. *)
Fixpoint run_workers (mp : xfs_mount) (sched : list nat) (tasks : list (list step)) : M unit :=
  match sched with
  | [] => exec_steps mp (concat tasks)
  | k :: sched' =>
      match pick k tasks with
      | Some (s, tasks') => exec_step mp s ;; run_workers mp sched' tasks'
      | None => run_workers mp sched' tasks
      end
  end.

Definition phase7_alt (mp : xfs_mount) (sched : list nat) : M unit :=
  set_progress_msg (no_modify g) (u64 (sb_icount mp)) ;;
  let queue := map work_units (seqZ 0 (glob_agcount g)) in
  run_workers mp sched queue ;;
  print_final_rpt.

Definition phase7 (mp : xfs_mount) (sched : list nat) : M unit :=
  (if negb (no_modify g) then
     do_log "Phase 7 - verify and correct link counts...\n" []
   else
     do_log "Phase 7 - verify link counts...\n" []) ;;
  if do_prefetch g then phase7_alt mp sched
  else
    for_loop (Z.to_nat (glob_agcount g)) 0 (fun i =>
      while_irec (findfirst_inode_rec g i) (fun irec =>
        for_loop (Z.to_nat (XFS_INODES_PER_CHUNK h)) 0 (slot_body mp i irec))).

End Phase7.

(** ** Reading a log *)

(** The corrections a log records: inode number and the link count
    logged for it. *)
Definition correction_of (e : event) : option (Z * Z) :=
  match e with
  | EvTransLogInode ip _ => Some (i_ino ip, di_nlink (i_d ip))
  | _ => None
  end.
Definition corrections (log : list event) : list (Z * Z) := omap correction_of log.

Definition visit_of (e : event) : option (Z * Z) :=
  match e with
  | EvVisit agno agino => Some (agno, agino)
  | _ => None
  end.
Definition visited (log : list event) : list (Z * Z) := omap visit_of log.

Definition is_commit (e : event) : bool :=
  match e with EvTransCommit _ => true | _ => false end.
Definition commits (log : list event) : nat := length (filter (fun e => is_commit e = true) log).

Definition warning_of (e : event) : option (string * list Z) :=
  match e with
  | EvWarn fmt args => Some (fmt, args)
  | _ => None
  end.
Definition warnings (log : list event) : list (string * list Z) := omap warning_of log.

(** The state a run ends in, finished or not. *)
Definition final {A} (r : outcome A * world) : world := snd r.
Definition finished {A} (r : outcome A * world) : bool :=
  match fst r with Done _ => true | Fatal _ => false end.

Definition nlink_on_disk (w : world) (ino : Z) : option Z := di_nlink <$> w_disk w !! ino.



(** ** Running the monad *)

(** [logged w evs] is [w] after [evs] have been appended to its log. *)
Definition logged (w : world) (evs : list event) : world :=
  {| w_disk := w_disk w; w_log := w_log w ++ evs |}.

Definition written (w : world) (ino : Z) (d : xfs_dinode_core) (evs : list event) : world :=
  {| w_disk := <[ino := d]> (w_disk w); w_log := w_log w ++ evs |}.

Lemma logged_nil w : logged w [] = w.
Proof. destruct w; unfold logged; simpl. by rewrite app_nil_r. Qed.

Lemma logged_logged w e1 e2 : logged (logged w e1) e2 = logged w (e1 ++ e2).
Proof. unfold logged; simpl. by rewrite app_assoc. Qed.

Lemma emit_run e w : emit e w = (Done tt, logged w [e]).
Proof. reflexivity. Qed.

Lemma bind_run {A B} (c : M A) (k : A -> M B) w :
  bind c k w = match c w with
               | (Done a, w') => k a w'
               | (Fatal f, w') => (Fatal f, w')
               end.
Proof. reflexivity. Qed.

Lemma bind_done {A B} (c : M A) (k : A -> M B) w a w' :
  c w = (Done a, w') -> bind c k w = k a w'.
Proof. intros H. by rewrite bind_run, H. Qed.

Lemma bind_fatal {A B} (c : M A) (k : A -> M B) w f w' :
  c w = (Fatal f, w') -> bind c k w = (Fatal f, w').
Proof. intros H. by rewrite bind_run, H. Qed.

Lemma bind_finished {A B} (c : M A) (k : A -> M B) w b w' :
  bind c k w = (Done b, w') ->
  exists a w1, c w = (Done a, w1) /\ k a w1 = (Done b, w').
Proof.
  rewrite bind_run. destruct (c w) as [[a|f] w1]; [eauto | discriminate].
Qed.

Ltac run :=
  repeat (unfold libxfs_trans_alloc, libxfs_trans_reserve, libxfs_trans_iput,
            libxfs_trans_cancel, libxfs_trans_log_inode, libxfs_trans_commit,
            do_warn, do_log, do_error, PROG_RPT_INC, set_progress_msg, print_final_rpt,
            ASSERT, bind, ret, emit, abort, logged, written, flush_inode; simpl);
  rewrite <- ?app_assoc; simpl.

(** ** The Correction Applier, case by case *)

Section Applier.

Variable g : globals.
Variable mp : xfs_mount.

Definition reserve_blocks : Z := if no_modify g then 0 else 10.

Definition ev_open : list event :=
  [EvTransAlloc (XFS_TRANS_REMOVE h);
   EvTransReserve reserve_blocks (XFS_REMOVE_LOG_RES mp) 0
     (XFS_TRANS_PERM_LOG_RES h) (XFS_REMOVE_LOG_COUNT h)].

Definition ev_release (ino : Z) : list event :=
  [EvTransIput ino; EvTransCancel (XFS_TRANS_RELEASE_LOG_RES h)].

Definition ev_commit (ino nlinks : Z) : list event :=
  [EvTransLogInode {| i_ino := ino; i_d := {| di_nlink := nlinks |} |} (XFS_ILOG_CORE h);
   EvTransCommit (Z.lor (XFS_TRANS_RELEASE_LOG_RES h) (XFS_TRANS_SYNC h))].

Definition ev_resetting (ino old nrefs : Z) : list event :=
  EvWarn "resetting inode %llu nlinks from %d to %d\n" [ino; old; nrefs] ::
  (if (XFS_MAXLINK_1 h) <? nrefs then
     [EvWarn "nlinks %d will overflow v1 ino, ino %llu will be converted to version 2\n"
        [nrefs; ino]]
   else []).

(** The reservation fails: the assertion after it stops the run. *)
Lemma update_inode_nlinks_noreserve ino nlinks w :
  m_reserve_error mp reserve_blocks <> 0 ->
  update_inode_nlinks g mp ino nlinks w = (Fatal (AssertFailed "error == 0"), logged w ev_open).
Proof.
  intros Hres. unfold update_inode_nlinks, ev_open, reserve_blocks in *.
  run. destruct (Z.eqb_spec (m_reserve_error mp (if no_modify g then 0 else 10)) 0); [done|].
  reflexivity.
Qed.

(** The inode cannot be mapped. *)
Lemma update_inode_nlinks_unmapped ino nlinks w :
  m_reserve_error mp reserve_blocks = 0 ->
  w_disk w !! ino = None ->
  update_inode_nlinks g mp ino nlinks w =
    if no_modify g then
      (Done tt, logged w (ev_open ++ [EvTransIget ino (EINVAL h);
         EvWarn "couldn't map inode %llu, err = %d, can't compare link counts\n" [ino; (EINVAL h)]]))
    else
      (Fatal DoError, logged w (ev_open ++ [EvTransIget ino (EINVAL h);
         EvError "couldn't map inode %llu, err = %d\n" [ino; (EINVAL h)]])).
Proof.
  intros Hres Hno. unfold update_inode_nlinks, ev_open, reserve_blocks in *.
  run. rewrite Hres. simpl. unfold libxfs_trans_iget. simpl. rewrite Hno.
  destruct (no_modify g); run; reflexivity.
Qed.

(** The inode is the orphanage, or its link count is already right. *)
Lemma update_inode_nlinks_noop ino nlinks w d :
  m_reserve_error mp reserve_blocks = 0 ->
  w_disk w !! ino = Some d ->
  ino = orphanage_ino g \/ di_nlink d = nlinks ->
  update_inode_nlinks g mp ino nlinks w =
    (Done tt, logged w (ev_open ++ EvTransIget ino 0 :: ev_release ino)).
Proof.
  intros Hres Hd Hcase. unfold update_inode_nlinks, ev_open, reserve_blocks in *.
  run. rewrite Hres. simpl. unfold libxfs_trans_iget. simpl. rewrite Hd. run.
  destruct (Z.eqb_spec ino (orphanage_ino g)) as [-> | Hne]; simpl.
  - run. reflexivity.
  - destruct Hcase as [?|Heq]; [done|]. unfold set_nlinks.
    rewrite (proj2 (Z.eqb_eq _ _) Heq). run. reflexivity.
Qed.

(** A mismatch in dry-run mode. *)
Lemma update_inode_nlinks_would ino nlinks w d :
  m_reserve_error mp reserve_blocks = 0 ->
  w_disk w !! ino = Some d ->
  ino <> orphanage_ino g -> di_nlink d <> nlinks -> no_modify g = true ->
  update_inode_nlinks g mp ino nlinks w =
    (Done tt, logged w (ev_open ++ [EvTransIget ino 0;
       EvWarn "would have reset inode %llu nlinks from %d to %d\n" [ino; di_nlink d; nlinks]]
       ++ ev_release ino)).
Proof.
  intros Hres Hd Hne Hdiff Hdry. unfold update_inode_nlinks, ev_open, reserve_blocks in *.
  run. rewrite Hres. simpl. unfold libxfs_trans_iget. simpl. rewrite Hd. run.
  rewrite (proj2 (Z.eqb_neq _ _) Hne). simpl. unfold set_nlinks.
  rewrite (proj2 (Z.eqb_neq _ _) Hdiff), Hdry. run. reflexivity.
Qed.

(** A mismatch in mutation mode. *)
Lemma update_inode_nlinks_reset ino nlinks w d :
  m_reserve_error mp reserve_blocks = 0 ->
  w_disk w !! ino = Some d ->
  ino <> orphanage_ino g -> di_nlink d <> nlinks -> no_modify g = false ->
  nlinks <= (XFS_MAXLINK_1 h) \/ fs_inode_nlink g = true ->
  update_inode_nlinks g mp ino nlinks w =
    (Done tt, written w ino {| di_nlink := nlinks |}
       (ev_open ++ EvTransIget ino 0 :: ev_resetting ino (di_nlink d) nlinks
          ++ ev_commit ino nlinks)).
Proof.
  intros Hres Hd Hne Hdiff Hdry Hfit.
  unfold update_inode_nlinks, ev_open, ev_resetting, reserve_blocks in *.
  run. rewrite Hres. simpl. unfold libxfs_trans_iget. simpl. rewrite Hd. run.
  rewrite (proj2 (Z.eqb_neq _ _) Hne). simpl. unfold set_nlinks.
  rewrite (proj2 (Z.eqb_neq _ _) Hdiff), Hdry. run.
  destruct (Z.ltb_spec (XFS_MAXLINK_1 h) nlinks) as [Hbig|Hsmall]; run.
  - destruct Hfit as [? | ->]; [lia|]. run. reflexivity.
  - reflexivity.
Qed.

(** A mismatch in mutation mode, a target above the version-1 range, and
    a filesystem without the nlink feature: the assertion stops the run. *)
Lemma update_inode_nlinks_v1_assert ino nlinks w d :
  m_reserve_error mp reserve_blocks = 0 ->
  w_disk w !! ino = Some d ->
  ino <> orphanage_ino g -> di_nlink d <> nlinks -> no_modify g = false ->
  (XFS_MAXLINK_1 h) < nlinks -> fs_inode_nlink g = false ->
  update_inode_nlinks g mp ino nlinks w =
    (Fatal (AssertFailed "fs_inode_nlink"),
     logged w (ev_open ++ [EvTransIget ino 0;
       EvWarn "resetting inode %llu nlinks from %d to %d\n" [ino; di_nlink d; nlinks]])).
Proof.
  intros Hres Hd Hne Hdiff Hdry Hbig Hv1.
  unfold update_inode_nlinks, ev_open, reserve_blocks in *.
  run. rewrite Hres. simpl. unfold libxfs_trans_iget. simpl. rewrite Hd. run.
  rewrite (proj2 (Z.eqb_neq _ _) Hne). simpl. unfold set_nlinks.
  rewrite (proj2 (Z.eqb_neq _ _) Hdiff), Hdry. run.
  rewrite (proj2 (Z.ltb_lt _ _) Hbig), Hv1. run. reflexivity.
Qed.

End Applier.

(** Every call of [update_inode_nlinks] is one of the cases above. *)
Inductive applier_spec (g : globals) (mp : xfs_mount) (ino nlinks : Z) (w : world)
    : outcome unit * world -> Prop :=
| AS_noreserve :
    m_reserve_error mp (reserve_blocks g) <> 0 ->
    applier_spec g mp ino nlinks w
      (Fatal (AssertFailed "error == 0"), logged w (ev_open g mp))
| AS_unmapped_dry :
    m_reserve_error mp (reserve_blocks g) = 0 ->
    w_disk w !! ino = None -> no_modify g = true ->
    applier_spec g mp ino nlinks w
      (Done tt, logged w (ev_open g mp ++ [EvTransIget ino (EINVAL h);
         EvWarn "couldn't map inode %llu, err = %d, can't compare link counts\n" [ino; (EINVAL h)]]))
| AS_unmapped_fatal :
    m_reserve_error mp (reserve_blocks g) = 0 ->
    w_disk w !! ino = None -> no_modify g = false ->
    applier_spec g mp ino nlinks w
      (Fatal DoError, logged w (ev_open g mp ++ [EvTransIget ino (EINVAL h);
         EvError "couldn't map inode %llu, err = %d\n" [ino; (EINVAL h)]]))
| AS_noop d :
    m_reserve_error mp (reserve_blocks g) = 0 ->
    w_disk w !! ino = Some d ->
    ino = orphanage_ino g \/ di_nlink d = nlinks ->
    applier_spec g mp ino nlinks w
      (Done tt, logged w (ev_open g mp ++ EvTransIget ino 0 :: ev_release ino))
| AS_would d :
    m_reserve_error mp (reserve_blocks g) = 0 ->
    w_disk w !! ino = Some d ->
    ino <> orphanage_ino g -> di_nlink d <> nlinks -> no_modify g = true ->
    applier_spec g mp ino nlinks w
      (Done tt, logged w (ev_open g mp ++ [EvTransIget ino 0;
         EvWarn "would have reset inode %llu nlinks from %d to %d\n" [ino; di_nlink d; nlinks]]
         ++ ev_release ino))
| AS_reset d :
    m_reserve_error mp (reserve_blocks g) = 0 ->
    w_disk w !! ino = Some d ->
    ino <> orphanage_ino g -> di_nlink d <> nlinks -> no_modify g = false ->
    nlinks <= (XFS_MAXLINK_1 h) \/ fs_inode_nlink g = true ->
    applier_spec g mp ino nlinks w
      (Done tt, written w ino {| di_nlink := nlinks |}
         (ev_open g mp ++ EvTransIget ino 0 :: ev_resetting ino (di_nlink d) nlinks
            ++ ev_commit ino nlinks))
| AS_assert d :
    m_reserve_error mp (reserve_blocks g) = 0 ->
    w_disk w !! ino = Some d ->
    ino <> orphanage_ino g -> di_nlink d <> nlinks -> no_modify g = false ->
    (XFS_MAXLINK_1 h) < nlinks -> fs_inode_nlink g = false ->
    applier_spec g mp ino nlinks w
      (Fatal (AssertFailed "fs_inode_nlink"),
       logged w (ev_open g mp ++ [EvTransIget ino 0;
         EvWarn "resetting inode %llu nlinks from %d to %d\n" [ino; di_nlink d; nlinks]])).

Lemma update_inode_nlinks_spec g mp ino nlinks w :
  applier_spec g mp ino nlinks w (update_inode_nlinks g mp ino nlinks w).
Proof.
  destruct (decide (m_reserve_error mp (reserve_blocks g) = 0)) as [Hres|Hres];
    [|rewrite update_inode_nlinks_noreserve by done; by constructor].
  destruct (w_disk w !! ino) as [d|] eqn:Hd.
  - destruct (decide (ino = orphanage_ino g \/ di_nlink d = nlinks)) as [Hc|Hc].
    { rewrite (update_inode_nlinks_noop g mp ino nlinks w d) by done. by econstructor. }
    assert (ino <> orphanage_ino g /\ di_nlink d <> nlinks) as [Hne Hdiff] by tauto.
    destruct (no_modify g) eqn:Hdry.
    { rewrite (update_inode_nlinks_would g mp ino nlinks w d) by done. by econstructor. }
    destruct (decide (nlinks <= (XFS_MAXLINK_1 h) \/ fs_inode_nlink g = true)) as [Hfit|Hfit].
    { rewrite (update_inode_nlinks_reset g mp ino nlinks w d) by done. by econstructor. }
    assert ((XFS_MAXLINK_1 h) < nlinks /\ fs_inode_nlink g = false) as [Hbig Hv1].
    { destruct (fs_inode_nlink g); [tauto|]. split; [lia|done]. }
    rewrite (update_inode_nlinks_v1_assert g mp ino nlinks w d) by done. by econstructor.
  - rewrite update_inode_nlinks_unmapped by done.
    destruct (no_modify g) eqn:Hdry; by constructor.
Qed.

(** ** Properties kept by every step of a run

    [always R c]: whatever state [c] starts in, the state it stops in,
    finished or not, is related to it by [R]. *)

Definition always {A} (R : world -> world -> Prop) (c : M A) : Prop :=
  forall w, R w (final (c w)).

Section Always.

Context (R : world -> world -> Prop) `{!PreOrder R}.

Lemma always_ret {A} (a : A) : always R (ret a).
Proof. intros w. simpl. reflexivity. Qed.

Lemma always_abort {A} f : always R (@abort A f).
Proof. intros w. simpl. reflexivity. Qed.

Lemma always_bind {A B} (c : M A) (k : A -> M B) :
  always R c -> (forall a, always R (k a)) -> always R (bind c k).
Proof.
  intros Hc Hk w. unfold final. rewrite bind_run.
  specialize (Hc w). unfold final in Hc.
  destruct (c w) as [[a|f] w1]; simpl in *; [|done].
  etrans; [exact Hc|]. apply Hk.
Qed.

Lemma always_ASSERT what ex : always R (ASSERT what ex).
Proof. destruct ex; [apply always_ret | apply always_abort]. Qed.

Lemma always_for_loop n lo body :
  (forall j, always R (body j)) -> always R (for_loop n lo body).
Proof.
  intros Hb. revert lo. induction n as [|n IH]; intros lo; simpl.
  - apply always_ret.
  - apply always_bind; auto.
Qed.

Lemma always_while_irec irec body :
  (forall r, always R (body r)) -> always R (while_irec irec body).
Proof.
  intros Hb. induction irec as [|r next IH]; simpl.
  - apply always_ret.
  - apply always_bind; auto.
Qed.

Section Steps.

Variables (g : globals) (mp : xfs_mount).
Hypothesis always_step : forall s, always R (exec_step g mp s).

Lemma always_exec_steps l : always R (exec_steps g mp l).
Proof.
  induction l as [|s l IH]; simpl.
  - apply always_ret.
  - apply always_bind; auto.
Qed.

Lemma always_run_workers sched tasks : always R (run_workers g mp sched tasks).
Proof.
  revert tasks. induction sched as [|k sched IH]; intros tasks; simpl.
  - apply always_exec_steps.
  - destruct (pick k tasks) as [[s tasks']|]; [|apply IH].
    apply always_bind; auto.
Qed.

End Steps.

End Always.

(** [grows Pd Pe]: the disk changes as [Pd] allows and the log grows by
    events that satisfy [Pe]. *)
Definition grows (Pd : relation (gmap Z xfs_dinode_core)) (Pe : event -> Prop)
    (w w' : world) : Prop :=
  Pd (w_disk w) (w_disk w') /\
  exists evs, w_log w' = w_log w ++ evs /\ Forall Pe evs.

Global Instance grows_preorder Pd Pe : PreOrder Pd -> PreOrder (grows Pd Pe).
Proof.
  intros HPd. split.
  - intros w. split; [reflexivity|]. exists []. by rewrite app_nil_r.
  - intros w1 w2 w3 [Hd1 (e1 & Hl1 & He1)] [Hd2 (e2 & Hl2 & He2)]. split.
    + by etrans.
    + exists (e1 ++ e2). rewrite Hl2, Hl1, app_assoc. split; [done|].
      by apply Forall_app.
Qed.

Lemma grows_logged Pd Pe `{!Reflexive Pd} w evs :
  Forall Pe evs -> grows Pd Pe w (logged w evs).
Proof. intros H. split; [reflexivity|]. by exists evs. Qed.

Lemma always_emit Pd Pe `{!Reflexive Pd} e : Pe e -> always (grows Pd Pe) (emit e).
Proof. intros H w. apply (grows_logged Pd Pe). by constructor. Qed.

(** ** Dry-run mode *)

(** An event that neither logs an inode core nor commits. *)
Definition quiet (e : event) : Prop := is_commit e = false /\ correction_of e = None.

Lemma quiet_nothing evs :
  Forall quiet evs -> commits evs = 0%nat /\ corrections evs = [].
Proof.
  unfold commits, corrections. induction 1 as [|e evs [Hc Hl] _ [IH1 IH2]]; [done|].
  split.
  - rewrite filter_cons_False; [done|]. by rewrite Hc.
  - cbn [omap list_omap]. by rewrite Hl.
Qed.

Ltac always_bind := apply always_bind; [try apply _ | | intros ?].
Ltac always_done :=
  first [ apply always_ASSERT | apply always_ret | apply always_abort ]; try apply _.

Ltac events :=
  unfold ev_open, ev_release, ev_commit, ev_resetting, quiet; simpl;
  repeat first [ apply Forall_nil_2 | apply Forall_cons_2 | apply Forall_app_2
               | case_match | split ]; simpl; try done.

Section DryRun.

Variables (g : globals) (mp : xfs_mount).
Hypothesis dry : no_modify g = true.

Lemma set_nlinks_dry dinoc ino nrefs dirty w :
  exists evs, set_nlinks g dinoc ino nrefs dirty w = (Done (dinoc, dirty), logged w evs)
              /\ Forall quiet evs.
Proof.
  unfold set_nlinks. rewrite dry. simpl. destruct (di_nlink dinoc =? nrefs).
  - exists []. by rewrite logged_nil.
  - eexists. split; [reflexivity|]. events.
Qed.

Lemma update_inode_nlinks_dry ino nlinks :
  always (grows eq quiet) (update_inode_nlinks g mp ino nlinks).
Proof.
  intros w. destruct (update_inode_nlinks_spec g mp ino nlinks w);
    try congruence; apply (grows_logged eq quiet); events.
Qed.

Lemma exec_step_dry s : always (grows eq quiet) (exec_step g mp s).
Proof.
  destruct s as [agno irec j|agno]; simpl.
  - unfold slot_body. always_bind; [always_done|].
    destruct (is_inode_free irec j); [always_done|].
    always_bind; [by apply (always_emit eq quiet)|].
    always_bind; [always_done|]. always_bind; [always_done|].
    case_match; [by apply update_inode_nlinks_dry | always_done].
  - by apply (always_emit eq quiet).
Qed.

Lemma phase7_dry sched : always (grows eq quiet) (phase7 g mp sched).
Proof.
  unfold phase7. always_bind.
  { case_match; by apply (always_emit eq quiet). }
  destruct (do_prefetch g).
  - unfold phase7_alt. always_bind; [by apply (always_emit eq quiet)|].
    always_bind; [|by apply (always_emit eq quiet)].
    apply always_run_workers; [apply _|]. apply exec_step_dry.
  - apply always_for_loop; [apply _|]. intros i.
    apply always_while_irec; [apply _|]. intros irec.
    apply always_for_loop; [apply _|]. intros j.
    apply (exec_step_dry (StepSlot i irec j)).
Qed.

End DryRun.

(** C1.  In dry-run mode ([no_modify] set) [set_nlinks] hands back the
    inode core and the dirty flag it was given, and a whole pass of
    [phase7], in either strategy and whether it finishes or not, leaves
    every on-disk link count as it was: the disk is unchanged, no inode
    is logged and no transaction is committed, whatever mismatches the
    pass finds. *)
Theorem dry_run_leaves_disk_unchanged (g : globals) (mp : xfs_mount)
    (sched : list nat) (w : world) :
  no_modify g = true ->
  (forall dinoc ino nrefs dirty w0,
     fst (set_nlinks g dinoc ino nrefs dirty w0) = Done (dinoc, dirty)) /\
  w_disk (final (phase7 g mp sched w)) = w_disk w /\
  (forall ino, nlink_on_disk (final (phase7 g mp sched w)) ino = nlink_on_disk w ino) /\
  exists evs, w_log (final (phase7 g mp sched w)) = w_log w ++ evs /\
              commits evs = 0%nat /\ corrections evs = [].
Proof.
  intros Hdry. split.
  { intros dinoc ino nrefs dirty w0.
    destruct (set_nlinks_dry g Hdry dinoc ino nrefs dirty w0) as (evs & -> & _). done. }
  destruct (phase7_dry g mp Hdry sched w) as [Hd (evs & Hl & Hq)].
  split; [done|]. split.
  { intros ino. unfold nlink_on_disk. by rewrite <- Hd. }
  exists evs. split; [done|]. by apply quiet_nothing.
Qed.


(** ** The orphanage inode *)

(** An event that does not log the core of inode [ino]. *)
Definition spares (ino : Z) (e : event) : Prop :=
  match correction_of e with
  | Some (i, _) => i <> ino
  | None => True
  end.

Definition same_at (ino : Z) : relation (gmap Z xfs_dinode_core) :=
  fun d d' => d' !! ino = d !! ino.

Global Instance same_at_preorder ino : PreOrder (same_at ino).
Proof.
  split; [by intros d|]. intros d1 d2 d3 H1 H2. unfold same_at in *. congruence.
Qed.

Lemma spares_corrections ino evs :
  Forall (spares ino) evs -> forall v, (ino, v) ∉ corrections evs.
Proof.
  unfold corrections. induction 1 as [|e evs He _ IH]; intros v; [by apply not_elem_of_nil|].
  simpl. unfold spares in He. destruct (correction_of e) as [[i v']|]; [|apply IH].
  rewrite not_elem_of_cons. split; [congruence|apply IH].
Qed.

Lemma quiet_spares ino e : quiet e -> spares ino e.
Proof. intros [_ H]. unfold spares. by rewrite H. Qed.

Section Orphanage.

Variables (g : globals) (mp : xfs_mount).

(** Called on the orphanage itself, the applier writes nothing at all. *)
Lemma update_inode_nlinks_orphanage nlinks :
  always (grows eq quiet) (update_inode_nlinks g mp (orphanage_ino g) nlinks).
Proof.
  intros w. destruct (update_inode_nlinks_spec g mp (orphanage_ino g) nlinks w);
    try congruence; apply (grows_logged eq quiet); events.
Qed.

(** Called on any inode, it leaves the orphanage alone. *)
Lemma update_inode_nlinks_spares ino nlinks :
  always (grows (same_at (orphanage_ino g)) (spares (orphanage_ino g)))
    (update_inode_nlinks g mp ino nlinks).
Proof.
  intros w. destruct (update_inode_nlinks_spec g mp ino nlinks w);
    try (apply (grows_logged _ _); events; done).
  split.
  - unfold same_at, written. simpl. by rewrite lookup_insert_ne.
  - eexists. split; [reflexivity|]. events.
Qed.

Lemma exec_step_spares s :
  always (grows (same_at (orphanage_ino g)) (spares (orphanage_ino g))) (exec_step g mp s).
Proof.
  destruct s as [agno irec j|agno]; simpl.
  - unfold slot_body. always_bind; [always_done|].
    destruct (is_inode_free irec j); [always_done|].
    always_bind; [by apply (always_emit _ _)|].
    always_bind; [always_done|]. always_bind; [always_done|].
    case_match; [apply update_inode_nlinks_spares | always_done].
  - by apply (always_emit _ _).
Qed.

Lemma phase7_spares sched :
  always (grows (same_at (orphanage_ino g)) (spares (orphanage_ino g))) (phase7 g mp sched).
Proof.
  unfold phase7. always_bind.
  { case_match; by apply (always_emit _ _). }
  destruct (do_prefetch g).
  - unfold phase7_alt. always_bind; [by apply (always_emit _ _)|].
    always_bind; [|by apply (always_emit _ _)].
    apply always_run_workers; [apply _|]. apply exec_step_spares.
  - apply always_for_loop; [apply _|]. intros i.
    apply always_while_irec; [apply _|]. intros irec.
    apply always_for_loop; [apply _|]. intros j.
    apply (exec_step_spares (StepSlot i irec j)).
Qed.

End Orphanage.

(** C2.  The orphanage inode's on-disk link count is never written.
    Called with [ino == orphanage_ino], [update_inode_nlinks] changes
    nothing on disk, logs no inode and commits nothing, in either mode and
    whatever link count the inode has.  And over a whole pass of [phase7],
    in either strategy and whether it finishes or not, the on-disk
    orphanage inode stays what it was and no inode core logged is the
    orphanage's. *)
Theorem orphanage_never_written (g : globals) (mp : xfs_mount)
    (sched : list nat) (nlinks : Z) (w : world) :
  (w_disk (final (update_inode_nlinks g mp (orphanage_ino g) nlinks w)) = w_disk w /\
   exists evs,
     w_log (final (update_inode_nlinks g mp (orphanage_ino g) nlinks w)) = w_log w ++ evs /\
     commits evs = 0%nat /\ corrections evs = []) /\
  w_disk (final (phase7 g mp sched w)) !! orphanage_ino g = w_disk w !! orphanage_ino g /\
  exists evs, w_log (final (phase7 g mp sched w)) = w_log w ++ evs /\
              forall v, (orphanage_ino g, v) ∉ corrections evs.
Proof.
  split.
  - destruct (update_inode_nlinks_orphanage g mp nlinks w) as [Hd (evs & Hl & Hq)].
    split; [done|]. exists evs. split; [done|]. by apply quiet_nothing.
  - destruct (phase7_spares g mp sched w) as [Hd (evs & Hl & Hq)].
    split; [done|]. exists evs. split; [done|]. by apply spares_corrections.
Qed.

(** ** The walker's call of the applier *)

(** The inode number the walkers pass for slot [j] of [irec] in group
    [agno]: [XFS_AGINO_TO_INO(mp, agno, irec->ino_startnum + j)]. *)
Definition slot_agino (irec : ino_tree_node) (j : Z) : Z := u32 (ino_startnum irec + j).
Definition slot_ino (mp : xfs_mount) (agno : Z) (irec : ino_tree_node) (j : Z) : Z :=
  XFS_AGINO_TO_INO mp agno (slot_agino irec j).

(** The asserts of the slot body hold. *)
Definition slot_asserts (g : globals) (irec : ino_tree_node) (j : Z) : bool :=
  is_inode_confirmed irec j &&
  (is_inode_free irec j ||
   (no_modify g || is_inode_reached irec j) && (no_modify g || is_inode_referenced irec j)).

(** The walker's test: a live slot whose recorded on-disk link count
    differs from its reference count. *)
Definition slot_mismatch (irec : ino_tree_node) (j : Z) : bool :=
  negb (is_inode_free irec j) &&
  negb (get_inode_disk_nlinks irec j =? num_inode_references irec j).

Lemma slot_body_free g mp agno irec j w :
  is_inode_confirmed irec j = true -> is_inode_free irec j = true ->
  slot_body g mp agno irec j w = (Done tt, w).
Proof. intros Hc Hf. unfold slot_body. rewrite Hc, Hf. reflexivity. Qed.

Lemma slot_body_match g mp agno irec j w :
  slot_asserts g irec j = true -> is_inode_free irec j = false ->
  slot_mismatch irec j = false ->
  slot_body g mp agno irec j w = (Done tt, logged w [EvVisit agno (slot_agino irec j)]).
Proof.
  unfold slot_asserts, slot_mismatch, slot_body.
  intros Ha Hf Hm. rewrite Hf in *. simpl in *.
  apply andb_prop in Ha as [Hc Ha]. apply andb_prop in Ha as [Hr1 Hr2].
  rewrite Hc, Hr1, Hr2, Hm. reflexivity.
Qed.

Lemma slot_body_mismatch g mp agno irec j w :
  slot_asserts g irec j = true -> slot_mismatch irec j = true ->
  slot_body g mp agno irec j w =
    update_inode_nlinks g mp (slot_ino mp agno irec j) (num_inode_references irec j)
      (logged w [EvVisit agno (slot_agino irec j)]).
Proof.
  unfold slot_asserts, slot_mismatch, slot_body.
  intros Ha Hm. apply andb_prop in Hm as [Hf Hm]. apply negb_true_iff in Hf.
  rewrite Hf in *. simpl in *.
  apply andb_prop in Ha as [Hc Ha]. apply andb_prop in Ha as [Hr1 Hr2].
  rewrite Hc, Hr1, Hr2, Hm. reflexivity.
Qed.

Lemma slot_body_assert g mp agno irec j w :
  slot_asserts g irec j = false ->
  exists what evs, slot_body g mp agno irec j w = (Fatal (AssertFailed what), logged w evs)
                   /\ Forall quiet evs.
Proof.
  unfold slot_asserts, slot_body. intros Ha.
  destruct (is_inode_confirmed irec j); simpl in *.
  2:{ eexists _, []. by rewrite logged_nil. }
  destruct (is_inode_free irec j); simpl in *; [done|].
  destruct (no_modify g || is_inode_reached irec j); simpl in *.
  2:{ eexists _, _. split; [reflexivity|]. events. }
  rewrite Ha. eexists _, _. split; [reflexivity|]. events.
Qed.

(** ** Inode resolution failure *)

(** C4.  When [libxfs_trans_iget] cannot map the inode (and the
    reservation before it succeeded): in mutation mode
    [update_inode_nlinks] reports through [do_error] and the run stops
    there, nothing after it is executed; in dry-run mode it warns, compares
    nothing, writes nothing and returns, and the slot loop that called it
    goes on with the next slot. *)
Theorem unmapped_inode_by_mode (g : globals) (mp : xfs_mount) (ino nlinks : Z) (w : world) :
  m_reserve_error mp (reserve_blocks g) = 0 ->
  w_disk w !! ino = None ->
  (no_modify g = false ->
     update_inode_nlinks g mp ino nlinks w =
       (Fatal DoError, logged w (ev_open g mp ++ [EvTransIget ino (EINVAL h);
          EvError "couldn't map inode %llu, err = %d\n" [ino; (EINVAL h)]])) /\
     forall (B : Type) (rest : unit -> M B),
       bind (update_inode_nlinks g mp ino nlinks) rest w =
       (Fatal DoError, logged w (ev_open g mp ++ [EvTransIget ino (EINVAL h);
          EvError "couldn't map inode %llu, err = %d\n" [ino; (EINVAL h)]]))) /\
  (no_modify g = true ->
     update_inode_nlinks g mp ino nlinks w =
       (Done tt, logged w (ev_open g mp ++ [EvTransIget ino (EINVAL h);
          EvWarn "couldn't map inode %llu, err = %d, can't compare link counts\n"
            [ino; (EINVAL h)]])) /\
     forall agno irec j n,
       slot_asserts g irec j = true -> slot_mismatch irec j = true ->
       slot_ino mp agno irec j = ino -> num_inode_references irec j = nlinks ->
       for_loop (S n) j (slot_body g mp agno irec) w =
       for_loop n (j + 1) (slot_body g mp agno irec)
         (logged w (EvVisit agno (slot_agino irec j) :: ev_open g mp ++ [EvTransIget ino (EINVAL h);
            EvWarn "couldn't map inode %llu, err = %d, can't compare link counts\n"
              [ino; (EINVAL h)]]))).
Proof.
  intros Hres Hno. split; intros Hmode.
  - assert (update_inode_nlinks g mp ino nlinks w =
       (Fatal DoError, logged w (ev_open g mp ++ [EvTransIget ino (EINVAL h);
          EvError "couldn't map inode %llu, err = %d\n" [ino; (EINVAL h)]]))) as Hrun.
    { rewrite update_inode_nlinks_unmapped by done. by rewrite Hmode. }
    split; [done|]. intros B rest. by apply bind_fatal.
  - split.
    { rewrite update_inode_nlinks_unmapped by done. by rewrite Hmode. }
    intros agno irec j n Ha Hm Hino Hn. simpl.
    erewrite bind_done; [reflexivity|].
    rewrite slot_body_mismatch by done. rewrite Hino, Hn.
    rewrite update_inode_nlinks_unmapped by done. rewrite Hmode.
    by rewrite logged_logged.
Qed.


(** ** Cancel or commit *)

(** C5.  An invocation of [update_inode_nlinks] that loads an inode
    whose [di_nlink] already equals the target puts the inode back and
    cancels the transaction: the new events are exactly alloc, reserve,
    iget, iput, cancel, and the disk is unchanged.  For every invocation
    at all, either nothing is logged, nothing committed and the disk is
    unchanged, or the invocation did overwrite a differing [di_nlink] in
    mutation mode: then the inode core with the target count is logged,
    the transaction is committed with [XFS_TRANS_SYNC] and the disk holds
    the target count. *)
Theorem no_mutation_no_commit (g : globals) (mp : xfs_mount) (ino nlinks : Z)
    (w : world) (d : xfs_dinode_core) :
  m_reserve_error mp (reserve_blocks g) = 0 ->
  w_disk w !! ino = Some d ->
  (di_nlink d = nlinks ->
     update_inode_nlinks g mp ino nlinks w =
       (Done tt, logged w (ev_open g mp ++
          [EvTransIget ino 0; EvTransIput ino; EvTransCancel (XFS_TRANS_RELEASE_LOG_RES h)]))) /\
  exists evs,
    w_log (final (update_inode_nlinks g mp ino nlinks w)) = w_log w ++ evs /\
    ((commits evs = 0%nat /\ corrections evs = [] /\
      w_disk (final (update_inode_nlinks g mp ino nlinks w)) = w_disk w) \/
     (no_modify g = false /\ ino <> orphanage_ino g /\ di_nlink d <> nlinks /\
      corrections evs = [(ino, nlinks)] /\ commits evs = 1%nat /\
      EvTransCommit (Z.lor (XFS_TRANS_RELEASE_LOG_RES h) (XFS_TRANS_SYNC h)) ∈ evs /\
      update_inode_nlinks g mp ino nlinks w =
        (Done tt, written w ino {| di_nlink := nlinks |} evs))).
Proof.
  intros Hres Hd. split.
  { intros Heq. by rewrite (update_inode_nlinks_noop g mp ino nlinks w d) by auto. }
  destruct (update_inode_nlinks_spec g mp ino nlinks w) as [| | |d'|d'|d'|d'];
    try congruence;
    try (eexists; split; [reflexivity|]; left; split_and!; [| |done];
         apply quiet_nothing; events; done).
  assert (d' = d) as -> by congruence.
  eexists; split; [reflexivity|]. right. split_and!; try done.
  - unfold ev_open, ev_resetting, corrections. simpl. by case_match.
  - unfold ev_open, ev_resetting, commits. simpl. by case_match.
  - unfold ev_open, ev_resetting, ev_commit. simpl.
    case_match; simpl; repeat first [apply list_elem_of_here | apply list_elem_of_further].
Qed.


(** ** The reservation *)

Definition is_open (e : event) : bool :=
  match e with
  | EvTransAlloc _ | EvTransReserve _ _ _ _ _ => true
  | _ => false
  end.

(** C6, as the code has it.  Every invocation of
    [update_inode_nlinks] opens exactly one transaction, of type
    [XFS_TRANS_REMOVE], and reserves for it once.  What is zero in
    dry-run mode is the block reservation, which is 10 in mutation mode;
    the log-space reservation is [XFS_REMOVE_LOG_RES(mp)] in both modes,
    permanent, with log count [XFS_REMOVE_LOG_COUNT].  Neither depends on
    the inode or on the target count. *)
Theorem reservation_by_mode (g : globals) (mp : xfs_mount) (ino nlinks : Z) (w : world) :
  exists evs,
    w_log (final (update_inode_nlinks g mp ino nlinks w)) =
      w_log w ++
      EvTransAlloc (XFS_TRANS_REMOVE h) ::
      EvTransReserve (if no_modify g then 0 else 10) (XFS_REMOVE_LOG_RES mp) 0
        (XFS_TRANS_PERM_LOG_RES h) (XFS_REMOVE_LOG_COUNT h) :: evs /\
    Forall (fun e => is_open e = false) evs.
Proof.
  destruct (update_inode_nlinks_spec g mp ino nlinks w);
    (eexists; split; [reflexivity|]); events.
Qed.

(** ** Link counts beyond the version-1 range *)

(** C7, as the code has it.  On a filesystem with the nlink feature
    ([fs_inode_nlink] set, which the code asserts), a correction in
    mutation mode whose target exceeds [XFS_MAXLINK_1] is no error:
    [set_nlinks] warns that the inode will be converted to version 2,
    overwrites [di_nlink] with the target and sets the dirty flag, and
    [update_inode_nlinks] logs the inode and commits. *)
Theorem v1_overflow_warns_and_corrects (g : globals) (mp : xfs_mount) (ino nlinks : Z)
    (w : world) (d : xfs_dinode_core) :
  fs_inode_nlink g = true -> no_modify g = false ->
  (XFS_MAXLINK_1 h) < nlinks -> di_nlink d <> nlinks ->
  (forall dirty,
     set_nlinks g d ino nlinks dirty w =
       (Done ({| di_nlink := nlinks |}, 1),
        logged w [EvWarn "resetting inode %llu nlinks from %d to %d\n" [ino; di_nlink d; nlinks];
                  EvWarn "nlinks %d will overflow v1 ino, ino %llu will be converted to version 2\n"
                    [nlinks; ino]])) /\
  (m_reserve_error mp (reserve_blocks g) = 0 -> w_disk w !! ino = Some d ->
   ino <> orphanage_ino g ->
   update_inode_nlinks g mp ino nlinks w =
     (Done tt, written w ino {| di_nlink := nlinks |}
        (ev_open g mp ++
         [EvTransIget ino 0;
          EvWarn "resetting inode %llu nlinks from %d to %d\n" [ino; di_nlink d; nlinks];
          EvWarn "nlinks %d will overflow v1 ino, ino %llu will be converted to version 2\n"
            [nlinks; ino]] ++ ev_commit ino nlinks))).
Proof.
  intros Hv2 Hmode Hbig Hdiff. split.
  - intros dirty. unfold set_nlinks.
    rewrite (proj2 (Z.eqb_neq _ _) Hdiff), Hmode. run.
    rewrite (proj2 (Z.ltb_lt _ _) Hbig), Hv2. run. reflexivity.
  - intros Hres Hd Hne.
    rewrite (update_inode_nlinks_reset g mp ino nlinks w d) by auto.
    unfold ev_resetting. by rewrite (proj2 (Z.ltb_lt _ _) Hbig).
Qed.


(** ** Where the orphanage is excluded *)



(** ** Steps act on one inode

    A step is local at [ino] when its outcome, what it writes and what it
    logs depend on nothing but the on-disk inode [ino], and it writes
    nothing but that inode. *)

Definition effect (ino : Z) (wr : option xfs_dinode_core) (evs : list event) (w : world)
    : world :=
  {| w_disk := match wr with
               | Some d => <[ino := d]> (w_disk w)
               | None => w_disk w
               end;
     w_log := w_log w ++ evs |}.

Definition local_at (ino : Z) (c : M unit) : Prop :=
  forall w, exists o wr evs,
    forall w', w_disk w' !! ino = w_disk w !! ino -> c w' = (o, effect ino wr evs w').

Lemma effect_logged ino evs w : effect ino None evs w = logged w evs.
Proof. reflexivity. Qed.

Lemma effect_written ino d evs w : effect ino (Some d) evs w = written w ino d evs.
Proof. reflexivity. Qed.

Lemma effect_lookup_ne ino wr evs w i :
  i <> ino -> w_disk (effect ino wr evs w) !! i = w_disk w !! i.
Proof. intros Hne. destruct wr; simpl; [|done]. by rewrite lookup_insert_ne. Qed.

Lemma effect_lookup_eq ino wr evs w w' :
  w_disk w' !! ino = w_disk w !! ino ->
  w_disk (effect ino wr evs w') !! ino = w_disk (effect ino wr evs w) !! ino.
Proof. intros H. destruct wr; simpl; [|done]. by rewrite !lookup_insert_eq. Qed.

Lemma effect_effect ino wr1 evs1 wr2 evs2 w :
  effect ino wr2 evs2 (effect ino wr1 evs1 w) =
  effect ino (match wr2 with Some d => Some d | None => wr1 end) (evs1 ++ evs2) w.
Proof.
  unfold effect; simpl. rewrite app_assoc. f_equal.
  destruct wr2, wr1; simpl; try done. by rewrite insert_insert_eq.
Qed.

Lemma local_ret ino : local_at ino (ret tt).
Proof.
  intros w. exists (Done tt), None, []. intros w' _.
  rewrite effect_logged, logged_nil. reflexivity.
Qed.

Lemma local_abort ino f : local_at ino (abort f).
Proof.
  intros w. exists (Fatal f), None, []. intros w' _.
  rewrite effect_logged, logged_nil. reflexivity.
Qed.

Lemma local_emit ino e : local_at ino (emit e).
Proof. intros w. exists (Done tt), None, [e]. intros w' _. reflexivity. Qed.

Lemma local_ASSERT ino what ex : local_at ino (ASSERT what ex).
Proof. destruct ex; [apply local_ret | apply local_abort]. Qed.

Lemma local_bind ino (c : M unit) (k : unit -> M unit) :
  local_at ino c -> (forall u, local_at ino (k u)) -> local_at ino (bind c k).
Proof.
  intros Hc Hk w. destruct (Hc w) as (o1 & wr1 & evs1 & H1).
  destruct o1 as [[]|f].
  - destruct (Hk tt (effect ino wr1 evs1 w)) as (o2 & wr2 & evs2 & H2).
    exists o2, (match wr2 with Some d => Some d | None => wr1 end), (evs1 ++ evs2).
    intros w' Hw'. rewrite (bind_done _ _ _ _ _ (H1 w' Hw')).
    rewrite H2 by (by apply effect_lookup_eq). by rewrite effect_effect.
  - exists (Fatal f), wr1, evs1. intros w' Hw'. by rewrite (bind_fatal _ _ _ _ _ (H1 w' Hw')).
Qed.

Lemma local_update_inode_nlinks g mp ino nlinks :
  local_at ino (update_inode_nlinks g mp ino nlinks).
Proof.
  intros w. destruct (update_inode_nlinks_spec g mp ino nlinks w)
    as [|? ? Hdry|? ? Hdry|d|d|d|d].
  - eexists _, None, _. intros w' Hw'. rewrite effect_logged.
    by apply update_inode_nlinks_noreserve.
  - eexists _, None, _. intros w' Hw'. rewrite effect_logged.
    rewrite update_inode_nlinks_unmapped by congruence. by rewrite Hdry.
  - eexists _, None, _. intros w' Hw'. rewrite effect_logged.
    rewrite update_inode_nlinks_unmapped by congruence. by rewrite Hdry.
  - eexists _, None, _. intros w' Hw'. rewrite effect_logged.
    apply (update_inode_nlinks_noop g mp ino nlinks w' d); [done|congruence|done].
  - eexists _, None, _. intros w' Hw'. rewrite effect_logged.
    apply (update_inode_nlinks_would g mp ino nlinks w' d); [done|congruence|done..].
  - eexists _, (Some _), _. intros w' Hw'. rewrite effect_written.
    apply (update_inode_nlinks_reset g mp ino nlinks w' d); [done|congruence|done..].
  - eexists _, None, _. intros w' Hw'. rewrite effect_logged.
    apply (update_inode_nlinks_v1_assert g mp ino nlinks w' d); [done|congruence|done..].
Qed.

Lemma local_slot_body g mp agno irec j :
  local_at (slot_ino mp agno irec j) (slot_body g mp agno irec j).
Proof.
  unfold slot_body. apply local_bind; [apply local_ASSERT|intros _].
  destruct (is_inode_free irec j); [apply local_ret|].
  apply local_bind; [apply local_emit|intros _].
  apply local_bind; [apply local_ASSERT|intros _].
  apply local_bind; [apply local_ASSERT|intros _].
  case_match; [apply local_update_inode_nlinks | apply local_ret].
Qed.

(** The inode a step acts on; a progress step acts on none, and is local
    anywhere. *)
Definition step_ino (mp : xfs_mount) (s : step) : option Z :=
  match s with
  | StepSlot agno irec j => Some (slot_ino mp agno irec j)
  | StepProgress _ => None
  end.

Lemma local_exec_step g mp s ino :
  step_ino mp s = Some ino \/ step_ino mp s = None -> local_at ino (exec_step g mp s).
Proof.
  destruct s as [agno irec j|agno]; simpl; intros [H|H]; try done.
  - injection H as <-. apply local_slot_body.
  - apply local_emit.
Qed.

Lemma exec_step_is_local g mp s : exists ino, local_at ino (exec_step g mp s).
Proof.
  destruct (step_ino mp s) as [ino|] eqn:H.
  - exists ino. apply local_exec_step. by left.
  - exists 0. apply local_exec_step. by right.
Qed.

(** Two states with the same disk whose logs hold the same events, in
    whatever order. *)
Definition same_effect (w1 w2 : world) : Prop :=
  w_disk w1 = w_disk w2 /\ w_log w1 ≡ₚ w_log w2.

Global Instance same_effect_equiv : Equivalence same_effect.
Proof.
  split.
  - by intros w.
  - intros w1 w2 [Hd Hl]. by split.
  - intros w1 w2 w3 [Hd1 Hl1] [Hd2 Hl2]. split; [congruence|by etrans].
Qed.

Section Commute.

Variables (g : globals) (mp : xfs_mount).

(** A local step does the same from states with the same effect. *)
Lemma local_same_effect ino c w w' o w1 :
  local_at ino c -> same_effect w w' -> c w = (o, w1) ->
  exists w1', c w' = (o, w1') /\ same_effect w1 w1'.
Proof.
  intros Hc [Hd Hl] Hrun. destruct (Hc w) as (o' & wr & evs & H).
  rewrite (H w) in Hrun by done. injection Hrun as -> <-.
  exists (effect ino wr evs w'). split; [apply H; by rewrite Hd|].
  split; simpl; [by rewrite Hd | by rewrite Hl].
Qed.

Lemma exec_steps_same_effect l w w' o w1 :
  same_effect w w' -> exec_steps g mp l w = (o, w1) ->
  exists w1', exec_steps g mp l w' = (o, w1') /\ same_effect w1 w1'.
Proof.
  revert w w'. induction l as [|s l IH]; intros w w' Hw Hrun; simpl in *.
  - injection Hrun as <- <-. by exists w'.
  - rewrite bind_run in *. destruct (exec_step g mp s w) as [o1 w2] eqn:Hs.
    destruct (exec_step_is_local g mp s) as [ino Hloc].
    destruct (local_same_effect ino _ w w' o1 w2 Hloc Hw Hs) as (w2' & -> & Hw2).
    destruct o1 as [[]|f].
    + by apply (IH w2 w2').
    + injection Hrun as <- <-. by exists w2'.
Qed.

(** Two finished steps, local at different inodes, in either order. *)
Lemma local_commute i1 i2 c1 c2 w w1 w12 :
  i1 <> i2 -> local_at i1 c1 -> local_at i2 c2 ->
  c1 w = (Done tt, w1) -> c2 w1 = (Done tt, w12) ->
  exists w2 w21, c2 w = (Done tt, w2) /\ c1 w2 = (Done tt, w21) /\ same_effect w12 w21.
Proof.
  intros Hne H1 H2 Hr1 Hr2.
  destruct (H1 w) as (o1 & wr1 & evs1 & E1). destruct (H2 w) as (o2 & wr2 & evs2 & E2).
  rewrite (E1 w) in Hr1 by done. injection Hr1 as -> <-.
  rewrite (E2 (effect i1 wr1 evs1 w)) in Hr2 by (by apply effect_lookup_ne).
  injection Hr2 as -> <-.
  exists (effect i2 wr2 evs2 w), (effect i1 wr1 evs1 (effect i2 wr2 evs2 w)).
  split; [by apply E2|]. split; [apply E1; by apply effect_lookup_ne|].
  split; simpl.
  - destruct wr1, wr2; simpl; try done. by apply insert_insert_ne.
  - rewrite <- !app_assoc. apply Permutation_app_head, Permutation_app_comm.
Qed.

(** Steps that can be swapped: each is local at an inode the other is not. *)
Definition indep (s1 s2 : step) : Prop :=
  exists i1 i2, i1 <> i2 /\ local_at i1 (exec_step g mp s1) /\ local_at i2 (exec_step g mp s2).

(** A step independent of all that runs before it may as well run first. *)
Lemma exec_steps_move_front l1 s l2 w w1 :
  Forall (indep s) l1 ->
  exec_steps g mp (l1 ++ s :: l2) w = (Done tt, w1) ->
  exists w2, exec_steps g mp (s :: l1 ++ l2) w = (Done tt, w2) /\ same_effect w1 w2.
Proof.
  revert w w1. induction l1 as [|x l1 IH]; intros w w1 Hind Hrun; simpl in *.
  - by exists w1.
  - apply Forall_cons in Hind as [(i1 & i2 & Hne & Hs & Hx) Hind].
    apply bind_finished in Hrun as ([] & wx & Hx1 & Hrest).
    destruct (IH wx w1 Hind Hrest) as (w2 & Hrun2 & Heq2). simpl in Hrun2.
    apply bind_finished in Hrun2 as ([] & wxs & Hs1 & Hrest2).
    destruct (local_commute i2 i1 _ _ w wx wxs ltac:(done) Hx Hs Hx1 Hs1)
      as (ws & wsx & Hs2 & Hx2 & Heq).
    destruct (exec_steps_same_effect _ wxs wsx _ _ Heq Hrest2) as (w3 & Hrest3 & Heq3).
    exists w3. split; [|by etrans].
    rewrite (bind_done _ _ _ _ _ Hs2). simpl. by rewrite (bind_done _ _ _ _ _ Hx2).
Qed.

(** And the other way round. *)
Lemma exec_steps_move_back l1 s l2 w w1 :
  Forall (indep s) l1 ->
  exec_steps g mp (s :: l1 ++ l2) w = (Done tt, w1) ->
  exists w2, exec_steps g mp (l1 ++ s :: l2) w = (Done tt, w2) /\ same_effect w1 w2.
Proof.
  revert w w1. induction l1 as [|x l1 IH]; intros w w1 Hind Hrun.
  - by exists w1.
  - apply Forall_cons in Hind as [(i1 & i2 & Hne & Hs & Hx) Hind].
    cbn [exec_steps app] in Hrun.
    apply bind_finished in Hrun as ([] & ws & Hs1 & Hrun).
    apply bind_finished in Hrun as ([] & wsx & Hx1 & Hrest).
    destruct (local_commute i1 i2 _ _ w ws wsx Hne Hs Hx Hs1 Hx1)
      as (wx & wxs & Hx2 & Hs2 & Heq).
    destruct (exec_steps_same_effect _ wsx wxs _ _ Heq Hrest) as (w3 & Hrest3 & Heq3).
    destruct (IH wx w3 Hind) as (w4 & Hrun4 & Heq4).
    { cbn [exec_steps]. by rewrite (bind_done _ _ _ _ _ Hs2). }
    exists w4. split; [|by do 2 (etrans; [eassumption|])].
    cbn [exec_steps app]. by rewrite (bind_done _ _ _ _ _ Hx2).
Qed.

End Commute.

(** ** The walkers as lists of steps *)

Definition slot_units (agno : Z) (irec : ino_tree_node) : list step :=
  map (StepSlot agno irec) (seqZ 0 (XFS_INODES_PER_CHUNK h)).

(** The steps of the sequential walk, in its order. *)
Definition seq_units (g : globals) : list step :=
  flat_map (fun i => flat_map (slot_units i) (findfirst_inode_rec g i))
    (seqZ 0 (glob_agcount g)).

Definition is_slot (s : step) : bool :=
  match s with StepSlot _ _ _ => true | StepProgress _ => false end.

(** The order in which [run_workers] runs the units of its tasks. *)
Fixpoint schedule_order (sched : list nat) (tasks : list (list step)) : list step :=
  match sched with
  | [] => concat tasks
  | k :: sched' =>
      match pick k tasks with
      | Some (s, tasks') => s :: schedule_order sched' tasks'
      | None => schedule_order sched' tasks
      end
  end.

(** Every merge of the tasks that keeps the order inside each task is
    the order of some schedule. *)
Inductive interleaving : list (list step) -> list step -> Prop :=
| il_done tasks : concat tasks = [] -> interleaving tasks []
| il_pick k tasks s tasks' l :
    pick k tasks = Some (s, tasks') -> interleaving tasks' l -> interleaving tasks (s :: l).

Lemma interleaving_scheduled tasks l :
  interleaving tasks l -> exists sched, schedule_order sched tasks = l.
Proof.
  induction 1 as [tasks Hnil|k tasks s tasks' l Hpick _ [sched IH]].
  - by exists [].
  - exists (k :: sched). simpl. by rewrite Hpick, IH.
Qed.

Definition queue (g : globals) : list (list step) :=
  map (work_units g) (seqZ 0 (glob_agcount g)).

Section Units.

Variables (g : globals) (mp : xfs_mount).

Lemma bind_ext {A B} (c c' : M A) (k k' : A -> M B) w :
  (forall w, c w = c' w) -> (forall a w, k a w = k' a w) -> bind c k w = bind c' k' w.
Proof.
  intros Hc Hk. rewrite !bind_run, Hc. destruct (c' w) as [[a|f] w1]; [apply Hk|done].
Qed.

Lemma bind_assoc {A B C} (c : M A) (k : A -> M B) (k' : B -> M C) w :
  bind (bind c k) k' w = bind c (fun a => bind (k a) k') w.
Proof. rewrite !bind_run. destruct (c w) as [[a|f] w1]; done. Qed.

Lemma bind_ret_r (c : M unit) w : bind c (fun _ => ret tt) w = c w.
Proof. rewrite bind_run. destruct (c w) as [[[]|f] w1]; done. Qed.

Lemma exec_steps_app l1 l2 w :
  exec_steps g mp (l1 ++ l2) w = bind (exec_steps g mp l1) (fun _ => exec_steps g mp l2) w.
Proof.
  revert w. induction l1 as [|s l1 IH]; intros w; simpl; [done|].
  rewrite bind_assoc. by apply bind_ext.
Qed.

Lemma for_loop_units agno irec n lo w :
  for_loop n lo (slot_body g mp agno irec) w =
  exec_steps g mp (map (StepSlot agno irec) (seqZ lo (Z.of_nat n))) w.
Proof.
  revert lo w. induction n as [|n IH]; intros lo w; [done|].
  rewrite seqZ_cons by lia. simpl.
  apply bind_ext; [done|]. intros _ w'. rewrite IH.
  by replace (Z.pred (Z.of_nat (S n))) with (Z.of_nat n) by lia.
Qed.

Lemma seqZ_to_nat m n : seqZ m (Z.of_nat (Z.to_nat n)) = seqZ m n.
Proof. unfold seqZ. by rewrite Nat2Z.id. Qed.

Lemma slot_loop_units agno irec w :
  for_loop (Z.to_nat (XFS_INODES_PER_CHUNK h)) 0 (slot_body g mp agno irec) w =
  exec_steps g mp (slot_units agno irec) w.
Proof. rewrite for_loop_units. unfold slot_units. by rewrite seqZ_to_nat. Qed.

Lemma chunk_units_slots agno irec :
  chunk_units agno irec = slot_units agno irec ++ [StepProgress agno].
Proof. reflexivity. Qed.

(** [phase7_alt_function] runs its units of work in order. *)
Lemma phase7_alt_function_units agno w :
  phase7_alt_function g mp agno w = exec_steps g mp (work_units g agno) w.
Proof.
  unfold phase7_alt_function, work_units.
  generalize (findfirst_inode_rec g agno). intros irecs. revert w.
  induction irecs as [|irec irecs IH]; intros w; [done|].
  cbn [while_irec flat_map].
  rewrite exec_steps_app. apply bind_ext; [|by intros].
  intros w'. rewrite chunk_units_slots, exec_steps_app.
  apply bind_ext; [apply slot_loop_units|]. intros _ w''. simpl.
  by rewrite bind_ret_r.
Qed.

Lemma chain_walk_units agno irecs w :
  while_irec irecs (fun irec =>
    for_loop (Z.to_nat (XFS_INODES_PER_CHUNK h)) 0 (slot_body g mp agno irec)) w =
  exec_steps g mp (flat_map (slot_units agno) irecs) w.
Proof.
  revert w. induction irecs as [|irec irecs IH]; intros w; [done|].
  cbn [while_irec flat_map].
  rewrite exec_steps_app. apply bind_ext; [apply slot_loop_units|by intros].
Qed.

Lemma group_loop_units n lo w :
  for_loop n lo (fun i =>
    while_irec (findfirst_inode_rec g i) (fun irec =>
      for_loop (Z.to_nat (XFS_INODES_PER_CHUNK h)) 0 (slot_body g mp i irec))) w =
  exec_steps g mp
    (flat_map (fun i => flat_map (slot_units i) (findfirst_inode_rec g i))
       (seqZ lo (Z.of_nat n))) w.
Proof.
  revert lo w. induction n as [|n IH]; intros lo w; [done|].
  rewrite seqZ_cons by lia. cbn [for_loop flat_map]. rewrite exec_steps_app.
  apply bind_ext; [apply chain_walk_units|]. intros _ w'. rewrite IH.
  by replace (Z.pred (Z.of_nat (S n))) with (Z.of_nat n) by lia.
Qed.

Definition phase7_banner : event :=
  if negb (no_modify g) then EvLog "Phase 7 - verify and correct link counts...\n" []
  else EvLog "Phase 7 - verify link counts...\n" [].

(** The sequential strategy runs [seq_units] after its banner. *)
Lemma phase7_sequential_units sched w :
  do_prefetch g = false ->
  phase7 g mp sched w = exec_steps g mp (seq_units g) (logged w [phase7_banner]).
Proof.
  intros Hseq. unfold phase7. rewrite Hseq.
  rewrite (bind_done _ _ w tt (logged w [phase7_banner]))
    by (unfold phase7_banner; by destruct (negb (no_modify g))).
  rewrite group_loop_units. unfold seq_units. by rewrite seqZ_to_nat.
Qed.

Lemma run_workers_order sched tasks w :
  run_workers g mp sched tasks w = exec_steps g mp (schedule_order sched tasks) w.
Proof.
  revert tasks w. induction sched as [|k sched IH]; intros tasks w; simpl; [done|].
  destruct (pick k tasks) as [[s tasks']|]; [|apply IH].
  simpl. apply bind_ext; [done|]. intros _ w'. apply IH.
Qed.

(** The concurrent strategy runs the units of the queued tasks in the
    order of the schedule, between the progress banner and the final
    report. *)
Lemma phase7_concurrent_units sched w :
  do_prefetch g = true ->
  phase7 g mp sched w =
  bind (exec_steps g mp (schedule_order sched (queue g)))
       (fun _ => print_final_rpt)
       (logged w [phase7_banner; EvProgressMsg (no_modify g) (u64 (sb_icount mp))]).
Proof.
  intros Hpar. unfold phase7. rewrite Hpar.
  rewrite (bind_done _ _ w tt (logged w [phase7_banner]))
    by (unfold phase7_banner; by destruct (negb (no_modify g))).
  unfold phase7_alt, set_progress_msg. erewrite bind_done by apply emit_run.
  rewrite logged_logged. simpl. apply bind_ext; [|done].
  intros w'. apply run_workers_order.
Qed.

(** Without its progress increments a task is the sequential walk of its
    group. *)
Lemma work_units_slots agno :
  filter (fun s => is_slot s = true) (work_units g agno) =
  flat_map (slot_units agno) (findfirst_inode_rec g agno).
Proof.
  unfold work_units. induction (findfirst_inode_rec g agno) as [|irec irecs IH]; [done|].
  cbn [flat_map]. rewrite chunk_units_slots, !filter_app, IH. f_equal.
  rewrite filter_cons_False by done. rewrite filter_nil, app_nil_r.
  unfold slot_units. induction (seqZ 0 (XFS_INODES_PER_CHUNK h)) as [|j js IHj]; [done|].
  simpl. rewrite filter_cons_True by done. by rewrite IHj.
Qed.

Lemma queue_slots :
  filter (fun s => is_slot s = true) (concat (queue g)) = seq_units g.
Proof.
  unfold queue, seq_units. induction (seqZ 0 (glob_agcount g)) as [|i ags IH]; [done|].
  cbn [map concat flat_map]. by rewrite filter_app, IH, work_units_slots.
Qed.

End Units.

(** ** Any schedule against the in-order one *)

Section Schedule.

Variables (g : globals) (mp : xfs_mount).

(** Units of different tasks are independent. *)
Fixpoint tasks_indep (tasks : list (list step)) : Prop :=
  match tasks with
  | [] => True
  | t :: ts =>
      (forall s1 s2, s1 ∈ t -> s2 ∈ concat ts -> indep g mp s1 s2) /\ tasks_indep ts
  end.

Lemma indep_sym s1 s2 : indep g mp s1 s2 -> indep g mp s2 s1.
Proof. intros (i1 & i2 & Hne & H1 & H2). exists i2, i1. by split_and!. Qed.

Lemma pick_spec k tasks s tasks' :
  tasks_indep tasks -> pick k tasks = Some (s, tasks') ->
  exists pre post,
    concat tasks = pre ++ s :: post /\ concat tasks' = pre ++ post /\
    Forall (indep g mp s) pre /\ tasks_indep tasks'.
Proof.
  revert k tasks'. induction tasks as [|t ts IH]; intros k tasks' Hind Hpick;
    [by destruct k|].
  destruct Hind as [Hhead Hind]. destruct k as [|k]; simpl in Hpick.
  - destruct t as [|s0 t]; [done|]. injection Hpick as -> <-.
    exists [], (t ++ concat ts). split_and!; try done.
    split; [|done]. intros s1 s2 H1 H2. apply Hhead; [|done]. by apply list_elem_of_further.
  - destruct (pick k ts) as [[s0 ts']|] eqn:Hk; [|done]. injection Hpick as -> <-.
    destruct (IH k ts' Hind Hk) as (pre & post & Hc & Hc' & Hpre & Hind').
    exists (t ++ pre), post. simpl. rewrite Hc, Hc', <- !app_assoc. split_and!; try done.
    + apply Forall_app. split; [|done]. apply Forall_forall. intros x Hx.
      apply indep_sym, Hhead; [done|]. rewrite Hc, elem_of_app. right.
      apply list_elem_of_here.
    + intros s1 s2 H1 H2. apply Hhead; [done|].
      rewrite Hc. rewrite elem_of_app in H2. destruct H2 as [H2|H2].
      * rewrite elem_of_app. by left.
      * rewrite elem_of_app. right. by apply list_elem_of_further.
Qed.

(** If the tasks run one after the other finish, they finish under every
    schedule, with the same disk and the same events. *)
Lemma schedule_same_effect sched tasks w w1 :
  tasks_indep tasks ->
  exec_steps g mp (concat tasks) w = (Done tt, w1) ->
  exists w2, exec_steps g mp (schedule_order sched tasks) w = (Done tt, w2)
             /\ same_effect w1 w2.
Proof.
  revert tasks w w1. induction sched as [|k sched IH]; intros tasks w w1 Hind Hrun; simpl.
  - by exists w1.
  - destruct (pick k tasks) as [[s tasks']|] eqn:Hpick; [|by apply IH].
    destruct (pick_spec k tasks s tasks' Hind Hpick) as (pre & post & Hc & Hc' & Hpre & Hind').
    rewrite Hc in Hrun.
    destruct (exec_steps_move_front g mp pre s post w w1 Hpre Hrun) as (w2 & Hrun2 & Heq2).
    simpl in Hrun2. apply bind_finished in Hrun2 as ([] & ws & Hs & Hrest).
    rewrite <- Hc' in Hrest.
    destruct (IH tasks' ws w2 Hind' Hrest) as (w3 & Hrun3 & Heq3).
    exists w3. split; [|by etrans]. simpl. by rewrite (bind_done _ _ _ _ _ Hs).
Qed.

(** And if they finish under some schedule, they finish one after the
    other. *)
Lemma schedule_same_effect_rev sched tasks w w2 :
  tasks_indep tasks ->
  exec_steps g mp (schedule_order sched tasks) w = (Done tt, w2) ->
  exists w1, exec_steps g mp (concat tasks) w = (Done tt, w1) /\ same_effect w2 w1.
Proof.
  revert tasks w w2. induction sched as [|k sched IH]; intros tasks w w2 Hind Hrun;
    simpl in Hrun.
  - by exists w2.
  - destruct (pick k tasks) as [[s tasks']|] eqn:Hpick; [|by apply IH].
    destruct (pick_spec k tasks s tasks' Hind Hpick) as (pre & post & Hc & Hc' & Hpre & Hind').
    simpl in Hrun. apply bind_finished in Hrun as ([] & ws & Hs & Hrest).
    destruct (IH tasks' ws w2 Hind' Hrest) as (w3 & Hrun3 & Heq3).
    rewrite Hc' in Hrun3.
    destruct (exec_steps_move_back g mp pre s post w w3 Hpre) as (w4 & Hrun4 & Heq4).
    { cbn [exec_steps]. by rewrite (bind_done _ _ _ _ _ Hs). }
    exists w4. rewrite Hc. split; [done|by etrans].
Qed.

End Schedule.

(** ** Progress reporting does not matter *)

Definition is_progress (e : event) : bool :=
  match e with
  | EvProgressMsg _ _ | EvProgress _ _ | EvFinalReport => true
  | _ => false
  end.

(** A log without its progress reports. *)
Definition core (log : list event) : list event := filter (fun e => is_progress e = false) log.

Definition same_core (w1 w2 : world) : Prop :=
  w_disk w1 = w_disk w2 /\ core (w_log w1) = core (w_log w2).

Lemma core_app l1 l2 : core (l1 ++ l2) = core l1 ++ core l2.
Proof. apply filter_app. Qed.

Section Progress.

Variables (g : globals) (mp : xfs_mount).

Lemma local_same_core ino c w w' o w1 :
  local_at ino c -> same_core w w' -> c w = (o, w1) ->
  exists w1', c w' = (o, w1') /\ same_core w1 w1'.
Proof.
  intros Hc [Hd Hl] Hrun. destruct (Hc w) as (o' & wr & evs & H).
  rewrite (H w) in Hrun by done. injection Hrun as -> <-.
  exists (effect ino wr evs w'). split; [apply H; by rewrite Hd|].
  split; simpl; [by rewrite Hd | by rewrite !core_app, Hl].
Qed.

(** A list of steps finishes with or without its progress steps. *)
Lemma exec_steps_with_progress l w w' w1 :
  same_core w w' ->
  exec_steps g mp (filter (fun s => is_slot s = true) l) w = (Done tt, w1) ->
  exists w1', exec_steps g mp l w' = (Done tt, w1') /\ same_core w1 w1'.
Proof.
  revert w w'. induction l as [|s l IH]; intros w w' Hw Hrun.
  - injection Hrun as <-. by exists w'.
  - destruct s as [agno irec j|agno].
    + rewrite filter_cons_True in Hrun by done. simpl in Hrun.
      apply bind_finished in Hrun as ([] & ws & Hs & Hrest).
      destruct (local_same_core _ _ w w' _ _ (local_slot_body g mp agno irec j) Hw Hs)
        as (ws' & Hs' & Hws).
      destruct (IH ws ws' Hws Hrest) as (w1' & Hrun' & Hw1).
      exists w1'. split; [|done]. simpl. by rewrite (bind_done _ _ _ _ _ Hs').
    + rewrite filter_cons_False in Hrun by done.
      destruct (IH w (logged w' [EvProgress agno (XFS_INODES_PER_CHUNK h)])) as (w1' & Hrun' & Hw1);
        [|done|].
      { destruct Hw as [Hd Hl]. split; [done|]. simpl. rewrite core_app, Hl.
        unfold core at 3. rewrite filter_cons_False by done. by rewrite filter_nil, app_nil_r. }
      exists w1'. split; [|done]. simpl. by erewrite bind_done by reflexivity.
Qed.

Lemma exec_steps_without_progress l w w' w1' :
  same_core w w' ->
  exec_steps g mp l w' = (Done tt, w1') ->
  exists w1, exec_steps g mp (filter (fun s => is_slot s = true) l) w = (Done tt, w1)
             /\ same_core w1 w1'.
Proof.
  revert w w'. induction l as [|s l IH]; intros w w' Hw Hrun.
  - injection Hrun as <-. by exists w.
  - simpl in Hrun. apply bind_finished in Hrun as ([] & ws' & Hs' & Hrest).
    destruct s as [agno irec j|agno].
    + rewrite filter_cons_True by done.
      assert (same_core w' w) as Hw' by (destruct Hw; by split).
      destruct (local_same_core _ _ w' w _ _ (local_slot_body g mp agno irec j) Hw' Hs')
        as (ws & Hs & Hws).
      destruct (IH ws ws') as (w1 & Hrun1 & Hw1); [by destruct Hws; split|done|].
      exists w1. split; [|done]. simpl. by rewrite (bind_done _ _ _ _ _ Hs).
    + rewrite filter_cons_False by done. injection Hs' as <-.
      apply (IH w (logged w' [EvProgress agno (XFS_INODES_PER_CHUNK h)])); [|done].
      destruct Hw as [Hd Hl]. split; [done|]. simpl. rewrite core_app, Hl.
      unfold core at 3. rewrite filter_cons_False by done. by rewrite filter_nil, app_nil_r.
Qed.

End Progress.

(** ** Well-formed inode records *)

(** Every chunk record lies inside the inode numbers of its allocation
    group: the AG-relative inode numbers of its slots fit in
    [m_agino_log] bits.  Group numbers are 32-bit. *)
Definition wf_incore (g : globals) (mp : xfs_mount) : Prop :=
  0 <= m_agino_log mp <= 32 /\
  glob_agcount g <= 2 ^ 32 /\
  forall agno irec,
    0 <= agno < glob_agcount g -> irec ∈ findfirst_inode_rec g agno ->
    0 <= ino_startnum irec /\
    ino_startnum irec + (XFS_INODES_PER_CHUNK h) <= 2 ^ m_agino_log mp.

Section WellFormed.

Variables (g : globals) (mp : xfs_mount).
Hypothesis wf : wf_incore g mp.

Lemma slot_agino_exact agno irec j :
  0 <= agno < glob_agcount g -> irec ∈ findfirst_inode_rec g agno ->
  0 <= j < (XFS_INODES_PER_CHUNK h) ->
  slot_agino irec j = ino_startnum irec + j /\
  0 <= ino_startnum irec + j < 2 ^ m_agino_log mp.
Proof.
  intros Ha Hr Hj. destruct wf as (Hb & _ & Hin). destruct (Hin agno irec Ha Hr) as [H0 H1].
  assert (2 ^ m_agino_log mp <= 2 ^ 32) by (apply Z.pow_le_mono_r; lia).
  unfold slot_agino, u32. rewrite Z.mod_small by lia. lia.
Qed.

(** The group number can be read back from the inode number. *)
Lemma slot_ino_agno agno irec j :
  0 <= agno < glob_agcount g -> irec ∈ findfirst_inode_rec g agno ->
  0 <= j < (XFS_INODES_PER_CHUNK h) ->
  Z.shiftr (slot_ino mp agno irec j) (m_agino_log mp) = agno.
Proof.
  intros Ha Hr Hj. destruct (slot_agino_exact agno irec j Ha Hr Hj) as [Hx Hrange].
  destruct wf as (Hb & Hcount & _).
  unfold slot_ino, XFS_AGINO_TO_INO, XFS_INO_AGINO_BITS, u64. rewrite Hx.
  assert (0 < 2 ^ m_agino_log mp) by (apply Z.pow_pos_nonneg; lia).
  assert (2 ^ m_agino_log mp <= 2 ^ 32) by (apply Z.pow_le_mono_r; lia).
  rewrite Z.shiftl_mul_pow2 by lia.
  rewrite Z.mod_small by (change (2 ^ 64) with (2 ^ 32 * 2 ^ 32); nia).
  rewrite Z.shiftr_lor, !Z.shiftr_div_pow2 by lia.
  rewrite Z.div_mul by lia. rewrite (Z.div_small (ino_startnum irec + j)) by lia.
  apply Z.lor_0_r.
Qed.

Lemma elem_of_work_units s agno :
  s ∈ work_units g agno ->
  s = StepProgress agno \/
  exists irec j, s = StepSlot agno irec j /\ irec ∈ findfirst_inode_rec g agno /\
                 0 <= j < (XFS_INODES_PER_CHUNK h).
Proof.
  unfold work_units. rewrite list_elem_of_In, in_flat_map. intros (irec & Hr & Hs).
  unfold chunk_units in Hs. apply in_app_or in Hs as [Hs|Hs].
  - apply in_map_iff in Hs as (j & <- & Hj). right. exists irec, j.
    apply list_elem_of_In in Hr. apply list_elem_of_In, elem_of_seqZ in Hj.
    split_and!; try done; lia.
  - left. by destruct Hs as [<-|[]].
Qed.

Lemma units_indep a b s1 s2 :
  a <> b -> 0 <= a < glob_agcount g -> 0 <= b < glob_agcount g ->
  s1 ∈ work_units g a -> s2 ∈ work_units g b -> indep g mp s1 s2.
Proof.
  intros Hne Ha Hb H1 H2.
  apply elem_of_work_units in H1 as [->|(r1 & j1 & -> & Hr1 & Hj1)];
    apply elem_of_work_units in H2 as [->|(r2 & j2 & -> & Hr2 & Hj2)].
  - exists 0, 1. split_and!; [done|apply local_emit..].
  - exists (slot_ino mp b r2 j2 + 1), (slot_ino mp b r2 j2).
    split_and!; [lia|apply local_emit|apply local_slot_body].
  - exists (slot_ino mp a r1 j1), (slot_ino mp a r1 j1 + 1).
    split_and!; [lia|apply local_slot_body|apply local_emit].
  - exists (slot_ino mp a r1 j1), (slot_ino mp b r2 j2).
    split_and!; [|apply local_slot_body..].
    intros Heq. apply Hne.
    rewrite <- (slot_ino_agno a r1 j1), <- (slot_ino_agno b r2 j2) by done. by rewrite Heq.
Qed.

Lemma tasks_indep_units ags :
  NoDup ags -> Forall (fun a => 0 <= a < glob_agcount g) ags ->
  tasks_indep g mp (map (work_units g) ags).
Proof.
  induction 1 as [|a ags Hnotin Hnd IH]; intros Hrange; [done|].
  apply Forall_cons in Hrange as [Ha Hrange]. split; [|by apply IH].
  intros s1 s2 H1 H2. apply list_elem_of_In, in_concat in H2 as (t & Ht & H2).
  apply in_map_iff in Ht as (b & <- & Hb). apply list_elem_of_In in Hb.
  apply (units_indep a b); try done.
  - intros ->. done.
  - by apply (proj1 (Forall_forall _ _) Hrange).
  - by apply list_elem_of_In.
Qed.

Lemma tasks_indep_queue : tasks_indep g mp (queue g).
Proof.
  apply tasks_indep_units; [apply NoDup_seqZ|].
  apply Forall_forall. intros a Ha. apply elem_of_seqZ in Ha. lia.
Qed.

End WellFormed.

(** ** The two strategies *)

Definition with_prefetch (b : bool) (g : globals) : globals :=
  {| no_modify := no_modify g;
     do_prefetch := b;
     fs_inode_nlink := fs_inode_nlink g;
     orphanage_ino := orphanage_ino g;
     glob_agcount := glob_agcount g;
     incore := incore g |}.

Lemma omap_core {B} (f : event -> option B) log :
  (forall e, is_progress e = true -> f e = None) -> omap f (core log) = omap f log.
Proof.
  intros Hf. unfold core. induction log as [|e log IH]; [done|].
  destruct (is_progress e) eqn:He.
  - rewrite filter_cons_False by (by rewrite He). cbn [omap list_omap].
    by rewrite (Hf e He).
  - rewrite filter_cons_True by done. cbn [omap list_omap]. by rewrite IH.
Qed.

Lemma observe_same {B} (f : event -> option B) w1 wa wb :
  (forall e, is_progress e = true -> f e = None) ->
  same_core w1 wa -> same_effect wa wb ->
  omap f (w_log wb ++ [EvFinalReport]) ≡ₚ omap f (w_log w1).
Proof.
  intros Hf [_ Hc] [_ Hp].
  rewrite <- (omap_core f (w_log w1)), <- (omap_core f (w_log wb ++ _)) by done.
  rewrite Hc, core_app. unfold core at 2. rewrite filter_cons_False by done.
  rewrite filter_nil, app_nil_r. unfold core. by rewrite Hp.
Qed.

(** On well-formed records the concurrent strategy finishes whenever
    the sequential one does, with the same disk and, progress reports
    apart, the same events. *)
Lemma concurrent_of_sequential g mp sched sched0 w w1 :
  wf_incore g mp ->
  phase7 (with_prefetch false g) mp sched0 w = (Done tt, w1) ->
  exists wa wb,
    phase7 (with_prefetch true g) mp sched w = (Done tt, logged wb [EvFinalReport]) /\
    same_core w1 wa /\ same_effect wa wb.
Proof.
  intros Hwf Hrun.
  rewrite phase7_sequential_units in Hrun by done.
  change (exec_steps g mp (seq_units g) (logged w [phase7_banner g]) = (Done tt, w1)) in Hrun.
  rewrite <- queue_slots in Hrun.
  destruct (exec_steps_with_progress g mp (concat (queue g)) (logged w [phase7_banner g])
              (logged w [phase7_banner g; EvProgressMsg (no_modify g) (u64 (sb_icount mp))])
              w1) as (wa & Hruna & Hcore); [|done|].
  { split; [done|]. simpl. rewrite !core_app. f_equal. }
  destruct (schedule_same_effect g mp sched (queue g) _ wa (tasks_indep_queue g mp Hwf) Hruna)
    as (wb & Hrunb & Heff).
  exists wa, wb. split; [|done].
  rewrite phase7_concurrent_units by done.
  change (bind (exec_steps g mp (schedule_order sched (queue g)))
            (fun _ => print_final_rpt)
            (logged w [phase7_banner g; EvProgressMsg (no_modify g) (u64 (sb_icount mp))])
          = (Done tt, logged wb [EvFinalReport])).
  by rewrite (bind_done _ _ _ _ _ Hrunb).
Qed.

(** And the sequential strategy finishes whenever the concurrent one
    does, under whatever schedule. *)
Lemma sequential_of_concurrent g mp sched sched0 w w2 :
  wf_incore g mp ->
  phase7 (with_prefetch true g) mp sched w = (Done tt, w2) ->
  exists w1, phase7 (with_prefetch false g) mp sched0 w = (Done tt, w1).
Proof.
  intros Hwf Hrun.
  rewrite phase7_concurrent_units in Hrun by done.
  change (bind (exec_steps g mp (schedule_order sched (queue g)))
            (fun _ => print_final_rpt)
            (logged w [phase7_banner g; EvProgressMsg (no_modify g) (u64 (sb_icount mp))])
          = (Done tt, w2)) in Hrun.
  apply bind_finished in Hrun as ([] & wb & Hrunb & _).
  destruct (schedule_same_effect_rev g mp sched (queue g) _ wb (tasks_indep_queue g mp Hwf) Hrunb)
    as (wa & Hruna & _).
  destruct (exec_steps_without_progress g mp (concat (queue g)) (logged w [phase7_banner g])
              (logged w [phase7_banner g; EvProgressMsg (no_modify g) (u64 (sb_icount mp))])
              wa) as (w1 & Hrun1 & _); [|exact Hruna|].
  { split; [done|]. simpl. rewrite !core_app. f_equal. }
  exists w1. rewrite phase7_sequential_units by done.
  change (exec_steps g mp (seq_units g) (logged w [phase7_banner g]) = (Done tt, w1)).
  by rewrite <- queue_slots.
Qed.

(** C3, as the code has it.  On well-formed inode records (every chunk
    inside the inode numbers of its allocation group) the per-group task
    of the concurrent strategy is the sequential walk of that group with a
    progress increment after each chunk, and under every schedule of the
    tasks the concurrent strategy runs to the end exactly when the
    sequential one does.  For a pass that runs to the end, it ends with
    the same disk and the same multiset of corrections (inode number,
    link count logged), of warnings and of visited slots.  Nothing is
    said of a pass that a fatal error or a failed assertion stops: what
    was corrected before the stop depends on the order of the walk. *)
Theorem concurrent_equals_sequential (g : globals) (mp : xfs_mount)
    (sched sched0 : list nat) (w : world) :
  wf_incore g mp ->
  (forall agno w0,
     phase7_alt_function g mp agno w0 = exec_steps g mp (work_units g agno) w0 /\
     filter (fun s => is_slot s = true) (work_units g agno) =
       flat_map (slot_units agno) (findfirst_inode_rec g agno)) /\
  finished (phase7 (with_prefetch true g) mp sched w) =
    finished (phase7 (with_prefetch false g) mp sched0 w) /\
  (forall w1,
     phase7 (with_prefetch false g) mp sched0 w = (Done tt, w1) ->
     exists w2,
       phase7 (with_prefetch true g) mp sched w = (Done tt, w2) /\
       w_disk w2 = w_disk w1 /\
       corrections (w_log w2) ≡ₚ corrections (w_log w1) /\
       warnings (w_log w2) ≡ₚ warnings (w_log w1) /\
       visited (w_log w2) ≡ₚ visited (w_log w1)).
Proof.
  intros Hwf. split.
  { intros agno w0. split; [apply phase7_alt_function_units | apply work_units_slots]. }
  split.
  - unfold finished.
    destruct (phase7 (with_prefetch false g) mp sched0 w) as [[[]|f] w1] eqn:Hseq.
    + destruct (concurrent_of_sequential g mp sched sched0 w w1 Hwf Hseq) as (? & ? & -> & _).
      done.
    + destruct (phase7 (with_prefetch true g) mp sched w) as [[[]|f'] w2] eqn:Hpar; [|done].
      destruct (sequential_of_concurrent g mp sched sched0 w w2 Hwf Hpar) as (w1' & Hseq').
      congruence.
  - intros w1 Hseq.
    destruct (concurrent_of_sequential g mp sched sched0 w w1 Hwf Hseq)
      as (wa & wb & Hpar & Hcore & Heff).
    exists (logged wb [EvFinalReport]). split; [done|]. split.
    { simpl. destruct Hcore as [-> _]. by destruct Heff as [-> _]. }
    split_and!; apply (observe_same _ w1 wa wb); try done; by intros [].
Qed.


(** ** The slots a pass visits *)

(** The (group, AG-relative inode number) of a slot step. *)
Definition slot_id (s : step) : option (Z * Z) :=
  match s with
  | StepSlot agno irec j => Some (agno, slot_agino irec j)
  | StepProgress _ => None
  end.

(** The slot of a step, if it is not free. *)
Definition live_slot (s : step) : option (Z * Z) :=
  match s with
  | StepSlot agno irec j =>
      if is_inode_free irec j then None else Some (agno, slot_agino irec j)
  | StepProgress _ => None
  end.

(** The slot of a step, if it is not free and confirmed. *)
Definition live_confirmed_slot (s : step) : option (Z * Z) :=
  match s with
  | StepSlot agno irec j =>
      if negb (is_inode_free irec j) && is_inode_confirmed irec j
      then Some (agno, slot_agino irec j) else None
  | StepProgress _ => None
  end.

(** All slots the inode record source reports, and the live, confirmed
    ones among them, in the order of the chains. *)
Definition reported_slots (g : globals) : list (Z * Z) := omap slot_id (seq_units g).
Definition live_confirmed_slots (g : globals) : list (Z * Z) :=
  omap live_confirmed_slot (seq_units g).

Lemma visited_app l1 l2 : visited (l1 ++ l2) = visited l1 ++ visited l2.
Proof. apply omap_app. Qed.

Lemma update_inode_nlinks_no_visit g mp ino nlinks w :
  exists evs, w_log (final (update_inode_nlinks g mp ino nlinks w)) = w_log w ++ evs
              /\ visited evs = [].
Proof.
  destruct (update_inode_nlinks_spec g mp ino nlinks w);
    (eexists; split; [reflexivity|]);
    unfold ev_open, ev_release, ev_resetting, ev_commit, visited; simpl; try done.
  by case_match.
Qed.

Lemma elem_of_seq_units g s :
  s ∈ seq_units g <->
  exists agno irec j, s = StepSlot agno irec j /\ 0 <= agno < glob_agcount g /\
                      irec ∈ findfirst_inode_rec g agno /\ 0 <= j < (XFS_INODES_PER_CHUNK h).
Proof.
  unfold seq_units, slot_units. rewrite list_elem_of_In, in_flat_map. split.
  - intros (agno & Ha & Hs). apply in_flat_map in Hs as (irec & Hr & Hs).
    apply in_map_iff in Hs as (j & <- & Hj).
    apply list_elem_of_In, elem_of_seqZ in Ha. apply list_elem_of_In in Hr.
    apply list_elem_of_In, elem_of_seqZ in Hj.
    exists agno, irec, j. split_and!; try done; lia.
  - intros (agno & irec & j & -> & Ha & Hr & Hj). exists agno. split.
    + apply list_elem_of_In, elem_of_seqZ. lia.
    + apply in_flat_map. exists irec. split; [by apply list_elem_of_In|].
      apply in_map. apply list_elem_of_In, elem_of_seqZ. lia.
Qed.

Section Visits.

Variables (g : globals) (mp : xfs_mount).

(** A step that finishes visits its slot if it is not free, and then the
    slot was confirmed. *)
Lemma exec_step_visited s w w' :
  exec_step g mp s w = (Done tt, w') ->
  visited (w_log w') = visited (w_log w) ++ option_list (live_slot s) /\
  live_slot s = live_confirmed_slot s.
Proof.
  destruct s as [agno irec j|agno]; simpl.
  2:{ intros [= <-]. simpl. by rewrite visited_app. }
  intros Hrun. destruct (slot_asserts g irec j) eqn:Ha.
  2:{ destruct (slot_body_assert g mp agno irec j w Ha) as (what & evs & Hf & _).
      congruence. }
  assert (is_inode_confirmed irec j = true) as Hc.
  { unfold slot_asserts in Ha. by apply andb_prop in Ha as [? _]. }
  rewrite Hc, andb_true_r.
  destruct (is_inode_free irec j) eqn:Hf; simpl.
  { rewrite slot_body_free in Hrun by done. injection Hrun as <-. by rewrite app_nil_r. }
  split; [|done]. destruct (slot_mismatch irec j) eqn:Hm.
  - rewrite slot_body_mismatch in Hrun by done.
    destruct (update_inode_nlinks_no_visit g mp (slot_ino mp agno irec j)
                (num_inode_references irec j) (logged w [EvVisit agno (slot_agino irec j)]))
      as (evs & Hl & Hv).
    rewrite Hrun in Hl. simpl in Hl. rewrite Hl, !visited_app, Hv. by rewrite app_nil_r.
  - rewrite slot_body_match in Hrun by done. injection Hrun as <-. simpl.
    by rewrite visited_app.
Qed.

Lemma exec_steps_visited l w w' :
  exec_steps g mp l w = (Done tt, w') ->
  visited (w_log w') = visited (w_log w) ++ omap live_slot l /\
  omap live_slot l = omap live_confirmed_slot l.
Proof.
  revert w. induction l as [|s l IH]; intros w Hrun; simpl in Hrun.
  - injection Hrun as <-. by rewrite app_nil_r.
  - apply bind_finished in Hrun as ([] & ws & Hs & Hrest).
    destruct (exec_step_visited s w ws Hs) as [Hv Hc].
    destruct (IH ws Hrest) as [Hv' Hc'].
    cbn [omap list_omap]. rewrite <- Hc, <- Hc'. split; [|done].
    rewrite Hv', Hv, <- app_assoc. f_equal. by destruct (live_slot s).
Qed.

End Visits.

Lemma pick_perm k tasks s tasks' :
  pick k tasks = Some (s, tasks') -> concat tasks ≡ₚ s :: concat tasks'.
Proof.
  revert k tasks'. induction tasks as [|t ts IH]; intros k tasks' Hpick; [by destruct k|].
  destruct k as [|k]; simpl in Hpick.
  - destruct t as [|s0 t]; [done|]. by injection Hpick as -> <-.
  - destruct (pick k ts) as [[s0 ts']|] eqn:Hk; [|done]. injection Hpick as -> <-.
    simpl. rewrite (IH k ts' Hk). by rewrite Permutation_middle.
Qed.

(** A schedule runs every unit of every task once. *)
Lemma schedule_order_perm sched tasks : schedule_order sched tasks ≡ₚ concat tasks.
Proof.
  revert tasks. induction sched as [|k sched IH]; intros tasks; simpl; [done|].
  destruct (pick k tasks) as [[s tasks']|] eqn:Hpick; [|apply IH].
  by rewrite IH, (pick_perm k tasks s tasks' Hpick).
Qed.

Lemma omap_slots {B} (f : step -> option B) (l : list step) :
  (forall s, is_slot s = false -> f s = None) ->
  omap f (filter (fun s => is_slot s = true) l) = omap f l.
Proof.
  intros Hf. induction l as [|s l IH]; [done|].
  destruct (is_slot s) eqn:Hs.
  - rewrite filter_cons_True by done. cbn [omap list_omap]. by rewrite IH.
  - rewrite filter_cons_False by (by rewrite Hs). cbn [omap list_omap].
    by rewrite (Hf s Hs).
Qed.

Lemma live_confirmed_sublist (l : list step) :
  omap live_confirmed_slot l `sublist_of` omap slot_id l.
Proof.
  induction l as [|s l IH]; [done|]. cbn [omap list_omap].
  destruct s as [agno irec j|agno]; simpl; [|done].
  destruct (negb (is_inode_free irec j) && is_inode_confirmed irec j);
    [by apply sublist_skip | by apply sublist_cons].
Qed.

Lemma live_confirmed_slots_spec g p :
  p ∈ live_confirmed_slots g <->
  exists agno irec j,
    0 <= agno < glob_agcount g /\ irec ∈ findfirst_inode_rec g agno /\
    0 <= j < (XFS_INODES_PER_CHUNK h) /\ p = (agno, u32 (ino_startnum irec + j)) /\
    is_inode_free irec j = false /\ is_inode_confirmed irec j = true.
Proof.
  unfold live_confirmed_slots. rewrite list_elem_of_omap. split.
  - intros (s & Hs & Hp). apply elem_of_seq_units in Hs as (agno & irec & j & -> & Ha & Hr & Hj).
    simpl in Hp.
    destruct (is_inode_free irec j) eqn:Hf, (is_inode_confirmed irec j) eqn:Hc; try done.
    simpl in Hp. injection Hp as <-. exists agno, irec, j.
    split_and!; first [done | lia].
  - intros (agno & irec & j & Ha & Hr & Hj & -> & Hf & Hc).
    exists (StepSlot agno irec j). split.
    + apply elem_of_seq_units. exists agno, irec, j. split_and!; first [done | lia].
    + simpl. by rewrite Hf, Hc.
Qed.

(** C9.  Over a pass of [phase7] that runs to the end, in either
    strategy, the slots visited are exactly the live (not free),
    confirmed slots that the inode record source reports for the groups
    [0 .. glob_agcount - 1]: as multisets, so that none is omitted and
    each is visited as often as the source reports it, which is once when
    the source reports no slot twice; in the sequential strategy also in
    the same order. *)
Theorem partition_coverage (g : globals) (mp : xfs_mount) (sched : list nat) (w w' : world) :
  phase7 g mp sched w = (Done tt, w') ->
  exists vs,
    visited (w_log w') = visited (w_log w) ++ vs /\
    vs ≡ₚ live_confirmed_slots g /\
    (do_prefetch g = false -> vs = live_confirmed_slots g) /\
    (NoDup (reported_slots g) -> NoDup vs) /\
    (forall p, p ∈ vs <->
       exists agno irec j,
         0 <= agno < glob_agcount g /\ irec ∈ findfirst_inode_rec g agno /\
         0 <= j < (XFS_INODES_PER_CHUNK h) /\ p = (agno, u32 (ino_startnum irec + j)) /\
         is_inode_free irec j = false /\ is_inode_confirmed irec j = true).
Proof.
  intros Hrun.
  assert (exists vs, visited (w_log w') = visited (w_log w) ++ vs /\
            vs ≡ₚ live_confirmed_slots g /\
            (do_prefetch g = false -> vs = live_confirmed_slots g))
    as (vs & Hvis & Hperm & Hseq).
  { assert (visited [phase7_banner g] = []) as Hb.
    { unfold phase7_banner. by destruct (negb (no_modify g)). }
    destruct (do_prefetch g) eqn:Hpre.
    - rewrite phase7_concurrent_units in Hrun by done.
      apply bind_finished in Hrun as ([] & wb & Hsteps & Hfin). injection Hfin as <-.
      destruct (exec_steps_visited g mp _ _ _ Hsteps) as [Hv Hc].
      exists (omap live_confirmed_slot (schedule_order sched (queue g))).
      split_and!; [|unfold live_confirmed_slots;
                     by rewrite schedule_order_perm, <- (queue_slots g), omap_slots
                       by (by intros [])|done].
      simpl. rewrite visited_app, Hv, Hc. simpl. rewrite app_nil_r. f_equal.
      change [phase7_banner g; EvProgressMsg (no_modify g) (u64 (sb_icount mp))]
        with ([phase7_banner g] ++ [EvProgressMsg (no_modify g) (u64 (sb_icount mp))]).
      rewrite !visited_app, Hb. simpl. by rewrite app_nil_r.
    - rewrite phase7_sequential_units in Hrun by done.
      destruct (exec_steps_visited g mp _ _ _ Hrun) as [Hv Hc].
      exists (live_confirmed_slots g). split_and!; [|done..].
      rewrite Hv, Hc. simpl. rewrite visited_app, Hb. by rewrite app_nil_r. }
  exists vs. split_and!; try done.
  - intros Hnd. rewrite Hperm. eapply sublist_NoDup; [exact Hnd|].
    apply live_confirmed_sublist.
  - intros p. rewrite Hperm. apply live_confirmed_slots_spec.
Qed.


(** ** One form for both strategies *)

Definition phase7_order (g : globals) (sched : list nat) : list step :=
  if do_prefetch g then schedule_order sched (queue g) else seq_units g.

Definition phase7_open (g : globals) (mp : xfs_mount) : list event :=
  if do_prefetch g
  then [phase7_banner g; EvProgressMsg (no_modify g) (u64 (sb_icount mp))]
  else [phase7_banner g].

Definition phase7_close (g : globals) : M unit :=
  if do_prefetch g then print_final_rpt else ret tt.

Lemma phase7_normal_form g mp sched w :
  phase7 g mp sched w =
  bind (exec_steps g mp (phase7_order g sched)) (fun _ => phase7_close g)
       (logged w (phase7_open g mp)).
Proof.
  unfold phase7_order, phase7_open, phase7_close. destruct (do_prefetch g) eqn:Hpre.
  - by apply phase7_concurrent_units.
  - rewrite bind_ret_r. by apply phase7_sequential_units.
Qed.

Lemma phase7_order_slots g sched :
  filter (fun s => is_slot s = true) (phase7_order g sched) ≡ₚ seq_units g.
Proof.
  unfold phase7_order. destruct (do_prefetch g).
  - by rewrite schedule_order_perm, queue_slots.
  - rewrite <- (queue_slots g). by rewrite list_filter_filter_l.
Qed.

Lemma phase7_order_elem g sched agno irec j :
  StepSlot agno irec j ∈ phase7_order g sched ->
  0 <= agno < glob_agcount g /\ irec ∈ findfirst_inode_rec g agno /\
  0 <= j < (XFS_INODES_PER_CHUNK h).
Proof.
  intros Hin.
  assert (StepSlot agno irec j ∈ seq_units g) as Hs.
  { rewrite <- (phase7_order_slots g sched). by apply list_elem_of_filter. }
  apply elem_of_seq_units in Hs as (a & r & j' & [= -> -> ->] & ?). done.
Qed.


(** ** Inode numbers of different slots *)

Section Identity.

Variables (g : globals) (mp : xfs_mount).
Hypothesis wf : wf_incore g mp.

(** The AG-relative inode number can be read back from the inode number. *)
Lemma slot_ino_agino agno irec j :
  0 <= agno < glob_agcount g -> irec ∈ findfirst_inode_rec g agno ->
  0 <= j < (XFS_INODES_PER_CHUNK h) ->
  Z.land (slot_ino mp agno irec j) (Z.ones (m_agino_log mp)) = slot_agino irec j.
Proof.
  intros Ha Hr Hj. destruct (slot_agino_exact g mp wf agno irec j Ha Hr Hj) as [Hx Hrange].
  destruct wf as (Hb & Hcount & _).
  unfold slot_ino, XFS_AGINO_TO_INO, XFS_INO_AGINO_BITS, u64. rewrite Hx.
  assert (0 < 2 ^ m_agino_log mp) by (apply Z.pow_pos_nonneg; lia).
  assert (2 ^ m_agino_log mp <= 2 ^ 32) by (apply Z.pow_le_mono_r; lia).
  rewrite Z.shiftl_mul_pow2 by lia.
  rewrite Z.mod_small by (change (2 ^ 64) with (2 ^ 32 * 2 ^ 32); nia).
  rewrite Z.land_lor_distr_l, !Z.land_ones by lia.
  rewrite Z.mod_mul by lia. rewrite Z.mod_small by lia. apply Z.lor_0_l.
Qed.

Lemma slot_ino_inj a1 r1 j1 a2 r2 j2 :
  StepSlot a1 r1 j1 ∈ seq_units g -> StepSlot a2 r2 j2 ∈ seq_units g ->
  slot_ino mp a1 r1 j1 = slot_ino mp a2 r2 j2 ->
  (a1, slot_agino r1 j1) = (a2, slot_agino r2 j2).
Proof.
  intros H1 H2 Heq.
  apply elem_of_seq_units in H1 as (? & ? & ? & [= <- <- <-] & Ha1 & Hr1 & Hj1).
  apply elem_of_seq_units in H2 as (? & ? & ? & [= <- <- <-] & Ha2 & Hr2 & Hj2).
  f_equal.
  - rewrite <- (slot_ino_agno g mp wf a1 r1 j1), <- (slot_ino_agno g mp wf a2 r2 j2) by done.
    by rewrite Heq.
  - rewrite <- (slot_ino_agino a1 r1 j1), <- (slot_ino_agino a2 r2 j2) by done.
    by rewrite Heq.
Qed.

Lemma NoDup_step_ino (l : list step) :
  (forall s, s ∈ l -> s ∈ seq_units g) ->
  NoDup (omap slot_id l) -> NoDup (omap (step_ino mp) l).
Proof.
  induction l as [|s l IH]; intros Hsub Hnd; [constructor|].
  assert (forall s', s' ∈ l -> s' ∈ seq_units g) as Hsub'.
  { intros s' Hs'. apply Hsub. by apply list_elem_of_further. }
  destruct s as [a1 r1 j1|a]; cbn [omap list_omap slot_id step_ino] in *; [|by apply IH].
  apply NoDup_cons in Hnd as [Hnotin Hnd]. apply NoDup_cons. split; [|by apply IH].
  intros Hin. apply Hnotin.
  apply list_elem_of_omap in Hin as (s' & Hs' & Hino).
  apply list_elem_of_omap. exists s'. split; [done|].
  destruct s' as [a2 r2 j2|]; [|done]. simpl in *. injection Hino as Hino. f_equal.
  symmetry. apply slot_ino_inj; [apply Hsub, list_elem_of_here|by apply Hsub'|done].
Qed.

(** When the source reports no slot twice, every slot step of a pass has
    an inode number of its own. *)
Lemma NoDup_phase7_order sched :
  NoDup (reported_slots g) -> NoDup (omap (step_ino mp) (phase7_order g sched)).
Proof.
  intros Hnd.
  rewrite <- (omap_slots (step_ino mp) (phase7_order g sched)) by (by intros []).
  rewrite phase7_order_slots. by apply NoDup_step_ino.
Qed.

End Identity.

(** ** After a pass in mutation mode *)

Section Settle.

Variables (g : globals) (mp : xfs_mount).

Lemma final_bind {A B} (c : M A) (k : A -> M B) w :
  final (bind c k w) = match c w with
                       | (Done a, w1) => final (k a w1)
                       | (Fatal _, w1) => w1
                       end.
Proof. unfold final. rewrite bind_run. by destruct (c w) as [[a|f] w1]. Qed.

(** A step leaves the inodes of other slots alone. *)
Lemma exec_step_keeps_other s ino w :
  step_ino mp s <> Some ino ->
  w_disk (final (exec_step g mp s w)) !! ino = w_disk w !! ino.
Proof.
  destruct s as [agno irec j|agno]; simpl; intros Hne; [|done].
  destruct (local_slot_body g mp agno irec j w) as (o & wr & evs & H).
  rewrite (H w) by done. apply effect_lookup_ne. congruence.
Qed.

Lemma exec_steps_keeps_other l ino w :
  (forall s, s ∈ l -> step_ino mp s <> Some ino) ->
  w_disk (final (exec_steps g mp l w)) !! ino = w_disk w !! ino.
Proof.
  revert w. induction l as [|s l IH]; intros w Hl; [done|].
  simpl. rewrite final_bind.
  pose proof (exec_step_keeps_other s ino w (Hl s (list_elem_of_here _ _))) as Hs.
  destruct (exec_step g mp s w) as [[[]|f] ws]; simpl in Hs; [|done].
  rewrite IH; [done|]. intros s' Hs'. apply Hl. by apply list_elem_of_further.
Qed.

Hypothesis mutation : no_modify g = false.

(** In mutation mode a slot step that finishes leaves its inode, unless
    it is the orphanage, with the reference count on disk: it was
    mismatched and is corrected, or it had that count already. *)
Lemma exec_step_settles agno irec j w w' :
  exec_step g mp (StepSlot agno irec j) w = (Done tt, w') ->
  is_inode_free irec j = false ->
  slot_ino mp agno irec j <> orphanage_ino g ->
  slot_mismatch irec j = true \/
    nlink_on_disk w (slot_ino mp agno irec j) = Some (num_inode_references irec j) ->
  nlink_on_disk w' (slot_ino mp agno irec j) = Some (num_inode_references irec j).
Proof.
  simpl. intros Hrun Hf Hne Hcase. destruct (slot_asserts g irec j) eqn:Ha.
  2:{ destruct (slot_body_assert g mp agno irec j w Ha) as (what & evs & Hfail & _).
      congruence. }
  destruct (slot_mismatch irec j) eqn:Hm.
  - rewrite slot_body_mismatch in Hrun by done.
    destruct (update_inode_nlinks_spec g mp (slot_ino mp agno irec j)
                (num_inode_references irec j) (logged w [EvVisit agno (slot_agino irec j)]))
      as [| | |d ? Hd [?|Heq]|d|d ? Hd|d]; try congruence; injection Hrun as <-.
    + unfold nlink_on_disk. simpl in *. by rewrite Hd, <- Heq.
    + unfold nlink_on_disk. simpl. by rewrite lookup_insert_eq.
  - destruct Hcase as [?|Hcase]; [done|].
    rewrite slot_body_match in Hrun by done. by injection Hrun as <-.
Qed.

Lemma exec_steps_settles l w w1 agno irec j :
  NoDup (omap (step_ino mp) l) ->
  exec_steps g mp l w = (Done tt, w1) ->
  StepSlot agno irec j ∈ l ->
  is_inode_free irec j = false ->
  slot_ino mp agno irec j <> orphanage_ino g ->
  slot_mismatch irec j = true \/
    nlink_on_disk w (slot_ino mp agno irec j) = Some (num_inode_references irec j) ->
  nlink_on_disk w1 (slot_ino mp agno irec j) = Some (num_inode_references irec j).
Proof.
  revert w. induction l as [|s l IH]; intros w Hnd Hrun Hin Hf Hne Hcase.
  { by apply not_elem_of_nil in Hin. }
  simpl in Hrun. apply bind_finished in Hrun as ([] & ws & Hs & Hrest).
  apply elem_of_cons in Hin as [<- | Hin].
  - cbn [omap list_omap step_ino] in Hnd. apply NoDup_cons in Hnd as [Hnotin _].
    pose proof (exec_step_settles agno irec j w ws Hs Hf Hne Hcase) as Hset.
    unfold nlink_on_disk in *.
    replace (w_disk w1) with (w_disk (final (exec_steps g mp l ws))) by (by rewrite Hrest).
    rewrite exec_steps_keeps_other; [done|].
    intros s' Hs' Heq. apply Hnotin. apply list_elem_of_omap. by exists s'.
  - assert (NoDup (omap (step_ino mp) l) /\ step_ino mp s <> Some (slot_ino mp agno irec j))
      as [Hnd' Hother].
    { destruct (step_ino mp s) as [i|] eqn:Hi; cbn [omap list_omap] in Hnd; rewrite Hi in Hnd.
      - apply NoDup_cons in Hnd as [Hnotin Hnd']. split; [done|].
        intros [= ->]. apply Hnotin. apply list_elem_of_omap.
        by exists (StepSlot agno irec j).
      - done. }
    apply (IH ws); try done.
    destruct Hcase as [?|Hcase]; [by left|right].
    unfold nlink_on_disk in *.
    replace ws with (final (exec_step g mp s w)) by (by rewrite Hs).
    by rewrite exec_step_keeps_other.
Qed.

End Settle.

(** ** A pass that finds every count in place *)

Section Idle.

Variables (g : globals) (mp : xfs_mount).

Lemma update_inode_nlinks_settled ino nlinks w :
  ino = orphanage_ino g \/ nlink_on_disk w ino = Some nlinks ->
  grows eq quiet w (final (update_inode_nlinks g mp ino nlinks w)).
Proof.
  intros [->|Hset]; [apply update_inode_nlinks_orphanage|].
  unfold nlink_on_disk in Hset.
  destruct (update_inode_nlinks_spec g mp ino nlinks w)
    as [|? Hd|? Hd|d ? Hd|d ? Hd ? Hdiff|d ? Hd ? Hdiff|d ? Hd ? Hdiff];
    try (rewrite Hd in Hset; simpl in Hset); try congruence;
    apply (grows_logged eq quiet); events.
Qed.

Definition settled (l : list step) (w : world) : Prop :=
  forall agno irec j,
    StepSlot agno irec j ∈ l -> slot_mismatch irec j = true ->
    slot_ino mp agno irec j = orphanage_ino g \/
    nlink_on_disk w (slot_ino mp agno irec j) = Some (num_inode_references irec j).

Lemma exec_step_idle s w :
  settled [s] w -> grows eq quiet w (final (exec_step g mp s w)).
Proof.
  intros Hset. destruct s as [agno irec j|agno]; simpl.
  2:{ apply (grows_logged eq quiet). events. }
  destruct (slot_asserts g irec j) eqn:Ha.
  2:{ destruct (slot_body_assert g mp agno irec j w Ha) as (what & evs & -> & Hq).
      by apply (grows_logged eq quiet). }
  destruct (slot_mismatch irec j) eqn:Hm.
  - rewrite slot_body_mismatch by done.
    etrans; [apply (grows_logged eq quiet w [EvVisit agno (slot_agino irec j)]); events|].
    apply update_inode_nlinks_settled.
    destruct (Hset agno irec j (list_elem_of_here _ _) Hm) as [?|?]; [by left|by right].
  - destruct (is_inode_free irec j) eqn:Hf.
    + rewrite slot_body_free; [reflexivity| |done].
      unfold slot_asserts in Ha. by apply andb_prop in Ha as [? _].
    + rewrite slot_body_match by done. apply (grows_logged eq quiet). events.
Qed.



End Idle.

(** ** Two passes *)

(** The records agree with the disk: the on-disk link count recorded
    for a live slot is the link count of its inode on disk. *)
Definition consistent (g : globals) (mp : xfs_mount) (w : world) : Prop :=
  forall agno irec j,
    0 <= agno < glob_agcount g -> irec ∈ findfirst_inode_rec g agno ->
    0 <= j < (XFS_INODES_PER_CHUNK h) -> is_inode_free irec j = false ->
    nlink_on_disk w (slot_ino mp agno irec j) = Some (get_inode_disk_nlinks irec j).



Lemma phase7_order_slot g sched agno irec j :
  StepSlot agno irec j ∈ seq_units g -> StepSlot agno irec j ∈ phase7_order g sched.
Proof.
  intros Hin. rewrite <- (phase7_order_slots g sched) in Hin.
  by apply list_elem_of_filter in Hin as [_ ?].
Qed.


Lemma phase7_settles g mp sched w w1 agno irec j :
  no_modify g = false -> wf_incore g mp -> NoDup (reported_slots g) ->
  phase7 g mp sched w = (Done tt, w1) ->
  0 <= agno < glob_agcount g -> irec ∈ findfirst_inode_rec g agno ->
  0 <= j < (XFS_INODES_PER_CHUNK h) ->
  is_inode_free irec j = false ->
  slot_ino mp agno irec j <> orphanage_ino g ->
  slot_mismatch irec j = true \/
    nlink_on_disk w (slot_ino mp agno irec j) = Some (num_inode_references irec j) ->
  nlink_on_disk w1 (slot_ino mp agno irec j) = Some (num_inode_references irec j).
Proof.
  intros Hmode Hwf Hnd Hrun Ha Hr Hj Hf Hne Hcase.
  rewrite phase7_normal_form in Hrun.
  apply bind_finished in Hrun as ([] & wb & Hsteps & Hclose).
  assert (w_disk w1 = w_disk wb) as Hdisk.
  { unfold phase7_close in Hclose. destruct (do_prefetch g); by injection Hclose as <-. }
  unfold nlink_on_disk. rewrite Hdisk.
  apply (exec_steps_settles g mp Hmode (phase7_order g sched) (logged w (phase7_open g mp)));
    try done.
  - by apply NoDup_phase7_order.
  - apply phase7_order_slot, elem_of_seq_units. exists agno, irec, j.
    split_and!; first [done | lia].
Qed.


(** ** What the applier and a pass leave alone *)

Definition same_dom : relation (gmap Z xfs_dinode_core) := fun d d' => dom d' = dom d.

Global Instance same_dom_preorder : PreOrder same_dom.
Proof.
  split; [by intros d|]. intros d1 d2 d3 H1 H2. unfold same_dom in *. congruence.
Qed.

Definition any_disk : relation (gmap Z xfs_dinode_core) := fun _ _ => True.

Global Instance any_disk_preorder : PreOrder any_disk.
Proof. by split. Qed.

(** X1.  Whatever the mode and however it ends, [update_inode_nlinks]
    leaves every inode but [ino] as it is on disk and neither adds nor
    removes an inode; the disk is either unchanged, or inode [ino] was
    there with another link count and now holds the target. *)
Theorem update_inode_nlinks_frame (g : globals) (mp : xfs_mount) (ino nlinks : Z) (w : world) :
  (forall i, i <> ino ->
     w_disk (final (update_inode_nlinks g mp ino nlinks w)) !! i = w_disk w !! i) /\
  dom (w_disk (final (update_inode_nlinks g mp ino nlinks w))) = dom (w_disk w) /\
  (w_disk (final (update_inode_nlinks g mp ino nlinks w)) = w_disk w \/
   exists d, w_disk w !! ino = Some d /\ di_nlink d <> nlinks /\
             w_disk (final (update_inode_nlinks g mp ino nlinks w)) =
               <[ino := {| di_nlink := nlinks |}]> (w_disk w)).
Proof.
  destruct (update_inode_nlinks_spec g mp ino nlinks w) as [| | |d|d|d ? Hd ? Hdiff|d];
    try (split_and!; [done|done|by left]).
  simpl. split_and!.
  - intros i Hne. by rewrite lookup_insert_ne.
  - apply dom_insert_lookup_L. by rewrite Hd.
  - right. by exists d.
Qed.

(** A property kept by logging and by the walker's calls of the applier
    is kept by a whole pass. *)
Section AlwaysPass.

Context (R : world -> world -> Prop) `{!PreOrder R}.
Variables (g : globals) (mp : xfs_mount).
Hypothesis always_quiet : forall e, quiet e -> always R (emit e).
Hypothesis always_call : forall agno irec j,
  always R (update_inode_nlinks g mp (slot_ino mp agno irec j) (num_inode_references irec j)).

Lemma always_exec_step s : always R (exec_step g mp s).
Proof.
  destruct s as [agno irec j|agno]; simpl.
  - unfold slot_body. always_bind; [always_done|].
    destruct (is_inode_free irec j); [always_done|].
    always_bind; [by apply always_quiet|].
    always_bind; [always_done|]. always_bind; [always_done|].
    case_match; [apply always_call | always_done].
  - by apply always_quiet.
Qed.

Lemma always_phase7 sched : always R (phase7 g mp sched).
Proof.
  unfold phase7. always_bind.
  { case_match; by apply always_quiet. }
  destruct (do_prefetch g).
  - unfold phase7_alt. always_bind; [by apply always_quiet|].
    always_bind; [|by apply always_quiet].
    apply always_run_workers; [apply _|]. apply always_exec_step.
  - apply always_for_loop; [apply _|]. intros i.
    apply always_while_irec; [apply _|]. intros irec.
    apply always_for_loop; [apply _|]. intros j.
    apply (always_exec_step (StepSlot i irec j)).
Qed.

End AlwaysPass.

(** The log grew by events among which every inode logged was committed. *)
Definition paired (w w' : world) : Prop :=
  exists evs, w_log w' = w_log w ++ evs /\ commits evs = length (corrections evs).

Lemma commits_app l1 l2 : commits (l1 ++ l2) = (commits l1 + commits l2)%nat.
Proof. unfold commits. by rewrite filter_app, length_app. Qed.

Lemma corrections_app l1 l2 : corrections (l1 ++ l2) = corrections l1 ++ corrections l2.
Proof. apply omap_app. Qed.

Global Instance paired_preorder : PreOrder paired.
Proof.
  split.
  - intros w. exists []. by rewrite app_nil_r.
  - intros w1 w2 w3 (e1 & Hl1 & He1) (e2 & Hl2 & He2).
    exists (e1 ++ e2). rewrite Hl2, Hl1, app_assoc. split; [done|].
    rewrite commits_app, corrections_app, length_app. lia.
Qed.

Lemma paired_logged w evs :
  commits evs = length (corrections evs) -> paired w (logged w evs).
Proof. intros H. by exists evs. Qed.

Lemma update_inode_nlinks_paired g mp ino nlinks :
  always paired (update_inode_nlinks g mp ino nlinks).
Proof.
  intros w. destruct (update_inode_nlinks_spec g mp ino nlinks w);
    (eexists; split; [reflexivity|]);
    unfold ev_open, ev_release, ev_commit, ev_resetting; simpl; try done.
  by case_match.
Qed.

Lemma update_inode_nlinks_same_dom g mp ino nlinks :
  always (grows same_dom (fun _ => True)) (update_inode_nlinks g mp ino nlinks).
Proof.
  intros w. split.
  - unfold same_dom.
    destruct (update_inode_nlinks_spec g mp ino nlinks w) as [| | |d|d|d ? Hd|d]; try done.
    simpl. apply dom_insert_lookup_L. by rewrite Hd.
  - destruct (update_inode_nlinks_spec g mp ino nlinks w);
      (eexists; split; [reflexivity|]); by apply Forall_forall.
Qed.

(** X2.  Over a pass of [phase7], in either strategy and whether it
    finishes or not, no inode appears on disk or disappears from it, and
    the pass commits as many transactions as it logs inode cores: no
    inode is logged and left uncommitted, nothing is committed without a
    logged inode. *)
Theorem pass_keeps_inodes_and_commits_what_it_logs (g : globals) (mp : xfs_mount)
    (sched : list nat) (w : world) :
  dom (w_disk (final (phase7 g mp sched w))) = dom (w_disk w) /\
  exists evs, w_log (final (phase7 g mp sched w)) = w_log w ++ evs /\
              commits evs = length (corrections evs).
Proof.
  split.
  - apply (always_phase7 (grows same_dom (fun _ => True)) g mp).
    + intros e _. by apply (always_emit same_dom).
    + intros. apply update_inode_nlinks_same_dom.
  - apply (always_phase7 paired g mp).
    + intros e He w'. apply paired_logged.
      destruct (quiet_nothing [e]) as [-> ->]; [by constructor|done].
    + intros. apply update_inode_nlinks_paired.
Qed.

(** An event that logs no inode core with a link count outside 32 bits. *)
Definition in_range (e : event) : Prop :=
  match correction_of e with
  | Some (_, v) => 0 <= v < 2 ^ 32
  | None => True
  end.

Lemma in_range_corrections evs :
  Forall in_range evs -> Forall (fun p => 0 <= p.2 < 2 ^ 32) (corrections evs).
Proof.
  unfold corrections. induction 1 as [|e evs He _ IH]; [constructor|].
  cbn [omap list_omap]. unfold in_range in He.
  destruct (correction_of e) as [[i v]|]; [|done]. by constructor.
Qed.

(** X3.  Every link count a pass of [phase7] logs for writing is the
    32-bit reference count of a slot: it lies in [0, 2^32). *)
Theorem pass_logs_counts_in_range (g : globals) (mp : xfs_mount)
    (sched : list nat) (w : world) :
  exists evs, w_log (final (phase7 g mp sched w)) = w_log w ++ evs /\
              Forall (fun p => 0 <= p.2 < 2 ^ 32) (corrections evs).
Proof.
  destruct (always_phase7 (grows any_disk in_range) g mp) with (sched := sched) (w := w)
    as [_ (evs & Hl & Hr)].
  - intros e [_ Hq] w0. apply (grows_logged any_disk in_range). constructor; [|done]. unfold in_range. by rewrite Hq.
  - intros agno irec j w'. split; [done|].
    assert (0 <= num_inode_references irec j < 2 ^ 32) as Hn.
    { unfold num_inode_references, u32. apply Z.mod_pos_bound. lia. }
    destruct (update_inode_nlinks_spec g mp (slot_ino mp agno irec j)
                (num_inode_references irec j) w');
      (eexists; split; [reflexivity|]);
      unfold ev_open, ev_release, ev_commit, ev_resetting; simpl;
      repeat first [ apply Forall_nil_2 | apply Forall_cons_2 | apply Forall_app_2
                   | case_match ]; unfold in_range; simpl; first [done | exact Hn].
  - exists evs. split; [done|]. by apply in_range_corrections.
Qed.

(** X4.  When the reservation fails, the assertion after it ends
    [update_inode_nlinks] before any inode is looked up, and a whole pass
    in which it fails writes nothing and commits nothing. *)
Theorem reservation_failure_stops (g : globals) (mp : xfs_mount) (sched : list nat)
    (ino nlinks : Z) (w : world) :
  m_reserve_error mp (if no_modify g then 0 else 10) <> 0 ->
  update_inode_nlinks g mp ino nlinks w =
    (Fatal (AssertFailed "error == 0"),
     logged w [EvTransAlloc (XFS_TRANS_REMOVE h);
               EvTransReserve (if no_modify g then 0 else 10) (XFS_REMOVE_LOG_RES mp) 0
                 (XFS_TRANS_PERM_LOG_RES h) (XFS_REMOVE_LOG_COUNT h)]) /\
  w_disk (final (phase7 g mp sched w)) = w_disk w /\
  exists evs, w_log (final (phase7 g mp sched w)) = w_log w ++ evs /\
              commits evs = 0%nat /\ corrections evs = [].
Proof.
  intros Hres. split; [by apply update_inode_nlinks_noreserve|].
  destruct (always_phase7 (grows eq quiet) g mp) with (sched := sched) (w := w)
    as [Hd (evs & Hl & Hq)].
  - intros e He. by apply (always_emit eq quiet).
  - intros agno irec j w'. rewrite update_inode_nlinks_noreserve by done.
    apply (grows_logged eq quiet). events.
  - split; [done|]. exists evs. split; [done|]. by apply quiet_nothing.
Qed.

(** Steps that could write inode [i] are not in [l]. *)
Lemma exec_steps_untouched g mp l i w :
  (forall agno irec j,
     StepSlot agno irec j ∈ l -> slot_mismatch irec j = true ->
     slot_ino mp agno irec j <> orphanage_ino g -> slot_ino mp agno irec j <> i) ->
  w_disk (final (exec_steps g mp l w)) !! i = w_disk w !! i.
Proof.
  revert w. induction l as [|s l IH]; intros w Hl; [done|].
  simpl. rewrite final_bind.
  assert (w_disk (final (exec_step g mp s w)) !! i = w_disk w !! i) as Hs.
  { destruct (decide (step_ino mp s = Some i)) as [Hi|Hi];
      [|by apply exec_step_keeps_other].
    destruct (exec_step_idle g mp s w) as [<- _]; [|done].
    intros agno irec j Hin Hm. apply list_elem_of_singleton in Hin. subst s.
    destruct (decide (slot_ino mp agno irec j = orphanage_ino g)); [by left|].
    exfalso. injection Hi as Hi. by apply (Hl agno irec j (list_elem_of_here _ _) Hm). }
  destruct (exec_step g mp s w) as [[[]|f] ws]; simpl in Hs; [|done].
  rewrite IH; [done|]. intros agno irec j Hin. apply Hl. by apply list_elem_of_further.
Qed.

(** X5.  A pass of [phase7] leaves on disk every inode that is not the
    inode of a live, non-orphanage slot whose recorded link count differs
    from its reference count. *)
Theorem pass_leaves_other_inodes (g : globals) (mp : xfs_mount) (sched : list nat)
    (i : Z) (w : world) :
  (forall agno irec j,
     0 <= agno < glob_agcount g -> irec ∈ findfirst_inode_rec g agno ->
     0 <= j < XFS_INODES_PER_CHUNK h ->
     slot_mismatch irec j = true -> slot_ino mp agno irec j <> orphanage_ino g ->
     slot_ino mp agno irec j <> i) ->
  w_disk (final (phase7 g mp sched w)) !! i = w_disk w !! i.
Proof.
  intros Hi. rewrite phase7_normal_form, final_bind.
  pose proof (exec_steps_untouched g mp (phase7_order g sched) i
                (logged w (phase7_open g mp))) as Hrun.
  destruct (exec_steps g mp (phase7_order g sched) (logged w (phase7_open g mp)))
    as [[[]|f] wb]; simpl in Hrun.
  - transitivity (w_disk wb !! i).
    + unfold phase7_close. by destruct (do_prefetch g).
    + apply Hrun. intros agno irec j Hin.
      destruct (phase7_order_elem g sched agno irec j Hin) as (Ha & Hr & Hj). by apply Hi.
  - apply Hrun. intros agno irec j Hin.
    destruct (phase7_order_elem g sched agno irec j Hin) as (Ha & Hr & Hj). by apply Hi.
Qed.

(** ** When a pass runs to the end *)

Lemma finished_bind_false {A B} (c : M A) (k : A -> M B) w :
  finished (c w) = false -> finished (bind c k w) = false.
Proof.
  unfold finished. rewrite bind_run. by destruct (c w) as [[a|f] w1].
Qed.

Lemma exec_step_same_dom g mp s w :
  dom (w_disk (final (exec_step g mp s w))) = dom (w_disk w).
Proof.
  apply (always_exec_step (grows same_dom (fun _ => True)) g mp).
  - intros e _. by apply (always_emit same_dom).
  - intros. apply update_inode_nlinks_same_dom.
Qed.

(** A step that fails wherever [P] holds, in a list of steps that keep
    [P], stops the list. *)
Lemma exec_steps_stops g mp (P : world -> Prop) l s w :
  s ∈ l -> P w ->
  (forall w0, P w0 -> finished (exec_step g mp s w0) = false) ->
  (forall s0 w0, P w0 -> P (final (exec_step g mp s0 w0))) ->
  finished (exec_steps g mp l w) = false.
Proof.
  intros Hin HP Hfail Hkeep. revert w HP.
  induction l as [|s0 l IH]; intros w HP; [by apply not_elem_of_nil in Hin|].
  simpl. apply elem_of_cons in Hin as [<- | Hin].
  - apply finished_bind_false. by apply Hfail.
  - pose proof (Hkeep s0 w HP) as HP'. unfold finished, final in *. rewrite bind_run.
    destruct (exec_step g mp s0 w) as [[[]|f] ws]; [|done]. simpl in HP'. by apply IH.
Qed.

Lemma phase7_stops g mp (P : world -> Prop) sched agno irec j w :
  0 <= agno < glob_agcount g -> irec ∈ findfirst_inode_rec g agno ->
  0 <= j < XFS_INODES_PER_CHUNK h ->
  P (logged w (phase7_open g mp)) ->
  (forall w0, P w0 -> finished (slot_body g mp agno irec j w0) = false) ->
  (forall s0 w0, P w0 -> P (final (exec_step g mp s0 w0))) ->
  finished (phase7 g mp sched w) = false.
Proof.
  intros Ha Hr Hj HP Hfail Hkeep. rewrite phase7_normal_form.
  apply finished_bind_false.
  apply (exec_steps_stops g mp P _ (StepSlot agno irec j)); try done.
  apply phase7_order_slot, elem_of_seq_units. exists agno, irec, j.
  split_and!; first [done | lia].
Qed.

(** X6.  A slot that fails one of the assertions of the slot body stops
    the pass, in either strategy, wherever the slot is: a slot that is not
    confirmed, even a free one, since the assertion comes before the
    [is_inode_free] test; and in mutation mode a live slot that was not
    reached or not referenced. *)
Theorem failed_assertion_stops_pass (g : globals) (mp : xfs_mount) (sched : list nat)
    (agno : Z) (irec : ino_tree_node) (j : Z) (w : world) :
  0 <= agno < glob_agcount g -> irec ∈ findfirst_inode_rec g agno ->
  0 <= j < XFS_INODES_PER_CHUNK h ->
  is_inode_confirmed irec j = false \/
    (no_modify g = false /\ is_inode_free irec j = false /\
     (is_inode_reached irec j = false \/ is_inode_referenced irec j = false)) ->
  finished (phase7 g mp sched w) = false.
Proof.
  intros Ha Hr Hj Hcase.
  apply (phase7_stops g mp (fun _ => True) sched agno irec j); try done.
  intros w0 _.
  assert (slot_asserts g irec j = false) as Hass.
  { unfold slot_asserts. destruct Hcase as [->|(-> & -> & [->| ->])]; simpl; [done|..].
    - by rewrite andb_false_r.
    - rewrite andb_false_r. by destruct (is_inode_confirmed irec j). }
  destruct (slot_body_assert g mp agno irec j w0 Hass) as (what & evs & -> & _). done.
Qed.

(** X7.  In mutation mode a live slot whose recorded link count differs
    from its reference count and whose inode cannot be mapped stops the
    pass, in either strategy and wherever the slot is. *)
Theorem unmapped_inode_stops_pass (g : globals) (mp : xfs_mount) (sched : list nat)
    (agno : Z) (irec : ino_tree_node) (j : Z) (w : world) :
  no_modify g = false ->
  0 <= agno < glob_agcount g -> irec ∈ findfirst_inode_rec g agno ->
  0 <= j < XFS_INODES_PER_CHUNK h ->
  slot_mismatch irec j = true ->
  w_disk w !! slot_ino mp agno irec j = None ->
  finished (phase7 g mp sched w) = false.
Proof.
  intros Hmode Ha Hr Hj Hm Hno.
  apply (phase7_stops g mp (fun w0 => w_disk w0 !! slot_ino mp agno irec j = None)
           sched agno irec j); try done.
  - intros w0 Hw0. destruct (slot_asserts g irec j) eqn:Hass.
    + rewrite slot_body_mismatch by done.
      destruct (update_inode_nlinks_spec g mp (slot_ino mp agno irec j)
                  (num_inode_references irec j) (logged w0 [EvVisit agno (slot_agino irec j)]));
        simpl in *; first [done | congruence].
    + destruct (slot_body_assert g mp agno irec j w0 Hass) as (what & evs & -> & _). done.
  - intros s0 w0 Hw0. apply not_elem_of_dom. rewrite exec_step_same_dom.
    by apply not_elem_of_dom.
Qed.

(** A step finishes when its assertions hold, the reservation succeeds
    and, in mutation mode, the inode it calls the applier for is on disk
    and a target above the version-1 range meets the nlink feature. *)
Definition step_can_finish (g : globals) (mp : xfs_mount) (w : world) (s : step) : Prop :=
  match s with
  | StepProgress _ => True
  | StepSlot agno irec j =>
      slot_asserts g irec j = true /\
      (slot_mismatch irec j = true ->
       m_reserve_error mp (reserve_blocks g) = 0 /\
       (no_modify g = true \/
        (slot_ino mp agno irec j ∈ dom (w_disk w) /\
         (fs_inode_nlink g = true \/ num_inode_references irec j <= XFS_MAXLINK_1 h))))
  end.

Lemma exec_step_finishes g mp s w :
  step_can_finish g mp w s -> finished (exec_step g mp s w) = true.
Proof.
  destruct s as [agno irec j|agno]; [|done]. simpl. intros [Hass Hcall].
  destruct (slot_mismatch irec j) eqn:Hm.
  - rewrite slot_body_mismatch by done. destruct (Hcall eq_refl) as [Hres Hmode].
    destruct (update_inode_nlinks_spec g mp (slot_ino mp agno irec j)
                (num_inode_references irec j) (logged w [EvVisit agno (slot_agino irec j)]))
      as [| |? Hd Hmut| | | |d ? Hd ? ? Hmut Hbig Hv1]; try done.
    + destruct Hmode as [?|[Hin _]]; [congruence|].
      apply elem_of_dom in Hin as [d Hin]. simpl in Hd. congruence.
    + destruct Hmode as [?|[_ [?|?]]]; [congruence|congruence|lia].
  - destruct (is_inode_free irec j) eqn:Hf.
    + rewrite slot_body_free; [done| |done].
      unfold slot_asserts in Hass. by apply andb_prop in Hass as [? _].
    + by rewrite slot_body_match.
Qed.

Lemma exec_steps_finish g mp l w :
  (forall s, s ∈ l -> step_can_finish g mp w s) ->
  finished (exec_steps g mp l w) = true.
Proof.
  revert w. induction l as [|s l IH]; intros w Hl; [done|].
  simpl. pose proof (exec_step_finishes g mp s w (Hl s (list_elem_of_here _ _))) as Hs.
  pose proof (exec_step_same_dom g mp s w) as Hdom.
  unfold finished, final in *. rewrite bind_run.
  destruct (exec_step g mp s w) as [[[]|f] ws]; [|done]. simpl in Hdom.
  apply IH. intros s' Hs'. pose proof (Hl s' (list_elem_of_further _ _ _ Hs')) as Hc.
  destruct s' as [agno irec j|agno]; [|done]. simpl in *. by rewrite Hdom.
Qed.

Lemma phase7_finishes g mp sched w :
  (forall agno irec j,
     0 <= agno < glob_agcount g -> irec ∈ findfirst_inode_rec g agno ->
     0 <= j < XFS_INODES_PER_CHUNK h ->
     step_can_finish g mp w (StepSlot agno irec j)) ->
  finished (phase7 g mp sched w) = true.
Proof.
  intros Hall. rewrite phase7_normal_form.
  pose proof (exec_steps_finish g mp (phase7_order g sched) (logged w (phase7_open g mp)))
    as Hrun.
  unfold finished in *. rewrite bind_run.
  destruct (exec_steps g mp (phase7_order g sched) (logged w (phase7_open g mp)))
    as [[[]|f] wb]; simpl in Hrun.
  - unfold phase7_close. by destruct (do_prefetch g).
  - discriminate Hrun. intros s Hs. destruct s as [agno irec j|agno]; [|done].
    destruct (phase7_order_elem g sched agno irec j Hs) as (Ha & Hr & Hj).
    by apply Hall.
Qed.

(** X8.  In dry-run mode a pass runs to the end, in either strategy,
    as soon as every slot is confirmed and a reservation of no blocks
    succeeds: whatever the disk holds, inodes that cannot be mapped
    included, and whether or not the live slots were reached or
    referenced. *)
Theorem dry_run_pass_finishes (g : globals) (mp : xfs_mount) (sched : list nat) (w : world) :
  no_modify g = true ->
  m_reserve_error mp 0 = 0 ->
  (forall agno irec j,
     0 <= agno < glob_agcount g -> irec ∈ findfirst_inode_rec g agno ->
     0 <= j < XFS_INODES_PER_CHUNK h -> is_inode_confirmed irec j = true) ->
  finished (phase7 g mp sched w) = true.
Proof.
  intros Hdry Hres Hconf. apply phase7_finishes. intros agno irec j Ha Hr Hj. split.
  - unfold slot_asserts. rewrite (Hconf agno irec j), Hdry by done. simpl.
    apply orb_true_r.
  - intros _. unfold reserve_blocks. rewrite Hdry. split; [done|by left].
Qed.

(** X9.  In mutation mode a pass runs to the end, in either strategy,
    when every slot is confirmed, every live slot was reached and
    referenced, a reservation of 10 blocks succeeds, the inode of every
    live slot whose recorded count differs is on disk, and the filesystem
    has the nlink feature or no reference count exceeds
    [XFS_MAXLINK_1]. *)
Theorem mutation_pass_finishes (g : globals) (mp : xfs_mount) (sched : list nat) (w : world) :
  no_modify g = false ->
  m_reserve_error mp 10 = 0 ->
  (forall agno irec j,
     0 <= agno < glob_agcount g -> irec ∈ findfirst_inode_rec g agno ->
     0 <= j < XFS_INODES_PER_CHUNK h ->
     is_inode_confirmed irec j = true /\
     (is_inode_free irec j = false ->
      is_inode_reached irec j = true /\ is_inode_referenced irec j = true) /\
     (slot_mismatch irec j = true ->
      is_Some (w_disk w !! slot_ino mp agno irec j) /\
      (fs_inode_nlink g = true \/ num_inode_references irec j <= XFS_MAXLINK_1 h))) ->
  finished (phase7 g mp sched w) = true.
Proof.
  intros Hmut Hres Hall. apply phase7_finishes. intros agno irec j Ha Hr Hj.
  destruct (Hall agno irec j Ha Hr Hj) as (Hconf & Hlive & Hcall). split.
  - unfold slot_asserts. rewrite Hconf, Hmut. simpl.
    destruct (is_inode_free irec j); [done|]. simpl.
    by destruct (Hlive eq_refl) as [-> ->].
  - intros Hm. unfold reserve_blocks. rewrite Hmut. split; [done|right].
    destruct (Hcall Hm) as [Hsome Hfit]. split; [by apply elem_of_dom|done].
Qed.

(** ** One call of the applier after another *)

(** X10.  In mutation mode, once [update_inode_nlinks] has returned, a
    second call with the same inode and target finds the link count in
    place: it puts the inode back, cancels its transaction and leaves the
    disk as the first call left it. *)
Theorem update_inode_nlinks_twice (g : globals) (mp : xfs_mount) (ino nlinks : Z)
    (w w1 : world) :
  no_modify g = false ->
  update_inode_nlinks g mp ino nlinks w = (Done tt, w1) ->
  update_inode_nlinks g mp ino nlinks w1 =
    (Done tt, logged w1 (ev_open g mp ++
       [EvTransIget ino 0; EvTransIput ino; EvTransCancel (XFS_TRANS_RELEASE_LOG_RES h)])).
Proof.
  intros Hmut Hrun.
  destruct (update_inode_nlinks_spec g mp ino nlinks w)
    as [| | |d Hres Hd Hcase| |d Hres Hd| ]; try congruence; injection Hrun as <-.
  - by apply (update_inode_nlinks_noop g mp ino nlinks _ d).
  - apply (update_inode_nlinks_noop g mp ino nlinks _ {| di_nlink := nlinks |});
      [done| |by right]. simpl. by rewrite lookup_insert_eq.
Qed.

(** X11.  The version-1 range ends at [XFS_MAXLINK_1] itself: a
    correction in mutation mode to a target of at most [XFS_MAXLINK_1]
    does not look at [fs_inode_nlink]; [set_nlinks] emits the one
    warning, overwrites [di_nlink] and sets the dirty flag. *)
Theorem v1_range_correction (g : globals) (d : xfs_dinode_core) (ino nlinks dirty : Z)
    (w : world) :
  no_modify g = false -> di_nlink d <> nlinks -> nlinks <= XFS_MAXLINK_1 h ->
  set_nlinks g d ino nlinks dirty w =
    (Done ({| di_nlink := nlinks |}, 1),
     logged w [EvWarn "resetting inode %llu nlinks from %d to %d\n" [ino; di_nlink d; nlinks]]).
Proof.
  intros Hmut Hdiff Hsmall. unfold set_nlinks.
  rewrite (proj2 (Z.eqb_neq _ _) Hdiff), Hmut. run.
  rewrite (proj2 (Z.ltb_ge _ _) Hsmall). run. reflexivity.
Qed.

Definition is_cancel (e : event) : bool :=
  match e with EvTransCancel _ => true | _ => false end.
Definition cancels (log : list event) : nat := length (filter (fun e => is_cancel e = true) log).

(** X12.  An invocation of [update_inode_nlinks] that returns and has
    loaded its inode ends its transaction exactly once, by cancel or by
    commit.  One that returns without the inode (dry-run mode, inode not
    mapped) ends it not at all: the transaction it allocated and reserved
    is neither cancelled nor committed. *)
Theorem transaction_end (g : globals) (mp : xfs_mount) (ino nlinks : Z) (w w' : world) :
  update_inode_nlinks g mp ino nlinks w = (Done tt, w') ->
  exists evs, w_log w' = w_log w ++ evs /\
    ((is_Some (w_disk w !! ino) /\ (cancels evs + commits evs = 1)%nat) \/
     (w_disk w !! ino = None /\ no_modify g = true /\
      cancels evs = 0%nat /\ commits evs = 0%nat)).
Proof.
  intros Hrun.
  destruct (update_inode_nlinks_spec g mp ino nlinks w)
    as [|? Hd|? Hd|d ? Hd|d ? Hd|d ? Hd|d ? Hd]; try congruence; injection Hrun as <-;
    (eexists; split; [reflexivity|]);
    first [ by right | left; split; [by rewrite Hd|] ];
    unfold ev_open, ev_release, ev_commit, ev_resetting, cancels, commits; simpl; try done.
  by case_match.
Qed.

(** ** The events of a pass over records that agree with the disk *)

Section Exact.

Variables (g : globals) (mp : xfs_mount).

(** What [update_inode_nlinks] logs when it loads an inode whose link
    count [old] differs from the target. *)
Definition call_events (ino old nrefs : Z) : list event :=
  ev_open g mp ++
  EvTransIget ino 0 ::
  (if ino =? orphanage_ino g then ev_release ino
   else if no_modify g then
     EvWarn "would have reset inode %llu nlinks from %d to %d\n" [ino; old; nrefs]
       :: ev_release ino
   else ev_resetting ino old nrefs ++ ev_commit ino nrefs).

(** What a step logs. *)
Definition step_events (s : step) : list event :=
  match s with
  | StepProgress agno => [EvProgress agno (XFS_INODES_PER_CHUNK h)]
  | StepSlot agno irec j =>
      if is_inode_free irec j then []
      else EvVisit agno (slot_agino irec j) ::
           (if slot_mismatch irec j
            then call_events (slot_ino mp agno irec j) (get_inode_disk_nlinks irec j)
                   (num_inode_references irec j)
            else [])
  end.

(** The record of a live slot has the link count its inode has on disk. *)
Definition step_agrees (w : world) (s : step) : Prop :=
  match s with
  | StepProgress _ => True
  | StepSlot agno irec j =>
      is_inode_free irec j = false ->
      nlink_on_disk w (slot_ino mp agno irec j) = Some (get_inode_disk_nlinks irec j)
  end.

Lemma slot_mismatch_diff irec j :
  slot_mismatch irec j = true ->
  is_inode_free irec j = false /\ get_inode_disk_nlinks irec j <> num_inode_references irec j.
Proof.
  unfold slot_mismatch. intros H. apply andb_prop in H as [Hf Hm].
  split; [by apply negb_true_iff|]. by apply Z.eqb_neq, negb_true_iff.
Qed.

Lemma exec_step_exact s w w' :
  step_agrees w s -> exec_step g mp s w = (Done tt, w') ->
  w_log w' = w_log w ++ step_events s.
Proof.
  destruct s as [agno irec j|agno]; simpl; [|by intros _ [= <-]].
  intros Hagree Hrun. destruct (slot_asserts g irec j) eqn:Hass.
  2:{ destruct (slot_body_assert g mp agno irec j w Hass) as (? & ? & ? & _). congruence. }
  destruct (slot_mismatch irec j) eqn:Hm.
  - destruct (slot_mismatch_diff irec j Hm) as [Hf Hdiff]. rewrite Hf.
    specialize (Hagree Hf). unfold nlink_on_disk in Hagree.
    apply fmap_Some in Hagree as (d & Hd & Hrec).
    rewrite slot_body_mismatch in Hrun by done.
    destruct (update_inode_nlinks_spec g mp (slot_ino mp agno irec j)
                (num_inode_references irec j) (logged w [EvVisit agno (slot_agino irec j)]))
      as [?|? Hd' ?|? Hd' ?|d' ? Hd' Hcase|d' ? Hd' Hne ? Hdry|d' ? Hd' Hne ? Hmut ?
          |d' ? Hd' ? ? ? ? ?];
      try congruence; simpl in Hd'; try congruence; injection Hrun as <-;
      assert (d' = d) as -> by congruence;
      unfold call_events; simpl; rewrite <- app_assoc; simpl; do 2 f_equal.
    + destruct Hcase as [->|?]; [|congruence]. by rewrite Z.eqb_refl.
    + rewrite (proj2 (Z.eqb_neq _ _) Hne), Hdry. unfold ev_open. simpl. by rewrite Hrec.
    + rewrite (proj2 (Z.eqb_neq _ _) Hne), Hmut. unfold ev_open. simpl. by rewrite Hrec.
  - destruct (is_inode_free irec j) eqn:Hf.
    + rewrite slot_body_free in Hrun; [by injection Hrun as <-; rewrite app_nil_r| |done].
      unfold slot_asserts in Hass. by apply andb_prop in Hass as [? _].
    + rewrite slot_body_match in Hrun by done. by injection Hrun as <-.
Qed.

Lemma exec_steps_exact l w w' :
  no_modify g = true \/ NoDup (omap (step_ino mp) l) ->
  (forall s, s ∈ l -> step_agrees w s) ->
  exec_steps g mp l w = (Done tt, w') ->
  w_log w' = w_log w ++ flat_map step_events l.
Proof.
  revert w. induction l as [|s l IH]; intros w Hmode Hagree Hrun.
  { injection Hrun as <-. simpl. by rewrite app_nil_r. }
  simpl in Hrun. apply bind_finished in Hrun as ([] & ws & Hs & Hrest).
  rewrite (IH ws), (exec_step_exact s w ws); try done.
  - simpl. by rewrite app_assoc.
  - by apply Hagree, list_elem_of_here.
  - destruct Hmode as [?|Hnd]; [by left|right].
    cbn [omap list_omap] in Hnd. destruct (step_ino mp s); [|done].
    by apply NoDup_cons in Hnd as [_ ?].
  - intros s' Hs'. pose proof (Hagree s' (list_elem_of_further _ _ _ Hs')) as Hag.
    destruct s' as [agno irec j|agno]; [|done]. simpl in *. intros Hf.
    rewrite <- (Hag Hf). unfold nlink_on_disk. f_equal.
    replace ws with (final (exec_step g mp s w)) by (by rewrite Hs).
    destruct Hmode as [Hdry|Hnd].
    + by destruct (exec_step_dry g mp Hdry s w) as [-> _].
    + apply exec_step_keeps_other. intros Heq.
      cbn [omap list_omap] in Hnd. rewrite Heq in Hnd.
      apply NoDup_cons in Hnd as [Hnotin _]. apply Hnotin.
      apply list_elem_of_omap. by exists (StepSlot agno irec j).
Qed.

End Exact.

(** The log of a pass that runs to the end over records that agree with
    the disk. *)
Lemma finished_pass_log (g : globals) (mp : xfs_mount) (sched : list nat) (w w' : world) :
  consistent g mp w ->
  no_modify g = true \/ (wf_incore g mp /\ NoDup (reported_slots g)) ->
  phase7 g mp sched w = (Done tt, w') ->
  w_log w' = w_log w ++ phase7_open g mp ++
             flat_map (step_events g mp) (phase7_order g sched) ++
             (if do_prefetch g then [EvFinalReport] else []).
Proof.
  intros Hcons Hmode Hrun. rewrite phase7_normal_form in Hrun.
  apply bind_finished in Hrun as ([] & wb & Hsteps & Hclose).
  assert (w_log w' = w_log wb ++ (if do_prefetch g then [EvFinalReport] else [])) as ->.
  { unfold phase7_close in Hclose. destruct (do_prefetch g); injection Hclose as <-; [done|].
    by rewrite app_nil_r. }
  rewrite (exec_steps_exact g mp (phase7_order g sched) (logged w (phase7_open g mp)) wb);
    [simpl; by rewrite <- !app_assoc| | |done].
  - destruct Hmode as [?|[Hwf Hnd]]; [by left|right]. by apply NoDup_phase7_order.
  - intros [agno irec j|agno] Hs; [|done]. simpl. intros Hf.
    destruct (phase7_order_elem g sched agno irec j Hs) as (Ha & Hr & Hj).
    by apply Hcons.
Qed.

(** X13.  Over records that agree with the disk (and, in mutation
    mode, well-formed and without a slot reported twice), the log of a
    pass that runs to the end is determined by the records alone: the
    opening messages, then for each step, in the order the strategy takes
    them, a visit and, where the recorded count differs, one transaction
    that is cancelled for the orphanage, cancelled after a "would have
    reset" warning in dry-run mode, and committed after a "resetting"
    warning in mutation mode; then the final report of the concurrent
    strategy. *)
Theorem phase7_exact_log (g : globals) (mp : xfs_mount) (sched : list nat) (w w' : world) :
  consistent g mp w ->
  no_modify g = true \/ (wf_incore g mp /\ NoDup (reported_slots g)) ->
  phase7 g mp sched w = (Done tt, w') ->
  w_log w' = w_log w ++ phase7_open g mp ++
             flat_map (step_events g mp) (phase7_order g sched) ++
             (if do_prefetch g then [EvFinalReport] else []).
Proof. apply finished_pass_log. Qed.

(** ** What is corrected and what is reported *)

(** The live, non-orphanage slot of a step whose recorded link count
    differs from its reference count: inode number, recorded count,
    reference count. *)
Definition step_mismatch (g : globals) (mp : xfs_mount) (s : step) : option (Z * Z * Z) :=
  match s with
  | StepSlot agno irec j =>
      if slot_mismatch irec j && negb (slot_ino mp agno irec j =? orphanage_ino g)
      then Some (slot_ino mp agno irec j, get_inode_disk_nlinks irec j,
                 num_inode_references irec j)
      else None
  | StepProgress _ => None
  end.

Definition step_correction (g : globals) (mp : xfs_mount) (s : step) : option (Z * Z) :=
  (fun m => (m.1.1, m.2)) <$> step_mismatch g mp s.

Definition step_would (g : globals) (mp : xfs_mount) (s : step) : option (string * list Z) :=
  (fun m => ("would have reset inode %llu nlinks from %d to %d\n"%string, [m.1.1; m.1.2; m.2]))
    <$> step_mismatch g mp s.

(** The corrections due, and the reports due in dry-run mode, in the
    order of the sequential walk. *)
Definition expected_corrections (g : globals) (mp : xfs_mount) : list (Z * Z) :=
  omap (step_correction g mp) (seq_units g).
Definition expected_reports (g : globals) (mp : xfs_mount) : list (string * list Z) :=
  omap (step_would g mp) (seq_units g).

Lemma warnings_app l1 l2 : warnings (l1 ++ l2) = warnings l1 ++ warnings l2.
Proof. apply omap_app. Qed.

Lemma corrections_step_events g mp s :
  corrections (step_events g mp s) =
  if no_modify g then [] else option_list (step_correction g mp s).
Proof.
  destruct s as [agno irec j|agno]; [|by destruct (no_modify g)].
  unfold step_events, step_correction, step_mismatch, call_events, ev_open, ev_release,
    ev_resetting, ev_commit, slot_mismatch.
  destruct (is_inode_free irec j); simpl; [by destruct (no_modify g)|].
  destruct (negb (get_inode_disk_nlinks irec j =? num_inode_references irec j)); simpl;
    [|by destruct (no_modify g)].
  destruct (slot_ino mp agno irec j =? orphanage_ino g); simpl; [by destruct (no_modify g)|].
  destruct (no_modify g); simpl; [done|]. by case_match.
Qed.

Lemma warnings_step_events g mp s :
  no_modify g = true ->
  warnings (step_events g mp s) = option_list (step_would g mp s).
Proof.
  intros Hdry. destruct s as [agno irec j|agno]; [|done].
  unfold step_events, step_would, step_mismatch, call_events, ev_open, ev_release,
    slot_mismatch. rewrite Hdry.
  destruct (is_inode_free irec j); simpl; [done|].
  destruct (negb (get_inode_disk_nlinks irec j =? num_inode_references irec j)); simpl;
    [|done].
  by destruct (slot_ino mp agno irec j =? orphanage_ino g).
Qed.

Lemma omap_option_list {A B} (f : A -> option B) (l : list A) :
  flat_map (fun x => option_list (f x)) l = omap f l.
Proof.
  induction l as [|x l IH]; [done|]. cbn [flat_map omap list_omap]. rewrite IH.
  by destruct (f x).
Qed.

Lemma corrections_flat_map g mp l :
  no_modify g = false ->
  corrections (flat_map (step_events g mp) l) = omap (step_correction g mp) l.
Proof.
  intros Hmut. rewrite <- omap_option_list.
  induction l as [|s l IH]; [done|]. cbn [flat_map].
  by rewrite corrections_app, IH, corrections_step_events, Hmut.
Qed.

Lemma warnings_flat_map g mp l :
  no_modify g = true ->
  warnings (flat_map (step_events g mp) l) = omap (step_would g mp) l.
Proof.
  intros Hdry. rewrite <- omap_option_list.
  induction l as [|s l IH]; [done|]. cbn [flat_map].
  by rewrite warnings_app, IH, warnings_step_events.
Qed.

Lemma phase7_order_omap {B} (f : step -> option B) g sched :
  (forall s, is_slot s = false -> f s = None) ->
  omap f (phase7_order g sched) ≡ₚ omap f (seq_units g) /\
  (do_prefetch g = false -> omap f (phase7_order g sched) = omap f (seq_units g)).
Proof.
  intros Hf. split.
  - by rewrite <- (omap_slots f (phase7_order g sched)), phase7_order_slots.
  - intros Hseq. unfold phase7_order. by rewrite Hseq.
Qed.

Lemma phase7_open_nothing g mp :
  corrections (phase7_open g mp) = [] /\ warnings (phase7_open g mp) = [].
Proof.
  unfold phase7_open, phase7_banner. by destruct (do_prefetch g), (negb (no_modify g)).
Qed.

Lemma step_correction_ino g mp (l : list step) :
  (omap (step_correction g mp) l).*1 `sublist_of` omap (step_ino mp) l.
Proof.
  induction l as [|s l IH]; [done|]. cbn [omap list_omap].
  destruct s as [agno irec j|agno]; [|done].
  unfold step_correction, step_mismatch, step_ino.
  destruct (slot_mismatch irec j && negb (slot_ino mp agno irec j =? orphanage_ino g));
    simpl; [by apply sublist_skip | by apply sublist_cons].
Qed.

Lemma expected_corrections_spec g mp i n :
  (i, n) ∈ expected_corrections g mp <->
  exists agno irec j,
    0 <= agno < glob_agcount g /\ irec ∈ findfirst_inode_rec g agno /\
    0 <= j < XFS_INODES_PER_CHUNK h /\
    is_inode_free irec j = false /\
    get_inode_disk_nlinks irec j <> num_inode_references irec j /\
    slot_ino mp agno irec j <> orphanage_ino g /\
    i = slot_ino mp agno irec j /\ n = num_inode_references irec j.
Proof.
  unfold expected_corrections. rewrite list_elem_of_omap. split.
  - intros (s & Hs & Hc).
    apply elem_of_seq_units in Hs as (agno & irec & j & -> & Ha & Hr & Hj).
    unfold step_correction, step_mismatch in Hc.
    destruct (slot_mismatch irec j) eqn:Hm; [|done].
    destruct (Z.eqb_spec (slot_ino mp agno irec j) (orphanage_ino g)); [done|].
    simpl in Hc. injection Hc as <- <-.
    destruct (slot_mismatch_diff irec j Hm) as [Hf Hdiff].
    exists agno, irec, j. split_and!; first [done | lia].
  - intros (agno & irec & j & Ha & Hr & Hj & Hf & Hdiff & Hne & -> & ->).
    exists (StepSlot agno irec j). split.
    + apply elem_of_seq_units. exists agno, irec, j. split_and!; first [done | lia].
    + unfold step_correction, step_mismatch, slot_mismatch. rewrite Hf.
      rewrite (proj2 (Z.eqb_neq _ _) Hdiff), (proj2 (Z.eqb_neq _ _) Hne). done.
Qed.

(** X14.  In mutation mode, over well-formed records that agree with
    the disk and report no slot twice, a pass that runs to the end logs
    for writing exactly the live, non-orphanage slots whose recorded link
    count differs from their reference count, each once, with its
    reference count, and no inode twice; in the sequential strategy in
    the order of the walk. *)
Theorem mutation_corrects_each_mismatch_once (g : globals) (mp : xfs_mount)
    (sched : list nat) (w w' : world) :
  no_modify g = false -> wf_incore g mp -> NoDup (reported_slots g) ->
  consistent g mp w ->
  phase7 g mp sched w = (Done tt, w') ->
  exists cs,
    corrections (w_log w') = corrections (w_log w) ++ cs /\
    cs ≡ₚ expected_corrections g mp /\
    (do_prefetch g = false -> cs = expected_corrections g mp) /\
    NoDup cs.*1 /\
    (forall i n, (i, n) ∈ cs <->
       exists agno irec j,
         0 <= agno < glob_agcount g /\ irec ∈ findfirst_inode_rec g agno /\
         0 <= j < XFS_INODES_PER_CHUNK h /\
         is_inode_free irec j = false /\
         get_inode_disk_nlinks irec j <> num_inode_references irec j /\
         slot_ino mp agno irec j <> orphanage_ino g /\
         i = slot_ino mp agno irec j /\ n = num_inode_references irec j).
Proof.
  intros Hmut Hwf Hnd Hcons Hrun.
  pose proof (finished_pass_log g mp sched w w' Hcons (or_intror (conj Hwf Hnd)) Hrun) as Hlog.
  destruct (phase7_open_nothing g mp) as [Hopen _].
  destruct (phase7_order_omap (step_correction g mp) g sched) as [Hperm Hseq]; [by intros []|].
  exists (omap (step_correction g mp) (phase7_order g sched)). split_and!.
  - rewrite Hlog, !corrections_app, Hopen, corrections_flat_map by done. simpl.
    f_equal. rewrite <- (app_nil_r (omap _ _)) at 2. f_equal. by destruct (do_prefetch g).
  - done.
  - done.
  - eapply sublist_NoDup; [|apply step_correction_ino]. by apply NoDup_phase7_order.
  - intros i n. unfold expected_corrections in Hperm. rewrite Hperm.
    apply expected_corrections_spec.
Qed.

(** X15.  In dry-run mode, over records that agree with the disk, a
    pass that runs to the end warns "would have reset" exactly for the
    live, non-orphanage slots whose recorded link count differs from
    their reference count, each once, with the inode number, the count on
    disk and the reference count, and emits no other warning; in the
    sequential strategy in the order of the walk. *)
Theorem dry_run_reports_each_mismatch_once (g : globals) (mp : xfs_mount)
    (sched : list nat) (w w' : world) :
  no_modify g = true -> consistent g mp w ->
  phase7 g mp sched w = (Done tt, w') ->
  exists ws,
    warnings (w_log w') = warnings (w_log w) ++ ws /\
    ws ≡ₚ expected_reports g mp /\
    (do_prefetch g = false -> ws = expected_reports g mp).
Proof.
  intros Hdry Hcons Hrun.
  pose proof (finished_pass_log g mp sched w w' Hcons (or_introl Hdry) Hrun) as Hlog.
  destruct (phase7_open_nothing g mp) as [_ Hopen].
  destruct (phase7_order_omap (step_would g mp) g sched) as [Hperm Hseq]; [by intros []|].
  exists (omap (step_would g mp) (phase7_order g sched)). split_and!; [|done..].
  rewrite Hlog, !warnings_app, Hopen, warnings_flat_map by done. simpl.
  f_equal. rewrite <- (app_nil_r (omap _ _)) at 2. f_equal. by destruct (do_prefetch g).
Qed.


(** ** What a finished pass opens and reports, whatever the disk holds *)

Definition alloc_of (e : event) : option Z :=
  match e with EvTransAlloc type => Some type | _ => None end.
Definition opened (log : list event) : list Z := omap alloc_of log.

Definition progress_of (e : event) : option (Z * Z) :=
  match e with EvProgress agno n => Some (agno, n) | _ => None end.
Definition progress (log : list event) : list (Z * Z) := omap progress_of log.

(** The walker calls the applier at this step. *)
Definition step_calls (s : step) : bool :=
  match s with
  | StepSlot _ irec j => slot_mismatch irec j
  | StepProgress _ => false
  end.

Definition step_opens (s : step) : option Z :=
  if step_calls s then Some (XFS_TRANS_REMOVE h) else None.

Definition step_progress (s : step) : option (Z * Z) :=
  match s with
  | StepSlot _ _ _ => None
  | StepProgress agno => Some (agno, XFS_INODES_PER_CHUNK h)
  end.

(** The progress reports due: one per chunk record, for its group. *)
Definition expected_progress (g : globals) : list (Z * Z) :=
  flat_map (fun agno => (fun _ => (agno, XFS_INODES_PER_CHUNK h)) <$> findfirst_inode_rec g agno)
    (seqZ 0 (glob_agcount g)).

Section Observe.

Context {B : Type} (obs : event -> option B) (out : step -> option B).
Variables (g : globals) (mp : xfs_mount).
Hypothesis step_obs : forall s w w',
  exec_step g mp s w = (Done tt, w') ->
  exists evs, w_log w' = w_log w ++ evs /\ omap obs evs = option_list (out s).
Hypothesis frame_obs :
  omap obs (phase7_open g mp) = [] /\ obs EvFinalReport = None.

Lemma exec_steps_observe l w w' :
  exec_steps g mp l w = (Done tt, w') ->
  exists evs, w_log w' = w_log w ++ evs /\ omap obs evs = omap out l.
Proof.
  revert w. induction l as [|s l IH]; intros w Hrun.
  - injection Hrun as <-. exists []. by rewrite app_nil_r.
  - simpl in Hrun. apply bind_finished in Hrun as ([] & ws & Hs & Hrest).
    destruct (step_obs _ _ _ Hs) as (e1 & Hl1 & Ho1).
    destruct (IH _ Hrest) as (e2 & Hl2 & Ho2).
    exists (e1 ++ e2). rewrite Hl2, Hl1, app_assoc. split; [done|].
    rewrite omap_app, Ho1, Ho2. cbn [omap list_omap]. by destruct (out s).
Qed.

Lemma phase7_observe sched w w' :
  phase7 g mp sched w = (Done tt, w') ->
  exists evs, w_log w' = w_log w ++ evs /\ omap obs evs = omap out (phase7_order g sched).
Proof.
  intros Hrun. rewrite phase7_normal_form in Hrun.
  apply bind_finished in Hrun as ([] & wb & Hsteps & Hclose).
  destruct (exec_steps_observe _ _ _ Hsteps) as (evs & Hl & Ho).
  destruct frame_obs as [Hopen Hfinal].
  exists (phase7_open g mp ++ evs ++ (if do_prefetch g then [EvFinalReport] else [])).
  split.
  - unfold phase7_close in Hclose. destruct (do_prefetch g); injection Hclose as <-;
      simpl in *; rewrite Hl; by rewrite <- ?app_assoc, ?app_nil_r.
  - rewrite !omap_app, Hopen, Ho. simpl.
    rewrite <- (app_nil_r (omap out _)) at 2. f_equal.
    destruct (do_prefetch g); [|done]. cbn [omap list_omap]. by rewrite Hfinal.
Qed.

End Observe.

(** The events of a step that finishes: nothing for a free slot, a visit
    for a live one and, where the recorded count differs, the opening of
    one transaction and events that neither open another nor report
    progress. *)
Lemma exec_step_finished_events g mp s w w' :
  exec_step g mp s w = (Done tt, w') ->
  exists evs, w_log w' = w_log w ++ evs /\
    opened evs = option_list (step_opens s) /\
    progress evs = option_list (step_progress s).
Proof.
  destruct s as [agno irec j|agno]; simpl; [|intros [= <-]; by eexists].
  intros Hrun. unfold step_opens. simpl.
  destruct (slot_asserts g irec j) eqn:Hass.
  2:{ destruct (slot_body_assert g mp agno irec j w Hass) as (? & ? & ? & _). congruence. }
  destruct (slot_mismatch irec j) eqn:Hm.
  - rewrite slot_body_mismatch in Hrun by done.
    destruct (update_inode_nlinks_spec g mp (slot_ino mp agno irec j)
                (num_inode_references irec j) (logged w [EvVisit agno (slot_agino irec j)]));
      try congruence; injection Hrun as <-;
      (eexists; split; [simpl; rewrite <- app_assoc; reflexivity|]);
      unfold ev_open, ev_release, ev_commit, ev_resetting; simpl; try done.
    by case_match.
  - destruct (is_inode_free irec j) eqn:Hf.
    + rewrite slot_body_free in Hrun; [injection Hrun as <-; exists []; by rewrite app_nil_r| |done].
      unfold slot_asserts in Hass. by apply andb_prop in Hass as [? _].
    + rewrite slot_body_match in Hrun by done. injection Hrun as <-. by eexists.
Qed.

Lemma omap_none {A B} (f : A -> option B) (l : list A) :
  (forall x, x ∈ l -> f x = None) -> omap f l = [].
Proof.
  induction l as [|x l IH]; intros Hl; [done|]. cbn [omap list_omap].
  rewrite (Hl x) by apply list_elem_of_here. apply IH. intros y Hy. apply Hl.
  by apply list_elem_of_further.
Qed.

Lemma step_opens_count (l : list step) :
  omap step_opens l =
  replicate (length (filter (fun s => step_calls s = true) l)) (XFS_TRANS_REMOVE h).
Proof.
  induction l as [|s l IH]; [done|]. cbn [omap list_omap]. unfold step_opens at 1.
  destruct (step_calls s) eqn:Hs.
  - rewrite filter_cons_True by done. simpl. by rewrite IH.
  - rewrite filter_cons_False by (by rewrite Hs). done.
Qed.

(** X16.  A pass that runs to the end opens exactly one transaction,
    of type [XFS_TRANS_REMOVE], for every live slot whose recorded link
    count differs from its reference count, in either mode, whatever the
    disk holds and the orphanage slot included; it opens none for any
    other slot. *)
Theorem pass_opens_one_transaction_per_mismatch (g : globals) (mp : xfs_mount)
    (sched : list nat) (w w' : world) :
  phase7 g mp sched w = (Done tt, w') ->
  exists evs, w_log w' = w_log w ++ evs /\
    opened evs =
      replicate (length (filter (fun s => step_calls s = true) (seq_units g)))
        (XFS_TRANS_REMOVE h).
Proof.
  intros Hrun.
  destruct (phase7_observe alloc_of step_opens g mp) with (sched := sched) (w := w) (w' := w')
    as (evs & Hl & Ho); [| |done|].
  - intros s w0 w1 Hs.
    destruct (exec_step_finished_events g mp s w0 w1 Hs) as (evs & ? & ? & _). by exists evs.
  - split; [|done]. unfold phase7_open, phase7_banner.
    by destruct (do_prefetch g), (negb (no_modify g)).
  - exists evs. split; [done|]. unfold opened. rewrite Ho.
    rewrite <- (omap_slots step_opens (phase7_order g sched)) by (by intros []).
    rewrite !step_opens_count. f_equal. by rewrite phase7_order_slots.
Qed.

Lemma work_units_progress g agno :
  omap step_progress (work_units g agno) =
  (fun _ => (agno, XFS_INODES_PER_CHUNK h)) <$> findfirst_inode_rec g agno.
Proof.
  unfold work_units. induction (findfirst_inode_rec g agno) as [|irec irecs IH]; [done|].
  cbn [flat_map]. rewrite omap_app, IH. unfold chunk_units. rewrite omap_app.
  rewrite omap_none; [done|]. intros s Hs. apply list_elem_of_fmap in Hs as (j & -> & _). done.
Qed.

Lemma queue_progress g :
  omap step_progress (concat (queue g)) = expected_progress g.
Proof.
  unfold queue, expected_progress. induction (seqZ 0 (glob_agcount g)) as [|i ags IH]; [done|].
  cbn [map concat flat_map]. by rewrite omap_app, IH, work_units_progress.
Qed.

(** X17.  A pass of the concurrent strategy that runs to the end
    reports progress once per chunk record, for the record's group and by
    [XFS_INODES_PER_CHUNK] inodes whatever the number of live slots in the
    chunk; a pass of the sequential strategy reports no progress. *)
Theorem progress_once_per_chunk (g : globals) (mp : xfs_mount)
    (sched : list nat) (w w' : world) :
  phase7 g mp sched w = (Done tt, w') ->
  exists evs, w_log w' = w_log w ++ evs /\
    progress evs ≡ₚ (if do_prefetch g then expected_progress g else []).
Proof.
  intros Hrun.
  destruct (phase7_observe progress_of step_progress g mp) with (sched := sched) (w := w) (w' := w')
    as (evs & Hl & Ho); [| |done|].
  - intros s w0 w1 Hs.
    destruct (exec_step_finished_events g mp s w0 w1 Hs) as (evs & ? & _ & ?). by exists evs.
  - split; [|done]. unfold phase7_open, phase7_banner.
    by destruct (do_prefetch g), (negb (no_modify g)).
  - exists evs. split; [done|]. unfold progress. rewrite Ho. unfold phase7_order.
    destruct (do_prefetch g).
    + by rewrite schedule_order_perm, queue_progress.
    + rewrite omap_none; [done|]. intros s Hs.
      by apply elem_of_seq_units in Hs as (agno & irec & j & -> & _).
Qed.

Lemma flat_map_nil {A B} (f : A -> list B) (l : list A) :
  (forall x, x ∈ l -> f x = []) -> flat_map f l = [].
Proof.
  induction l as [|x l IH]; intros Hl; [done|]. cbn [flat_map].
  rewrite (Hl x) by apply list_elem_of_here. apply IH. intros y Hy. apply Hl.
  by apply list_elem_of_further.
Qed.

Lemma pick_empty k (tasks : list (list step)) :
  Forall (fun t => t = []) tasks -> pick k tasks = None.
Proof.
  intros Hall. revert k. induction Hall as [|t ts -> _ IH]; intros k; [by destruct k|].
  destruct k as [|k]; [done|]. simpl. by rewrite IH.
Qed.

Lemma schedule_order_empty sched (tasks : list (list step)) :
  Forall (fun t => t = []) tasks -> schedule_order sched tasks = [].
Proof.
  intros Hall. induction sched as [|k sched IH]; simpl.
  - induction Hall as [|t ts -> _ IH]; [done|]. done.
  - by rewrite pick_empty.
Qed.

(** X18.  With no chunk record in any group, a group count of zero
    included, a pass ends at once: the banner of its mode, and in the
    concurrent strategy the progress message and the final report;
    no inode is looked up and the disk is left alone. *)
Theorem pass_without_records (g : globals) (mp : xfs_mount) (sched : list nat) (w : world) :
  (forall agno, 0 <= agno < glob_agcount g -> findfirst_inode_rec g agno = []) ->
  phase7 g mp sched w =
    (Done tt, logged w (phase7_open g mp ++ (if do_prefetch g then [EvFinalReport] else []))).
Proof.
  intros Hempty. rewrite phase7_normal_form.
  assert (phase7_order g sched = []) as ->.
  { unfold phase7_order. destruct (do_prefetch g).
    - apply schedule_order_empty. unfold queue. apply Forall_fmap, Forall_forall.
      intros agno Ha. apply elem_of_seqZ in Ha. simpl. unfold work_units.
      rewrite Hempty by lia. done.
    - unfold seq_units. apply flat_map_nil. intros agno Ha. apply elem_of_seqZ in Ha.
      rewrite Hempty by lia. done. }
  simpl. rewrite bind_run. simpl. unfold phase7_close.
  destruct (do_prefetch g).
  - unfold print_final_rpt. by rewrite emit_run, logged_logged.
  - by rewrite app_nil_r.
Qed.


(** X19.  [set_nlinks] works on the in-core copy: it never touches the
    disk.  When it returns, either the core and the dirty flag are as
    they were (the counts agree, or the mode is dry-run), or the core
    holds the target and the flag is 1, in mutation mode with counts that
    differed; it never clears the flag. *)
Theorem set_nlinks_dirty_with_change (g : globals) (dinoc : xfs_dinode_core)
    (ino nrefs dirty : Z) (w : world) (dinoc' : xfs_dinode_core) (dirty' : Z) (w' : world) :
  set_nlinks g dinoc ino nrefs dirty w = (Done (dinoc', dirty'), w') ->
  w_disk w' = w_disk w /\
  ((dinoc' = dinoc /\ dirty' = dirty /\ (di_nlink dinoc = nrefs \/ no_modify g = true)) \/
   (dinoc' = {| di_nlink := nrefs |} /\ dirty' = 1 /\
    di_nlink dinoc <> nrefs /\ no_modify g = false)).
Proof.
  unfold set_nlinks. destruct (Z.eqb_spec (di_nlink dinoc) nrefs) as [Heq|Hne].
  { intros [= <- <- <-]. split; [done|left]. split_and!; [done|done|by left]. }
  destruct (no_modify g); simpl.
  { intros [= <- <- <-]. split; [done|left]. split_and!; [done|done|by right]. }
  destruct (XFS_MAXLINK_1 h <? nrefs); [destruct (fs_inode_nlink g)|];
    unfold do_warn, ASSERT, bind, ret, emit, abort; simpl; intros [= <- <- <-];
    (split; [done|right; by split_and!]).
Qed.


(** X20.  In mutation mode, over well-formed records that agree with
    the disk and report no slot twice, a pass that runs to the end leaves
    the inode of every live slot but the orphanage with the slot's
    reference count on disk, and every inode that is not the inode of a
    live, non-orphanage slot with a differing recorded count as it was. *)
Theorem mutation_pass_postcondition (g : globals) (mp : xfs_mount) (sched : list nat)
    (w w' : world) :
  no_modify g = false -> wf_incore g mp -> NoDup (reported_slots g) ->
  consistent g mp w ->
  phase7 g mp sched w = (Done tt, w') ->
  (forall agno irec j,
     0 <= agno < glob_agcount g -> irec ∈ findfirst_inode_rec g agno ->
     0 <= j < XFS_INODES_PER_CHUNK h ->
     is_inode_free irec j = false -> slot_ino mp agno irec j <> orphanage_ino g ->
     nlink_on_disk w' (slot_ino mp agno irec j) = Some (num_inode_references irec j)) /\
  (forall i,
     (forall agno irec j,
        0 <= agno < glob_agcount g -> irec ∈ findfirst_inode_rec g agno ->
        0 <= j < XFS_INODES_PER_CHUNK h ->
        slot_mismatch irec j = true -> slot_ino mp agno irec j <> orphanage_ino g ->
        slot_ino mp agno irec j <> i) ->
     w_disk w' !! i = w_disk w !! i).
Proof.
  intros Hmut Hwf Hnd Hcons Hrun. split.
  - intros agno irec j Ha Hr Hj Hf Hne.
    apply (phase7_settles g mp sched w w' agno irec j); try done.
    destruct (slot_mismatch irec j) eqn:Hm; [by left|right].
    rewrite (Hcons agno irec j) by done. f_equal.
    unfold slot_mismatch in Hm. rewrite Hf in Hm. simpl in Hm.
    by apply negb_false_iff, Z.eqb_eq in Hm.
  - intros i Hi. rewrite phase7_normal_form in Hrun.
    apply bind_finished in Hrun as ([] & wb & Hsteps & Hclose).
    transitivity (w_disk wb !! i).
    { unfold phase7_close in Hclose. by destruct (do_prefetch g); injection Hclose as <-. }
    replace wb with (final (exec_steps g mp (phase7_order g sched)
                              (logged w (phase7_open g mp)))) by (by rewrite Hsteps).
    rewrite exec_steps_untouched; [done|]. intros agno irec j Hin.
    destruct (phase7_order_elem g sched agno irec j Hin) as (Ha & Hr & Hj). by apply Hi.
Qed.

End Headers.

(** ** A scenario: one allocation group, one chunk

    Slot 0 is free; inode 1 has three links on disk and two references;
    inode 2 has one of each; inode 3 is the orphanage, with five links on
    disk and no reference counted.  All other slots are free. *)
Module Scenario.

(** The values the macros have in the xfs headers. *)
Definition h : xfs_headers := {|
  XFS_INODES_PER_CHUNK := 64;
  XFS_MAXLINK_1 := 65535;
  XFS_TRANS_REMOVE := 8;
  XFS_TRANS_PERM_LOG_RES := 4;
  XFS_TRANS_RELEASE_LOG_RES := 4;
  XFS_TRANS_SYNC := 8;
  XFS_REMOVE_LOG_COUNT := 2;
  XFS_ILOG_CORE := 1;
  EINVAL := 22
|}.

Definition chunk : ino_tree_node := {|
  ino_startnum := 0;
  ir_free := fun j => negb ((1 <=? j) && (j <=? 3));
  ir_confirmed := fun _ => true;
  ir_reached := fun _ => true;
  ir_referenced := fun _ => true;
  ir_nrefs := fun j => if j =? 1 then 2 else if j =? 2 then 1 else 0;
  ir_disk_nlinks := fun j => if j =? 1 then 3 else if j =? 2 then 1 else if j =? 3 then 5 else 0
|}.

Definition g (dry prefetch : bool) : globals := {|
  no_modify := dry;
  do_prefetch := prefetch;
  fs_inode_nlink := true;
  orphanage_ino := 3;
  glob_agcount := 1;
  incore := fun agno => if agno =? 0 then [chunk] else []
|}.

(** The same filesystem without the nlink feature bit. *)
Definition g_v1 : globals := {|
  no_modify := false;
  do_prefetch := false;
  fs_inode_nlink := false;
  orphanage_ino := 3;
  glob_agcount := 1;
  incore := fun agno => if agno =? 0 then [chunk] else []
|}.

Definition mp : xfs_mount := {|
  m_agino_log := 16;
  m_tr_remove := 4096;
  sb_icount := 64;
  m_reserve_error := fun _ => 0
|}.

Definition disk : gmap Z xfs_dinode_core :=
  <[1 := {| di_nlink := 3 |}]> (<[2 := {| di_nlink := 1 |}]> (<[3 := {| di_nlink := 5 |}]> ∅)).

Definition w0 : world := {| w_disk := disk; w_log := [] |}.

(** The state after one sequential pass in mutation mode. *)
Definition w1 : world := final (phase7 h (g false false) mp [] w0).

Lemma wf dry prefetch : wf_incore h (g dry prefetch) mp.
Proof.
  split; [by vm_compute|]. split; [by vm_compute|].
  intros agno irec Ha Hr. assert (agno = 0) as -> by (simpl in Ha; lia).
  apply list_elem_of_singleton in Hr as ->. by vm_compute.
Defined.

Lemma reported dry prefetch : NoDup (reported_slots h (g dry prefetch)).
Proof. apply (bool_decide_unpack _). by vm_compute. Defined.

End Scenario.

(** ** Two allocation groups *)

Module TwoGroups.

(** Mutation mode, two allocation groups, each with the chunk of the
    scenario: inodes 1 to 3 in group 0 and 65537 to 65539 in group 1. *)
Definition g (prefetch : bool) : globals := {|
  no_modify := false;
  do_prefetch := prefetch;
  fs_inode_nlink := true;
  orphanage_ino := 3;
  glob_agcount := 2;
  incore := fun agno => if (agno =? 0) || (agno =? 1) then [Scenario.chunk] else []
|}.

(** A disk that holds the six inodes with the link counts the chunk records. *)
Definition disk : gmap Z xfs_dinode_core :=
  <[65537 := {| di_nlink := 3 |}]> (<[65538 := {| di_nlink := 1 |}]>
    (<[65539 := {| di_nlink := 5 |}]> Scenario.disk)).

Definition w0 : world := {| w_disk := disk; w_log := [] |}.

(** The state after one sequential pass. *)
Definition w1 : world := final (phase7 Scenario.h (g false) Scenario.mp [] w0).

Lemma wf_two prefetch : wf_incore Scenario.h (g prefetch) Scenario.mp.
Proof.
  split; [by vm_compute|]. split; [by vm_compute|].
  intros agno irec Ha Hr.
  assert (agno = 0 \/ agno = 1) as [-> | ->] by (simpl in Ha; lia);
    apply list_elem_of_singleton in Hr as ->; by vm_compute.
Defined.

End TwoGroups.

Lemma dry_run_leaves_disk_unchanged_witness :
  w_disk (final (phase7 Scenario.h (Scenario.g true true) Scenario.mp [0%nat] Scenario.w0))
  = Scenario.disk.
Proof.
  apply (dry_run_leaves_disk_unchanged Scenario.h (Scenario.g true true) Scenario.mp
           [0%nat] Scenario.w0).
  reflexivity.
Defined.

Lemma unmapped_inode_by_mode_witness :
  update_inode_nlinks Scenario.h (Scenario.g true false) Scenario.mp 7 2 Scenario.w0 =
    (Done tt, logged Scenario.w0 (ev_open Scenario.h (Scenario.g true false) Scenario.mp ++
       [EvTransIget 7 22;
        EvWarn "couldn't map inode %llu, err = %d, can't compare link counts\n" [7; 22]])).
Proof.
  apply (unmapped_inode_by_mode Scenario.h (Scenario.g true false) Scenario.mp 7 2 Scenario.w0);
    reflexivity.
Defined.

Lemma no_mutation_no_commit_witness :
  update_inode_nlinks Scenario.h (Scenario.g false false) Scenario.mp 2 1 Scenario.w0 =
    (Done tt, logged Scenario.w0 (ev_open Scenario.h (Scenario.g false false) Scenario.mp ++
       [EvTransIget 2 0; EvTransIput 2; EvTransCancel 4])).
Proof.
  apply (no_mutation_no_commit Scenario.h (Scenario.g false false) Scenario.mp 2 1 Scenario.w0
           {| di_nlink := 1 |}); reflexivity.
Defined.

Lemma v1_overflow_warns_and_corrects_witness :
  update_inode_nlinks Scenario.h (Scenario.g false false) Scenario.mp 1 65536 Scenario.w0 =
    (Done tt, written Scenario.w0 1 {| di_nlink := 65536 |}
       (ev_open Scenario.h (Scenario.g false false) Scenario.mp ++
        [EvTransIget 1 0;
         EvWarn "resetting inode %llu nlinks from %d to %d\n" [1; 3; 65536];
         EvWarn "nlinks %d will overflow v1 ino, ino %llu will be converted to version 2\n"
           [65536; 1]] ++ ev_commit Scenario.h 1 65536)).
Proof.
  apply (v1_overflow_warns_and_corrects Scenario.h (Scenario.g false false) Scenario.mp 1 65536
           Scenario.w0 {| di_nlink := 3 |}); try reflexivity; by vm_compute.
Defined.

(** Without the nlink feature the assertion in [set_nlinks] fails: inode
    1, three links on disk, 65536 references counted.  The warning about
    the conversion is not emitted, nothing is committed and the disk
    keeps the old count. *)
Lemma v1_overflow_counterexample :
  XFS_MAXLINK_1 Scenario.h < 65536 /\
  set_nlinks Scenario.h Scenario.g_v1 {| di_nlink := 3 |} 1 65536 0 Scenario.w0 =
    (Fatal (AssertFailed "fs_inode_nlink"),
     logged Scenario.w0 [EvWarn "resetting inode %llu nlinks from %d to %d\n" [1; 3; 65536]]) /\
  fst (update_inode_nlinks Scenario.h Scenario.g_v1 Scenario.mp 1 65536 Scenario.w0) =
    Fatal (AssertFailed "fs_inode_nlink") /\
  commits (w_log (final (update_inode_nlinks Scenario.h Scenario.g_v1 Scenario.mp 1 65536
                           Scenario.w0))) = 0%nat /\
  nlink_on_disk (final (update_inode_nlinks Scenario.h Scenario.g_v1 Scenario.mp 1 65536
                          Scenario.w0)) 1 = Some 3.
Proof. split; [reflexivity|]. split_and!; by vm_compute. Qed.


(** Group 1 starts before group 0 does: inode 65537 is corrected before
    inode 1, where the sequential walk corrects inode 1 first. *)
Lemma concurrent_equals_sequential_witness :
  exists w2,
    phase7 Scenario.h (with_prefetch true (TwoGroups.g false)) Scenario.mp
      [1%nat; 1%nat; 0%nat; 1%nat; 0%nat; 0%nat] TwoGroups.w0 = (Done tt, w2) /\
    w_disk w2 = w_disk TwoGroups.w1 /\
    corrections (w_log w2) ≡ₚ [(1, 2); (65537, 2); (65539, 0)] /\
    corrections (w_log w2) = [(65537, 2); (1, 2); (65539, 0)] /\
    corrections (w_log TwoGroups.w1) = [(1, 2); (65537, 2); (65539, 0)].
Proof.
  destruct (concurrent_equals_sequential Scenario.h (TwoGroups.g false) Scenario.mp
              [1%nat; 1%nat; 0%nat; 1%nat; 0%nat; 0%nat] [] TwoGroups.w0
              (TwoGroups.wf_two false)) as (_ & _ & Heq).
  destruct (Heq TwoGroups.w1) as (w2 & Hrun & Hd & Hc & _); [by vm_compute|].
  exists w2. split; [done|]. split; [done|]. split; [exact Hc|].
  split; [|by vm_compute].
  replace w2 with
    (final (phase7 Scenario.h (with_prefetch true (TwoGroups.g false)) Scenario.mp
              [1%nat; 1%nat; 0%nat; 1%nat; 0%nat; 0%nat] TwoGroups.w0))
    by (by rewrite Hrun).
  by vm_compute.
Defined.

(** A pass that does not run to the end.  The same two groups on a disk
    without inode 65537: the slot of that inode, the second of group 1,
    is live with a recorded count of 3 against 2 references, and in
    mutation mode the inode that cannot be mapped is fatal.  The
    sequential walk has by then corrected inode 1 in group 0; the
    concurrent strategy, when the task of group 1 runs first, stops
    before any correction, with inode 1 as it was. *)
Lemma concurrent_equals_sequential_counterexample :
  wf_incore Scenario.h (TwoGroups.g false) Scenario.mp /\
  w_disk Scenario.w0 !! 65537 = None /\
  fst (phase7 Scenario.h (with_prefetch false (TwoGroups.g false)) Scenario.mp []
         Scenario.w0) = Fatal DoError /\
  corrections (w_log (final (phase7 Scenario.h (with_prefetch false (TwoGroups.g false))
                               Scenario.mp [] Scenario.w0))) = [(1, 2)] /\
  nlink_on_disk (final (phase7 Scenario.h (with_prefetch false (TwoGroups.g false))
                          Scenario.mp [] Scenario.w0)) 1 = Some 2 /\
  fst (phase7 Scenario.h (with_prefetch true (TwoGroups.g false)) Scenario.mp
         [1%nat; 1%nat] Scenario.w0) = Fatal DoError /\
  corrections (w_log (final (phase7 Scenario.h (with_prefetch true (TwoGroups.g false))
                               Scenario.mp [1%nat; 1%nat] Scenario.w0))) = [] /\
  nlink_on_disk (final (phase7 Scenario.h (with_prefetch true (TwoGroups.g false))
                          Scenario.mp [1%nat; 1%nat] Scenario.w0)) 1 = Some 3.
Proof. split; [apply TwoGroups.wf_two|]. split_and!; by vm_compute. Qed.

(** The reservation in the two modes, on a mount whose
    [XFS_REMOVE_LOG_RES] is 4096 bytes, for inode 1 with three links on
    disk and a target of 2.  In dry-run mode the transaction is reserved
    with no blocks and 4096 bytes of log space, not zero; in mutation
    mode with 10 blocks and the same 4096 bytes. *)
Lemma reservation_by_mode_counterexample :
  XFS_REMOVE_LOG_RES Scenario.mp = 4096 /\
  w_log (final (update_inode_nlinks Scenario.h (Scenario.g true false) Scenario.mp 1 2
                  Scenario.w0)) =
    [EvTransAlloc 8; EvTransReserve 0 4096 0 4 2; EvTransIget 1 0;
     EvWarn "would have reset inode %llu nlinks from %d to %d\n" [1; 3; 2];
     EvTransIput 1; EvTransCancel 4] /\
  w_log (final (update_inode_nlinks Scenario.h (Scenario.g false false) Scenario.mp 1 2
                  Scenario.w0)) =
    [EvTransAlloc 8; EvTransReserve 10 4096 0 4 2; EvTransIget 1 0;
     EvWarn "resetting inode %llu nlinks from %d to %d\n" [1; 3; 2];
     EvTransLogInode {| i_ino := 1; i_d := {| di_nlink := 2 |} |} 1;
     EvTransCommit 12].
Proof. split_and!; by vm_compute. Qed.

Lemma partition_coverage_witness :
  exists vs,
    visited (w_log (final (phase7 Scenario.h (Scenario.g false true) Scenario.mp [0%nat]
                             Scenario.w0)))
      = visited (w_log Scenario.w0) ++ vs /\
    vs ≡ₚ [(0, 1); (0, 2); (0, 3)].
Proof.
  destruct (partition_coverage Scenario.h (Scenario.g false true) Scenario.mp [0%nat]
              Scenario.w0
              (final (phase7 Scenario.h (Scenario.g false true) Scenario.mp [0%nat]
                        Scenario.w0)))
    as (vs & Hv & Hp & _).
  - by vm_compute.
  - exists vs. split; [exact Hv|exact Hp].
Defined.



(** ** Further cases of the scenario *)

Module Cases.

(** A mount on which a reservation of blocks fails for lack of space. *)
Definition mp_full : xfs_mount := {|
  m_agino_log := 16;
  m_tr_remove := 4096;
  sb_icount := 64;
  m_reserve_error := fun blocks => if blocks =? 0 then 0 else 28
|}.

(** The chunk of the scenario with its free slot 5 left unconfirmed. *)
Definition chunk_unconfirmed : ino_tree_node := {|
  ino_startnum := 0;
  ir_free := ir_free Scenario.chunk;
  ir_confirmed := fun j => negb (j =? 5);
  ir_reached := fun _ => true;
  ir_referenced := fun _ => true;
  ir_nrefs := ir_nrefs Scenario.chunk;
  ir_disk_nlinks := ir_disk_nlinks Scenario.chunk
|}.

Definition g_unconfirmed : globals := {|
  no_modify := true;
  do_prefetch := false;
  fs_inode_nlink := true;
  orphanage_ino := 3;
  glob_agcount := 1;
  incore := fun agno => if agno =? 0 then [chunk_unconfirmed] else []
|}.

(** Two allocation groups without a chunk record. *)
Definition g_empty (prefetch : bool) : globals := {|
  no_modify := false;
  do_prefetch := prefetch;
  fs_inode_nlink := true;
  orphanage_ino := 3;
  glob_agcount := 2;
  incore := fun _ => []
|}.

(** The disk of the scenario without inode 1. *)
Definition w_hole : world := {| w_disk := delete 1 Scenario.disk; w_log := [] |}.

Lemma the_chunk dry prefetch agno irec :
  0 <= agno < glob_agcount (Scenario.g dry prefetch) ->
  irec ∈ findfirst_inode_rec (Scenario.g dry prefetch) agno ->
  agno = 0 /\ irec = Scenario.chunk.
Proof.
  intros Ha Hr. assert (agno = 0) as -> by (simpl in Ha; lia).
  by apply list_elem_of_singleton in Hr as ->.
Defined.

Lemma all_slots (P : Z -> Prop) :
  Forall P (seqZ 0 64) -> forall j, 0 <= j < 64 -> P j.
Proof.
  intros Hall j Hj. apply (proj1 (Forall_forall P (seqZ 0 64)) Hall).
  apply elem_of_seqZ. lia.
Defined.

Lemma agrees dry prefetch :
  consistent Scenario.h (Scenario.g dry prefetch) Scenario.mp Scenario.w0.
Proof.
  intros agno irec j Ha Hr Hj. destruct (the_chunk dry prefetch agno irec Ha Hr) as [-> ->].
  pattern j. apply all_slots; [|exact Hj]. apply (bool_decide_unpack _). by vm_compute.
Defined.

End Cases.

Lemma reservation_failure_stops_witness :
  w_disk (final (phase7 Scenario.h (Scenario.g false false) Cases.mp_full [] Scenario.w0))
  = Scenario.disk.
Proof.
  destruct (reservation_failure_stops Scenario.h (Scenario.g false false) Cases.mp_full []
              1 2 Scenario.w0) as (_ & Hd & _).
  - by vm_compute.
  - exact Hd.
Defined.

Lemma pass_leaves_other_inodes_witness :
  w_disk (final (phase7 Scenario.h (Scenario.g false true) Scenario.mp [0%nat] Scenario.w0))
    !! 2 = Some {| di_nlink := 1 |}.
Proof.
  rewrite (pass_leaves_other_inodes Scenario.h (Scenario.g false true) Scenario.mp [0%nat] 2
             Scenario.w0); [by vm_compute|].
  intros agno irec j Ha Hr Hj. destruct (Cases.the_chunk false true agno irec Ha Hr) as [-> ->].
  pattern j. apply Cases.all_slots; [|exact Hj]. apply (bool_decide_unpack _). by vm_compute.
Defined.

Lemma failed_assertion_stops_pass_witness :
  finished (phase7 Scenario.h Cases.g_unconfirmed Scenario.mp [] Scenario.w0) = false.
Proof.
  apply (failed_assertion_stops_pass Scenario.h Cases.g_unconfirmed Scenario.mp [] 0
           Cases.chunk_unconfirmed 5 Scenario.w0).
  - simpl. lia.
  - by apply list_elem_of_singleton.
  - simpl. lia.
  - by left.
Defined.

Lemma unmapped_inode_stops_pass_witness :
  finished (phase7 Scenario.h (Scenario.g false true) Scenario.mp [0%nat] Cases.w_hole) = false.
Proof.
  apply (unmapped_inode_stops_pass Scenario.h (Scenario.g false true) Scenario.mp [0%nat] 0
           Scenario.chunk 1 Cases.w_hole).
  - reflexivity.
  - simpl. lia.
  - by apply list_elem_of_singleton.
  - simpl. lia.
  - by vm_compute.
  - by vm_compute.
Defined.

Lemma dry_run_pass_finishes_witness :
  finished (phase7 Scenario.h (Scenario.g true true) Scenario.mp [0%nat] Cases.w_hole) = true.
Proof.
  apply (dry_run_pass_finishes Scenario.h (Scenario.g true true) Scenario.mp [0%nat]
           Cases.w_hole).
  - reflexivity.
  - reflexivity.
  - intros agno irec j Ha Hr Hj. destruct (Cases.the_chunk true true agno irec Ha Hr) as [-> ->].
    reflexivity.
Defined.

Lemma mutation_pass_finishes_witness :
  finished (phase7 Scenario.h (Scenario.g false true) Scenario.mp [0%nat] Scenario.w0) = true.
Proof.
  apply (mutation_pass_finishes Scenario.h (Scenario.g false true) Scenario.mp [0%nat]
           Scenario.w0).
  - reflexivity.
  - reflexivity.
  - intros agno irec j Ha Hr Hj. destruct (Cases.the_chunk false true agno irec Ha Hr) as [-> ->].
    split; [reflexivity|]. split; [by split|].
    intros Hm. split; [|by left]. revert Hm. pattern j. apply Cases.all_slots; [|exact Hj].
    apply (bool_decide_unpack _). by vm_compute.
Defined.

Lemma update_inode_nlinks_twice_witness :
  update_inode_nlinks Scenario.h (Scenario.g false false) Scenario.mp 1 2
    (final (update_inode_nlinks Scenario.h (Scenario.g false false) Scenario.mp 1 2 Scenario.w0))
  = (Done tt,
     logged (final (update_inode_nlinks Scenario.h (Scenario.g false false) Scenario.mp 1 2
                      Scenario.w0))
       (ev_open Scenario.h (Scenario.g false false) Scenario.mp ++
        [EvTransIget 1 0; EvTransIput 1; EvTransCancel 4])).
Proof.
  apply (update_inode_nlinks_twice Scenario.h (Scenario.g false false) Scenario.mp 1 2
           Scenario.w0).
  - reflexivity.
  - by vm_compute.
Defined.

Lemma v1_range_correction_witness :
  set_nlinks Scenario.h (Scenario.g false false) {| di_nlink := 3 |} 1 65535 0 Scenario.w0 =
    (Done ({| di_nlink := 65535 |}, 1),
     logged Scenario.w0 [EvWarn "resetting inode %llu nlinks from %d to %d\n" [1; 3; 65535]]).
Proof.
  apply (v1_range_correction Scenario.h (Scenario.g false false) {| di_nlink := 3 |} 1 65535 0
           Scenario.w0).
  - reflexivity.
  - simpl. lia.
  - simpl. lia.
Defined.

Lemma transaction_end_witness :
  exists evs,
    w_log (final (update_inode_nlinks Scenario.h (Scenario.g true false) Scenario.mp 7 2
                    Scenario.w0)) = w_log Scenario.w0 ++ evs /\
    ((is_Some (w_disk Scenario.w0 !! 7) /\ (cancels evs + commits evs = 1)%nat) \/
     (w_disk Scenario.w0 !! 7 = None /\ no_modify (Scenario.g true false) = true /\
      cancels evs = 0%nat /\ commits evs = 0%nat)).
Proof.
  apply (transaction_end Scenario.h (Scenario.g true false) Scenario.mp 7 2 Scenario.w0).
  by vm_compute.
Defined.

Lemma phase7_exact_log_witness :
  w_log (final (phase7 Scenario.h (Scenario.g false true) Scenario.mp [0%nat] Scenario.w0)) =
    w_log Scenario.w0 ++ phase7_open (Scenario.g false true) Scenario.mp ++
    flat_map (step_events Scenario.h (Scenario.g false true) Scenario.mp)
      (phase7_order Scenario.h (Scenario.g false true) [0%nat]) ++
    [EvFinalReport].
Proof.
  apply (phase7_exact_log Scenario.h (Scenario.g false true) Scenario.mp [0%nat] Scenario.w0).
  - apply Cases.agrees.
  - right. split; [apply Scenario.wf | apply Scenario.reported].
  - by vm_compute.
Defined.

Lemma mutation_corrects_each_mismatch_once_witness :
  exists cs,
    corrections (w_log (final (phase7 Scenario.h (Scenario.g false true) Scenario.mp [0%nat]
                                 Scenario.w0)))
      = corrections (w_log Scenario.w0) ++ cs /\
    cs ≡ₚ [(1, 2)].
Proof.
  destruct (mutation_corrects_each_mismatch_once Scenario.h (Scenario.g false true) Scenario.mp
              [0%nat] Scenario.w0
              (final (phase7 Scenario.h (Scenario.g false true) Scenario.mp [0%nat]
                        Scenario.w0)))
    as (cs & Hc & Hp & _).
  - reflexivity.
  - apply Scenario.wf.
  - apply Scenario.reported.
  - apply Cases.agrees.
  - by vm_compute.
  - exists cs. split; [exact Hc|]. vm_compute in Hp. exact Hp.
Defined.

Lemma dry_run_reports_each_mismatch_once_witness :
  exists ws,
    warnings (w_log (final (phase7 Scenario.h (Scenario.g true false) Scenario.mp []
                              Scenario.w0)))
      = warnings (w_log Scenario.w0) ++ ws /\
    ws = [("would have reset inode %llu nlinks from %d to %d\n"%string, [1; 3; 2])].
Proof.
  destruct (dry_run_reports_each_mismatch_once Scenario.h (Scenario.g true false) Scenario.mp
              [] Scenario.w0
              (final (phase7 Scenario.h (Scenario.g true false) Scenario.mp [] Scenario.w0)))
    as (ws & Hw & _ & Hs).
  - reflexivity.
  - apply Cases.agrees.
  - by vm_compute.
  - exists ws. split; [exact Hw|]. rewrite (Hs eq_refl). by vm_compute.
Defined.

Lemma pass_opens_one_transaction_per_mismatch_witness :
  exists evs,
    w_log (final (phase7 Scenario.h (Scenario.g true false) Scenario.mp [] Scenario.w0))
      = w_log Scenario.w0 ++ evs /\
    opened evs = [8; 8].
Proof.
  destruct (pass_opens_one_transaction_per_mismatch Scenario.h (Scenario.g true false)
              Scenario.mp [] Scenario.w0
              (final (phase7 Scenario.h (Scenario.g true false) Scenario.mp [] Scenario.w0)))
    as (evs & Hl & Ho).
  - by vm_compute.
  - exists evs. split; [exact Hl|]. rewrite Ho. by vm_compute.
Defined.

Lemma progress_once_per_chunk_witness :
  exists evs,
    w_log (final (phase7 Scenario.h (Scenario.g false true) Scenario.mp [0%nat] Scenario.w0))
      = w_log Scenario.w0 ++ evs /\
    progress evs ≡ₚ [(0, 64)].
Proof.
  destruct (progress_once_per_chunk Scenario.h (Scenario.g false true) Scenario.mp [0%nat]
              Scenario.w0
              (final (phase7 Scenario.h (Scenario.g false true) Scenario.mp [0%nat]
                        Scenario.w0)))
    as (evs & Hl & Hp).
  - by vm_compute.
  - exists evs. split; [exact Hl|]. exact Hp.
Defined.

Lemma pass_without_records_witness :
  phase7 Scenario.h (Cases.g_empty true) Scenario.mp [1%nat; 0%nat] Scenario.w0 =
    (Done tt,
     logged Scenario.w0
       [EvLog "Phase 7 - verify and correct link counts...\n" [];
        EvProgressMsg false 64; EvFinalReport]).
Proof.
  apply (pass_without_records Scenario.h (Cases.g_empty true) Scenario.mp [1%nat; 0%nat]
           Scenario.w0).
  intros agno Ha. reflexivity.
Defined.

Lemma set_nlinks_dirty_with_change_witness :
  w_disk Scenario.w0 = w_disk Scenario.w0 /\
  (({| di_nlink := 3 |} = {| di_nlink := 3 |} /\ 0 = 0 /\
    (di_nlink {| di_nlink := 3 |} = 2 \/ no_modify (Scenario.g true false) = true)) \/
   ({| di_nlink := 3 |} = {| di_nlink := 2 |} /\ 0 = 1 /\
    di_nlink {| di_nlink := 3 |} <> 2 /\ no_modify (Scenario.g true false) = false)).
Proof.
  apply (set_nlinks_dirty_with_change Scenario.h (Scenario.g true false) {| di_nlink := 3 |}
           1 2 0 Scenario.w0 {| di_nlink := 3 |} 0
           (logged Scenario.w0
              [EvWarn "would have reset inode %llu nlinks from %d to %d\n" [1; 3; 2]])).
  reflexivity.
Defined.

Lemma mutation_pass_postcondition_witness :
  nlink_on_disk
    (final (phase7 Scenario.h (Scenario.g false true) Scenario.mp [0%nat] Scenario.w0)) 1
  = Some 2.
Proof.
  destruct (mutation_pass_postcondition Scenario.h (Scenario.g false true) Scenario.mp [0%nat]
              Scenario.w0
              (final (phase7 Scenario.h (Scenario.g false true) Scenario.mp [0%nat]
                        Scenario.w0)))
    as [Hlive _].
  - reflexivity.
  - apply Scenario.wf.
  - apply Scenario.reported.
  - apply Cases.agrees.
  - by vm_compute.
  - apply (Hlive 0 Scenario.chunk 1).
    + simpl. lia.
    + by apply list_elem_of_singleton.
    + simpl. lia.
    + reflexivity.
    + by vm_compute.
Defined.
